(** * Federation: the [externalUnused] post-composition validator and the
      composed-SDL serializer [printComposedSdl]

    A shallow embedding of
      - src/composition/validate/postComposition/externalUnused.ts
      - src/service/printComposedSdl.ts
    JavaScript strings are modelled as [string] (one [ascii] per code unit,
    so the model covers the code units 0..255), arrays and insertion-ordered
    objects/Maps as lists and association lists, a property that is only
    tested for presence as an [option], a property whose [null] and
    [undefined] the code tells apart as a [Nullable], thrown exceptions as
    the [Throw] constructor of [result], and the mutable properties the
    serializer adds to type objects as fields of the type record that the
    embedded functions return updated. *)

From Stdlib Require Import String Ascii List ZArith Lia Bool Sorted Permutation.
From Stdlib Require Import DecimalString.
From Stdlib Require OrderedTypeEx.
From Stdlib Require DecimalNat.
From stdpp Require Import base list.
Import ListNotations.
Open Scope string_scope.
Set Warnings "-register-all".

(** ** JavaScript string primitives used by the two source files *)
Module JS.

Definition newline : ascii := "010"%char.
Definition dquote : ascii := "034"%char.
Definition backslash : ascii := "092"%char.
Definition nl : string := String newline EmptyString.

(** [Array.prototype.join]. *)
Definition join (sep : string) (items : list string) : string :=
  String.concat sep items.

(** [String(n)] for a non-negative integer counter. *)
Definition ofNat (n : nat) : string := NilEmpty.string_of_uint (Nat.to_uint n).

(** The characters matched by the regular-expression class [\s]
    (among the code units 0..255): TAB, LF, VT, FF, CR, SPACE, NBSP. *)
Definition isSpace (c : ascii) : bool :=
  let n := nat_of_ascii c in
  (Nat.leb 9 n && Nat.leb n 13) || Nat.eqb n 32 || Nat.eqb n 160.

(** [s.replace(/c/g, r)] for a single character [c]. *)
Fixpoint replaceChar (c : ascii) (r : string) (s : string) : string :=
  match s with
  | EmptyString => EmptyString
  | String x s' =>
      if Ascii.eqb x c then r ++ replaceChar c r s'
      else String x (replaceChar c r s')
  end.

(** [s.replace(/(p)+/g, r)]: every maximal run of characters satisfying
    [p] becomes one copy of [r]. *)
Fixpoint replaceRunsFrom (p : ascii -> bool) (r : string) (inRun : bool)
    (s : string) : string :=
  match s with
  | EmptyString => EmptyString
  | String x s' =>
      if p x then
        (if inRun then replaceRunsFrom p r true s'
         else r ++ replaceRunsFrom p r true s')
      else String x (replaceRunsFrom p r false s')
  end.
Definition replaceRuns (p : ascii -> bool) (r : string) (s : string) :=
  replaceRunsFrom p r false s.

(** [s.replace(/[^...]/g, '')]: keep the characters satisfying [keep]. *)
Fixpoint keepChars (keep : ascii -> bool) (s : string) : string :=
  match s with
  | EmptyString => EmptyString
  | String x s' =>
      if keep x then String x (keepChars keep s') else keepChars keep s'
  end.

Fixpoint trimStart (s : string) : string :=
  match s with
  | EmptyString => EmptyString
  | String x s' => if isSpace x then trimStart s' else s
  end.

Fixpoint trimEnd (s : string) : string :=
  match s with
  | EmptyString => EmptyString
  | String x s' =>
      match trimEnd s' with
      | EmptyString => if isSpace x then EmptyString else String x EmptyString
      | t => String x t
      end
  end.

(** [String.prototype.trim]. *)
Definition trim (s : string) : string := trimEnd (trimStart s).

(** [s.split('\n')]. *)
Fixpoint splitLines (s : string) : list string :=
  match s with
  | EmptyString => [EmptyString]
  | String x s' =>
      if Ascii.eqb x newline then EmptyString :: splitLines s'
      else match splitLines s' with
           | l :: ls => String x l :: ls
           | [] => [String x EmptyString]
           end
  end.

(** [s.indexOf('\n') === -1]. *)
Fixpoint hasNoNewline (s : string) : bool :=
  match s with
  | EmptyString => true
  | String x s' => negb (Ascii.eqb x newline) && hasNoNewline s'
  end.

(** [s[0]] and [s[s.length - 1]]; [None] is [undefined]. *)
Definition first (s : string) : option ascii :=
  match s with EmptyString => None | String x _ => Some x end.
Fixpoint last (s : string) : option ascii :=
  match s with
  | EmptyString => None
  | String x EmptyString => Some x
  | String _ s' => last s'
  end.
Definition charIs (o : option ascii) (c : ascii) : bool :=
  match o with Some x => Ascii.eqb x c | None => false end.

(** The [replace] that ends [printBlockString]: every occurrence of three
    double quotes in a row, non-overlapping and left to right, gets a
    backslash in front. *)
Fixpoint escapeTripleQuotes (s : string) : string :=
  match s with
  | String a (String b (String c s' as t2) as t1) =>
      if Ascii.eqb a dquote && Ascii.eqb b dquote && Ascii.eqb c dquote
      then String backslash (String dquote (String dquote (String dquote
             (escapeTripleQuotes s'))))
      else String a (escapeTripleQuotes t1)
  | String a s' => String a (escapeTripleQuotes s')
  | EmptyString => EmptyString
  end.

(** Truthiness of a string: the empty string is falsy. *)
Definition truthy (s : string) : bool :=
  match s with EmptyString => false | _ => true end.

(** The members that every plain object inherits from [Object.prototype]:
    a property lookup [o[name]] finds them when [o] has no own property
    of that name, and each of them is truthy. *)
Definition objectPrototypeMembers : list string :=
  [ "constructor"; "__defineGetter__"; "__defineSetter__"; "hasOwnProperty";
    "__lookupGetter__"; "__lookupSetter__"; "isPrototypeOf";
    "propertyIsEnumerable"; "toString"; "valueOf"; "__proto__";
    "toLocaleString" ].
Definition isObjectPrototypeMember (name : string) : bool :=
  existsb (String.eqb name) objectPrototypeMembers.

End JS.

(** ** Exceptions *)

Inductive exn : Type :=
| TypeError (what : string)      (* property access on undefined / null *)
| OtherError (what : string).    (* an error raised by a collaborator *)

Inductive result (A : Type) : Type :=
| Ok (a : A)
| Throw (e : exn).
Arguments Ok {A} a.
Arguments Throw {A} e.

Definition bind {A B} (r : result A) (k : A -> result B) : result B :=
  match r with Ok a => k a | Throw e => Throw e end.

Notation "'let*' x ':=' e 'in' k" := (bind e (fun x => k))
  (at level 10, x name, e at level 100, k at level 200).

(** [Array.prototype.map] with a callback that may throw: the elements
    are mapped in order and a throw aborts the scan. *)
Fixpoint mapM {A B} (f : A -> result B) (l : list A) : result (list B) :=
  match l with
  | [] => Ok []
  | x :: rest => let* y := f x in let* ys := mapM f rest in Ok (y :: ys)
  end.

(** The same with a callback that also takes the index; [i] is the
    index of the head of [l]. *)
Fixpoint mapFromM {A B} (f : nat -> A -> result B) (i : nat) (l : list A)
    : result (list B) :=
  match l with
  | [] => Ok []
  | x :: rest =>
      let* y := f i x in let* ys := mapFromM f (S i) rest in Ok (y :: ys)
  end.

(** [Array.prototype.some] with a callback that may throw: elements are
    tried in order, the first [true] stops the scan, a throw aborts it. *)
Fixpoint someM {A} (p : A -> result bool) (l : list A) : result bool :=
  match l with
  | [] => Ok false
  | x :: rest => let* b := p x in if (b : bool) then Ok true else someM p rest
  end.

(** A loop that pushes onto one error array: the bodies run in order and
    a throw aborts the loop. *)
Fixpoint collectM {A B} (body : A -> result (list B)) (l : list A)
    : result (list B) :=
  match l with
  | [] => Ok []
  | x :: rest =>
      let* ys := body x in let* zs := collectM body rest in Ok (ys ++ zs)%list
  end.

(** ** The data model: AST nodes, federation metadata, types, schema *)

(** A selection inside a field set.  Only [FIELD] selections carry the
    [name] the validator compares. *)
Inductive SelectionNode : Type :=
| FieldNode (name : string) (selectionSet : option (list SelectionNode))
| FragmentSpreadNode (name : string)
| InlineFragmentNode (typeCondition : option string)
    (selectionSet : list SelectionNode).

Definition isFieldNamed (fieldName : string) (selection : SelectionNode) : bool :=
  match selection with
  | FieldNode n _ => String.eqb n fieldName
  | _ => false
  end.

(** The value of a directive argument. *)
Inductive ValueNode : Type :=
| StringValue (value : string)
| IntValue (value : string)
| FloatValue (value : string)
| BooleanValue (value : bool)
| NullValue
| EnumValue (value : string)
| ListValue (values : list ValueNode)
| ObjectValue (fields : list (string * ValueNode))
| VariableValue (name : string).

Record ArgumentNode : Type := {
  arg_name : string;
  arg_value : ValueNode }.

(** [arguments?: ReadonlyArray<ArgumentNode>]: the property may be absent. *)
Record DirectiveNode : Type := {
  dir_name : string;
  dir_arguments : option (list ArgumentNode) }.

Record FieldDefinitionNode : Type := {
  fd_name : string;
  fd_directives : option (list DirectiveNode) }.

(** Object/interface type definition (or extension) node; [td_fields] is
    absent on the nodes the merge stage synthesizes for types that only
    have extensions. *)
Record TypeDefinitionNode : Type := {
  td_name : string;
  td_directives : option (list DirectiveNode);
  td_fields : option (list FieldDefinitionNode) }.

(** Declaration nodes that carry directive applications. *)
Class HasDirectives (N : Type) := directivesOf : N -> option (list DirectiveNode).
#[export] Instance FieldDefinitionNode_directives : HasDirectives FieldDefinitionNode :=
  fd_directives.
#[export] Instance TypeDefinitionNode_directives : HasDirectives TypeDefinitionNode :=
  td_directives.

(** A field's type: a named type under List / NonNull wrappers. *)
Inductive TypeRef : Type :=
| NamedRef (name : string)
| ListOf (ofType : TypeRef)
| NonNullOf (ofType : TypeRef).

(** [String(type)]. *)
Fixpoint typeRefToString (t : TypeRef) : string :=
  match t with
  | NamedRef n => n
  | ListOf t' => "[" ++ typeRefToString t' ++ "]"
  | NonNullOf t' => typeRefToString t' ++ "!"
  end.

(** [getNamedType]: strip the wrappers. *)
Fixpoint getNamedType (t : TypeRef) : string :=
  match t with
  | NamedRef n => n
  | ListOf t' | NonNullOf t' => getNamedType t'
  end.

(** A property that holds a value, [null], or nothing ([undefined]). *)
Inductive Nullable (A : Type) : Type :=
| Undefined
| Null
| Value (a : A).
Arguments Undefined {A}.
Arguments Null {A}.
Arguments Value {A} a.

(** A JavaScript value, for default values of arguments. *)
Inductive JSValue : Type :=
| JSUndefined | JSNull
| JSBool (b : bool) | JSNumber (z : Z) | JSString (s : string)
| JSArray (items : list JSValue)
| JSObject (props : list (string * JSValue)).

(** [FederationField]: [extensions.federation] of a field; [serviceName]
    is a string, [null] or absent, [requires] and [provides] are optional
    arrays. *)
Record FederationField : Type := {
  ff_serviceName : Nullable string;
  ff_requires : option (list SelectionNode);
  ff_provides : option (list SelectionNode) }.

Record ExternalFieldDefinition : Type := {
  ext_field : FieldDefinitionNode;
  ext_parentTypeName : string;
  ext_serviceName : string }.

(** [FederationType]: [extensions.federation] of a type.  [serviceName]
    is a string or [null] (the composer gives [null] to value types);
    [ft_keys] and [ft_externals] are optional plain objects keyed by
    service name, with their own entries listed in [Object.entries] order;
    a key entry may hold [undefined]. *)
Record FederationType : Type := {
  ft_serviceName : Nullable string;
  ft_keys : option (list (string * option (list (list SelectionNode))));
  ft_externals : option (list (string * list ExternalFieldDefinition));
  ft_isValueType : option bool }.

Record GraphQLArgument : Type := {
  a_name : string;
  a_description : option string;
  a_type : TypeRef;
  a_defaultValue : JSValue }.

Record GraphQLField : Type := {
  f_name : string;
  f_description : option string;
  f_args : list GraphQLArgument;
  f_type : TypeRef;
  f_isDeprecated : bool;
  f_deprecationReason : Nullable string;
  f_astNode : option FieldDefinitionNode;
  f_federation : option FederationField }.

(** An entry of the [fragments] Map of a [FragmentSource]. *)
Record Fragment : Type := {
  frag_id : string;
  frag_text : string }.

(** An Object or Interface type.  The last two fields are the properties
    [FragmentSource] adds: they are absent until [findOrCreateFragment]
    first touches the type object. *)
Record GraphQLCompositeType : Type := {
  ct_name : string;
  ct_description : option string;
  ct_interfaces : list string;
  ct_fields : list GraphQLField;
  ct_astNode : option TypeDefinitionNode;
  ct_extensionASTNodes : option (list TypeDefinitionNode);
  ct_federation : option FederationType;
  ct_fragments : option (list (string * Fragment));
  ct_nextFragmentId : option nat }.

Record GraphQLScalarType : Type := {
  sc_name : string;
  sc_description : option string }.

Record GraphQLUnionType : Type := {
  un_name : string;
  un_description : option string;
  un_types : list string }.

Record GraphQLEnumValue : Type := {
  ev_name : string;
  ev_description : option string;
  ev_isDeprecated : bool;
  ev_deprecationReason : Nullable string }.

Record GraphQLEnumType : Type := {
  en_name : string;
  en_description : option string;
  en_values : list GraphQLEnumValue }.

Record GraphQLInputObjectType : Type := {
  io_name : string;
  io_description : option string;
  io_fields : list GraphQLArgument }.

Inductive GraphQLNamedType : Type :=
| ScalarType (t : GraphQLScalarType)
| ObjectType (t : GraphQLCompositeType)
| InterfaceType (t : GraphQLCompositeType)
| UnionType (t : GraphQLUnionType)
| EnumType (t : GraphQLEnumType)
| InputObjectType (t : GraphQLInputObjectType).

Definition typeName (t : GraphQLNamedType) : string :=
  match t with
  | ScalarType t => sc_name t
  | ObjectType t | InterfaceType t => ct_name t
  | UnionType t => un_name t
  | EnumType t => en_name t
  | InputObjectType t => io_name t
  end.

Definition isObjectType (t : GraphQLNamedType) : bool :=
  match t with ObjectType _ => true | _ => false end.

Record GraphQLDirective : Type := {
  d_name : string;
  d_description : option string;
  d_args : list GraphQLArgument;
  d_isRepeatable : bool;
  d_locations : list string }.

(** The schema: the type map in [Object.entries] order (types refer to
    each other by name and are resolved through this map), the directive
    definitions and the names of the root operation types. *)
Record GraphQLSchema : Type := {
  s_typeMap : list (string * GraphQLNamedType);
  s_directives : list GraphQLDirective;
  s_queryType : option string;
  s_mutationType : option string;
  s_subscriptionType : option string }.

(** [ServiceDefinition]; [url] is an optional property. *)
Record ServiceDefinition : Type := {
  svc_name : string;
  svc_url : option string;
  svc_typeDefs : string }.

(** Lookup in an object keyed by strings: the first entry under the key. *)
Fixpoint lookupKey {V} (k : string) (entries : list (string * V)) : option V :=
  match entries with
  | [] => None
  | (k', v) :: rest => if String.eqb k' k then Some v else lookupKey k rest
  end.

(** ** The validator: externalUnused.ts *)

(** A composition error, as built by [errorWithCode (code, message, nodes)]. *)
Record GraphQLError : Type := {
  err_code : string;
  err_message : string;
  err_nodes : list DirectiveNode }.

(** Modelled from the spec: [errorWithCode] of composition/utils, which is
    not among the sources; it produces the error record
    [{ code, message, sourceNodes }]. *)
Definition errorWithCode (code message : string) (nodes : list DirectiveNode)
    : GraphQLError :=
  {| err_code := code; err_message := message; err_nodes := nodes |}.

(** Modelled from the spec: [findDirectivesOnNode] of composition/utils,
    which is not among the sources; all directive applications of the given
    name on a declaration node, in source order, and none when the node
    has no directives or is absent. *)
Definition findDirectivesOnNode {N} `{HasDirectives N} (node : option N)
    (directiveName : string) : list DirectiveNode :=
  match node with
  | Some n =>
      match directivesOf n with
      | Some ds => List.filter (fun d => String.eqb (dir_name d) directiveName) ds
      | None => []
      end
  | None => []
  end.

(** The fields of Object and Interface types; other kinds have none. *)
Definition compositeFields (t : GraphQLNamedType) : list GraphQLField :=
  match t with
  | ObjectType c | InterfaceType c => ct_fields c
  | _ => []
  end.

(** Modelled from the spec: [findFieldsThatReturnType] of composition/utils,
    which is not among the sources; it scans the fields of every Object and
    Interface type in type-map order, then declaration order, and keeps
    those whose return type, unwrapped, is [typeToFind] by name. *)
Definition findFieldsThatReturnType (schema : GraphQLSchema)
    (typeToFind : GraphQLCompositeType) : list GraphQLField :=
  flat_map
    (fun entry =>
       List.filter
         (fun f => String.eqb (getNamedType (f_type f)) (ct_name typeToFind))
         (compositeFields (snd entry)))
    (s_typeMap schema).

(** [directive.arguments[0].value]: reading [value] of [undefined] throws
    when the argument array is empty. *)
Definition firstArgumentValue (arguments : list ArgumentNode) : result ValueNode :=
  match arguments with
  | a :: _ => Ok (arg_value a)
  | [] => Throw (TypeError "Cannot read property 'value' of undefined")
  end.

(** [keys[serviceName]] is truthy.  The keys object is a plain object:
    an own entry is found first, and it is truthy when it holds an array
    (an own entry may hold [undefined]); without an own entry the lookup
    goes on to [Object.prototype], whose members are all truthy. *)
Definition hasKeyEntry (serviceName : string)
    (keys : list (string * option (list (list SelectionNode)))) : bool :=
  match lookupKey serviceName keys with
  | Some (Some _) => true
  | Some None => false
  | None => JS.isObjectPrototypeMember serviceName
  end.

(** The escape at the head of the type loop:
    [serviceName && keys && !keys[serviceName]]. *)
Definition escapesValidation (metadata : option FederationType) : bool :=
  match metadata with
  | Some m =>
      match ft_serviceName m, ft_keys m with
      | Value serviceName, Some keys =>
          JS.truthy serviceName && negb (hasKeyEntry serviceName keys)
      | _, _ => false
      end
  | None => false
  end.

Definition unusedMessage : string :=
  "is marked as @external but is not used by a @requires, @key, or @provides directive.".

Section Validator.

(** Collaborators from composition/utils that are not among the sources. *)
Variable parseFieldSet : string -> result (list SelectionNode).
Variable hasMatchingFieldInDirectives :
  list DirectiveNode -> string -> GraphQLCompositeType -> result bool.
Variable selectionIncludesField :
  GraphQLSchema -> list SelectionNode -> GraphQLCompositeType ->
  GraphQLCompositeType -> string -> result bool.
Variable logServiceAndType : string -> string -> string -> string.

(** Condition 1: a [@key] on the type selects the field. *)
Definition hasMatchingKeyOnType (parentType : GraphQLCompositeType)
    (externalFieldName : string) : result bool :=
  hasMatchingFieldInDirectives
    (findDirectivesOnNode (ct_astNode parentType) "key")
    externalFieldName parentType.

(** The callback given to [some] over the [@provides] directives. *)
Definition providesSelectsField (externalFieldName : string)
    (directive : DirectiveNode) : result bool :=
  match dir_arguments directive with
  | None => Ok false
  | Some arguments =>
      let* v := firstArgumentValue arguments in
      match v with
      | StringValue text =>
          let* selections := parseFieldSet text in
          Ok (existsb (isFieldNamed externalFieldName) selections)
      | _ => Ok false
      end
  end.

(** Condition 2: a [@provides] on a field that returns the type. *)
Definition hasMatchingProvidesOnAnotherType (schema : GraphQLSchema)
    (parentType : GraphQLCompositeType) (externalFieldName : string)
    : result bool :=
  someM
    (fun field =>
       someM (providesSelectsField externalFieldName)
         (findDirectivesOnNode (f_astNode field) "provides"))
    (findFieldsThatReturnType schema parentType).

(** The callback given to [some] over the [@requires] directives. *)
Definition requiresReachesField (schema : GraphQLSchema)
    (namedType parentType : GraphQLCompositeType)
    (externalFieldName : string) (directive : DirectiveNode) : result bool :=
  match dir_arguments directive with
  | None => Ok false
  | Some arguments =>
      let* v := firstArgumentValue arguments in
      match v with
      | StringValue text =>
          let* selections := parseFieldSet text in
          selectionIncludesField schema selections namedType parentType
            externalFieldName
      | _ => Ok false
      end
  end.

(** Condition 3: a [@requires] on any field of any Object type reaches
    the field. *)
Definition hasMatchingRequiresOnAnotherType (schema : GraphQLSchema)
    (parentType : GraphQLCompositeType) (externalFieldName : string)
    : result bool :=
  someM
    (fun namedType =>
       match namedType with
       | ObjectType o =>
           someM
             (fun field =>
                someM
                  (requiresReachesField schema o parentType externalFieldName)
                  (findDirectivesOnNode (f_astNode field) "requires"))
             (ct_fields o)
       | _ => Ok false
       end)
    (map snd (s_typeMap schema)).

(** Condition 4: a [@requires] on a field of the same type owned by the
    same service. *)
Definition hasMatchingRequiresOnType (parentType : GraphQLCompositeType)
    (serviceName externalFieldName : string) : result bool :=
  someM
    (fun maybeRequiresField =>
       let fieldOwner :=
         match f_federation maybeRequiresField with
         | Some m => ff_serviceName m
         | None => Undefined
         end in
       match fieldOwner with
       | Value owner =>
           if String.eqb owner serviceName then
             hasMatchingFieldInDirectives
               (findDirectivesOnNode (f_astNode maybeRequiresField) "requires")
               externalFieldName parentType
           else Ok false
       | _ => Ok false
       end)
    (ct_fields parentType).

(** The set of field names collected from the implemented interfaces,
    each interface resolved by name through the type map. *)
Definition fieldsOnInterfacesImplementedByParentType (schema : GraphQLSchema)
    (parentType : GraphQLCompositeType) : list string :=
  flat_map
    (fun interfaceName =>
       match lookupKey interfaceName (s_typeMap schema) with
       | Some (InterfaceType i) => map f_name (ct_fields i)
       | _ => []
       end)
    (ct_interfaces parentType).

(** Condition 5: an implemented interface declares the field. *)
Definition isInterfaceField (schema : GraphQLSchema)
    (parentType : GraphQLCompositeType) (externalFieldName : string) : bool :=
  existsb (String.eqb externalFieldName)
    (fieldsOnInterfacesImplementedByParentType schema parentType).

Definition externalUnusedError (serviceName parentTypeName : string)
    (externalField : FieldDefinitionNode) : GraphQLError :=
  errorWithCode "EXTERNAL_UNUSED"
    (logServiceAndType serviceName parentTypeName (fd_name externalField)
       ++ unusedMessage)
    (findDirectivesOnNode (Some externalField) "external").

(** The body of the innermost loop: [None] is [continue], [Some e] is
    [errors.push(e)]. *)
Definition checkExternalField (schema : GraphQLSchema)
    (parentTypeName : string) (parentType : GraphQLCompositeType)
    (serviceName : string) (externalField : FieldDefinitionNode)
    : result (option GraphQLError) :=
  let externalFieldName := fd_name externalField in
  let* c1 := hasMatchingKeyOnType parentType externalFieldName in
  if (c1 : bool) then Ok None else
  let* c2 := hasMatchingProvidesOnAnotherType schema parentType externalFieldName in
  if (c2 : bool) then Ok None else
  let* c3 := hasMatchingRequiresOnAnotherType schema parentType externalFieldName in
  if (c3 : bool) then Ok None else
  let* c4 := hasMatchingRequiresOnType parentType serviceName externalFieldName in
  if (c4 : bool) then Ok None else
  if isInterfaceField schema parentType externalFieldName then Ok None else
  Ok (Some (externalUnusedError serviceName parentTypeName externalField)).

Definition pushed (r : option GraphQLError) : list GraphQLError :=
  match r with Some e => [e] | None => [] end.

(** The loop over the services that declare externals on one type. *)
Definition checkExternals (schema : GraphQLSchema) (parentTypeName : string)
    (parentType : GraphQLCompositeType)
    (externals : list (string * list ExternalFieldDefinition))
    : result (list GraphQLError) :=
  collectM
    (fun entry =>
       collectM
         (fun ext =>
            let* r := checkExternalField schema parentTypeName parentType
                        (fst entry) (ext_field ext) in
            Ok (pushed r))
         (snd entry))
    externals.

(** The body of the outer loop over the type map. *)
Definition checkType (schema : GraphQLSchema)
    (entry : string * GraphQLNamedType) : result (list GraphQLError) :=
  match snd entry with
  | ObjectType parentType =>
      let typeFederationMetadata := ct_federation parentType in
      if escapesValidation typeFederationMetadata then Ok []
      else
        match typeFederationMetadata with
        | Some m =>
            match ft_externals m with
            | Some externals =>
                checkExternals schema (fst entry) parentType externals
            | None => Ok []
            end
        | None => Ok []
        end
  | _ => Ok []
  end.

Definition externalUnused (schema : GraphQLSchema) : result (list GraphQLError) :=
  collectM (checkType schema) (s_typeMap schema).

End Validator.

(** ** The serializer: printComposedSdl.ts *)

Record Options : Type := {
  commentDescriptions : option bool }.

(** What graphql's [print] is applied to in this file. *)
Inductive ASTNode : Type :=
| SelectionAST (node : SelectionNode)
| ValueAST (node : ValueNode).

(** graphql's [DEFAULT_DEPRECATION_REASON]. *)
Definition DEFAULT_DEPRECATION_REASON : string := "No longer supported".

Definition quoted (s : string) : string :=
  String JS.dquote s ++ String JS.dquote EmptyString.

(** Interpolation of a string property into a template literal. *)
Definition interpolate (s : Nullable string) : string :=
  match s with
  | Value s => s
  | Null => "null"
  | Undefined => "undefined"
  end.

(** A string property as the JavaScript value handed to [astFromValue]. *)
Definition stringValueOf (s : Nullable string) : JSValue :=
  match s with
  | Value s => JSString s
  | Null => JSNull
  | Undefined => JSUndefined
  end.

(** The JavaScript [Map] held in [fragments]: insertion-ordered; [set] on
    an existing key keeps its position. *)
Fixpoint mapSet {V} (k : string) (v : V) (m : list (string * V)) : list (string * V) :=
  match m with
  | [] => [(k, v)]
  | (k', v') :: rest =>
      if String.eqb k' k then (k, v) :: rest else (k', v') :: mapSet k v rest
  end.

(** [Array.prototype.sort] with a comparator, as a stable insertion sort:
    [x] goes before the first [y] with [compareFn x y <= 0]. *)
Fixpoint insertSorted {A} (compareFn : A -> A -> Z) (x : A) (l : list A) : list A :=
  match l with
  | [] => [x]
  | y :: rest =>
      if (compareFn x y <=? 0)%Z then x :: l
      else y :: insertSorted compareFn x rest
  end.
Definition sortWith {A} (compareFn : A -> A -> Z) (l : list A) : list A :=
  fold_right (insertSorted compareFn) [] l.

(** [printBlock]. *)
Definition printBlock (items : list string) (onNewLine : bool) : string :=
  match items with
  | [] => EmptyString
  | _ =>
      if onNewLine then JS.nl ++ "{" ++ JS.nl ++ JS.join JS.nl items ++ JS.nl ++ "}"
      else " {" ++ JS.nl ++ JS.join JS.nl items ++ JS.nl ++ "}"
  end.

(** [printBlockString]. *)
Definition printBlockString (value indentation : string)
    (preferMultipleLines : bool) : string :=
  let isSingleLine := JS.hasNoNewline value in
  let hasLeadingSpace :=
    JS.charIs (JS.first value) " "%char || JS.charIs (JS.first value) "009"%char in
  let hasTrailingQuote := JS.charIs (JS.last value) JS.dquote in
  let hasTrailingSlash := JS.charIs (JS.last value) JS.backslash in
  let printAsMultipleLines :=
    negb isSingleLine || hasTrailingQuote || hasTrailingSlash
    || preferMultipleLines in
  let result0 :=
    if printAsMultipleLines && negb (isSingleLine && hasLeadingSpace)
    then JS.nl ++ indentation else EmptyString in
  let result1 :=
    result0 ++ (if JS.truthy indentation
                then JS.replaceChar JS.newline (JS.nl ++ indentation) value
                else value) in
  let result2 := if printAsMultipleLines then result1 ++ JS.nl else result1 in
  let q3 := String JS.dquote (String JS.dquote (String JS.dquote EmptyString)) in
  q3 ++ JS.escapeTripleQuotes result2 ++ q3.

(** [printDescriptionWithComments]. *)
Definition printDescriptionWithComments (description indentation : string)
    (firstInBlock : bool) : string :=
  let prefix := if JS.truthy indentation && negb firstInBlock then JS.nl
                else EmptyString in
  let comment :=
    JS.join JS.nl
      (map (fun line => indentation ++ (if JS.truthy line then "# " ++ line else "#"))
         (JS.splitLines description)) in
  prefix ++ comment ++ JS.nl.

(** [printDescription (options, def, indentation, firstInBlock)], given
    [def.description]. *)
Definition printDescription (options : option Options)
    (description : option string) (indentation : string) (firstInBlock : bool)
    : string :=
  match description with
  | None => EmptyString
  | Some description =>
      let commentMode :=
        match options with
        | Some o => match commentDescriptions o with Some true => true | _ => false end
        | None => false
        end in
      if commentMode
      then printDescriptionWithComments description indentation firstInBlock
      else
        let preferMultipleLines := Nat.ltb 70 (String.length description) in
        let blockString := printBlockString description EmptyString preferMultipleLines in
        let prefix := if JS.truthy indentation && negb firstInBlock
                      then JS.nl ++ indentation else indentation in
        prefix ++ JS.replaceChar JS.newline (JS.nl ++ indentation) blockString ++ JS.nl
  end.

(** [asValidIdentifier]. *)
Definition isSeparator (c : ascii) : bool :=
  JS.isSpace c || Ascii.eqb c ","%char || Ascii.eqb c "{"%char || Ascii.eqb c "}"%char.
Definition isIdentifierChar (c : ascii) : bool :=
  let n := nat_of_ascii c in
  (Nat.leb 65 n && Nat.leb n 90) || (Nat.leb 97 n && Nat.leb n 122)
  || Nat.eqb n 95 || (Nat.leb 48 n && Nat.leb n 57).
Definition asValidIdentifier (input : string) : string :=
  JS.keepChars isIdentifierChar
    (JS.replaceRuns (fun c => Ascii.eqb c "_"%char) "_"
       (JS.replaceRuns isSeparator "_" (JS.trim input))).

Section Serializer.

(** graphql and JavaScript built-ins, and the parts of this repository
    that are not among the sources.  graphql's [astFromValue] throws on a
    value that it cannot convert; [print] does not throw on the nodes it
    is given here. *)
Variable print : ASTNode -> string.
Variable astFromValue : JSValue -> TypeRef -> result (option ValueNode).
Variable JSON_stringify : string -> string.
Variable localeCompare : string -> string -> Z.
Variable isSpecifiedDirective : GraphQLDirective -> bool.
Variable isSpecifiedScalarType : GraphQLNamedType -> bool.
Variable isIntrospectionType : GraphQLNamedType -> bool.
Variable isFederationType : GraphQLNamedType -> bool.
Variable isFederationDirective : GraphQLDirective -> bool.
Variable csdlDefinitions : list string.

Definition isDefinedType (type : GraphQLNamedType) : bool :=
  negb (isSpecifiedScalarType type) && negb (isIntrospectionType type)
  && negb (isFederationType type).

Definition printSchemaDefinition (schema : GraphQLSchema) : string :=
  let pushed prefix (operationType : option string) :=
    match operationType with Some n => [prefix ++ n] | None => [] end in
  let operationTypes :=
    List.app (pushed "  query: " (s_queryType schema))
      (List.app (pushed "  mutation: " (s_mutationType schema))
         (pushed "  subscription: " (s_subscriptionType schema))) in
  "schema @using(spec: " ++ quoted "https://specs.apollo.dev/cs/v0.1" ++ ")"
  ++ JS.nl ++ "{" ++ JS.nl ++ JS.join JS.nl operationTypes ++ JS.nl ++ "}".

(** [printGraphs]: the array of entries is interpolated into the
    template, hence joined with commas; [JSON.stringify] of an absent
    [url] is [undefined], which the template prints as such. *)
Definition printGraphs (serviceList : list ServiceDefinition) : string :=
  "enum cs__Graph {"
  ++ JS.join ","
       (map (fun service =>
               JS.nl ++ "  " ++ svc_name service
               ++ " @cs__link(to: { http: { url: "
               ++ match svc_url service with
                  | Some url => JSON_stringify url
                  | None => "undefined"
                  end
               ++ " } })")
          serviceList)
  ++ JS.nl ++ "}".

Definition printScalar (type : GraphQLScalarType) (options : option Options) : string :=
  printDescription options (sc_description type) EmptyString true
  ++ "scalar " ++ sc_name type.

Definition printWithReducedWhitespace (ast : ASTNode) : string :=
  JS.trim (JS.replaceRuns JS.isSpace " " (print ast)).

Definition printFieldSet (selections : list SelectionNode) : string :=
  "{ "
  ++ JS.join " " (map (fun s => printWithReducedWhitespace (SelectionAST s)) selections)
  ++ " }".

(** [printKeys] reads and increments the module-level [nextKeyId]; the
    counter is passed in and returned. *)
Fixpoint printKeySelections (typeName service : string)
    (keys : list (list SelectionNode)) (nextKeyId : nat) : list string * nat :=
  match keys with
  | [] => ([], nextKeyId)
  | selections :: rest =>
      let line :=
        JS.nl ++ "fragment cs__keyFor_" ++ typeName ++ "_" ++ JS.ofNat nextKeyId
        ++ " on " ++ typeName ++ " @cs__key(graph: " ++ service ++ ") "
        ++ printFieldSet selections in
      let (lines, n) := printKeySelections typeName service rest (S nextKeyId) in
      (line :: lines, n)
  end.

Fixpoint printKeyEntries (typeName : string)
    (entries : list (string * option (list (list SelectionNode))))
    (nextKeyId : nat) : list string * nat :=
  match entries with
  | [] => ([], nextKeyId)
  | (service, keys) :: rest =>
      let (text, n1) :=
        match keys with
        | Some keys =>
            let (lines, n) := printKeySelections typeName service keys nextKeyId in
            (JS.join EmptyString lines, n)
        | None => (EmptyString, nextKeyId)
        end in
      let (texts, n2) := printKeyEntries typeName rest n1 in
      (text :: texts, n2)
  end.

Definition printKeys (type : GraphQLCompositeType) (nextKeyId : nat) : string * nat :=
  match ct_federation type with
  | None => (EmptyString, nextKeyId)
  | Some metadata =>
      match ft_serviceName metadata, ft_keys metadata with
      | Value ownerService, Some keys =>
          if JS.truthy ownerService then
            let (texts, n) := printKeyEntries (ct_name type) keys nextKeyId in
            (JS.join EmptyString texts ++ JS.nl, n)
          else (EmptyString, nextKeyId)
      | _, _ => (EmptyString, nextKeyId)
      end
  end.

(** [findOrCreateFragment] mutates the type object: it returns the
    fragment id and the updated object. *)
Definition findOrCreateFragment (type : GraphQLCompositeType)
    (selections : list SelectionNode) : string * GraphQLCompositeType :=
  let fragments := match ct_fragments type with Some m => m | None => [] end in
  let nextFragmentId := match ct_nextFragmentId type with Some n => n | None => 0 end in
  let key := printFieldSet selections in
  let touched l n :=
    {| ct_name := ct_name type; ct_description := ct_description type;
       ct_interfaces := ct_interfaces type; ct_fields := ct_fields type;
       ct_astNode := ct_astNode type;
       ct_extensionASTNodes := ct_extensionASTNodes type;
       ct_federation := ct_federation type;
       ct_fragments := Some l; ct_nextFragmentId := Some n |} in
  match lookupKey key fragments with
  | Some existing => (frag_id existing, touched fragments nextFragmentId)
  | None =>
      let id :=
        "cs__fragmentOn_"
        ++ asValidIdentifier
             (ct_name type ++ "_" ++ key ++ "_" ++ JS.ofNat nextFragmentId) in
      let fragment :=
        {| frag_id := id;
           frag_text := "fragment " ++ id ++ " on " ++ ct_name type ++ " "
                        ++ printFieldSet selections |} in
      (id, touched (mapSet id fragment fragments) (S nextFragmentId))
  end.

(** [printFragmentsForType]: [join ()] separates with commas. *)
Definition printFragmentsForType (type : GraphQLCompositeType) : string :=
  JS.join ","
    (map (fun entry => JS.nl ++ frag_text (snd entry))
       (match ct_fragments type with Some m => m | None => [] end)).

(** [printFederationFieldDirectives]: may throw, and mutates the type
    object through [findOrCreateFragment]. *)
Definition printFederationFieldDirectives (type : GraphQLCompositeType)
    (field : GraphQLField) : result string * GraphQLCompositeType :=
  match f_federation field with
  | None =>
      match ct_federation type with
      | None =>
          (Throw (TypeError "Cannot destructure property 'serviceName' of undefined"),
           type)
      | Some metadata =>
          (Ok (" @cs__resolve(graph: " ++ interpolate (ft_serviceName metadata) ++ ")"),
           type)
      end
  | Some metadata =>
      let requires := match ff_requires metadata with Some l => l | None => [] end in
      let provides := match ff_provides metadata with Some l => l | None => [] end in
      let (requiresText, type1) :=
        match requires with
        | [] => (EmptyString, type)
        | _ => let (id, t) := findOrCreateFragment type requires in
               (", requires: " ++ quoted id, t)
        end in
      let (providesText, type2) :=
        match provides with
        | [] => (EmptyString, type1)
        | _ => let (id, t) := findOrCreateFragment type1 provides in
               (", provides: " ++ quoted id, t)
        end in
      (Ok (" @cs__resolve(graph: " ++ interpolate (ff_serviceName metadata)
           ++ requiresText ++ providesText ++ ")"),
       type2)
  end.

Definition printInputValue (arg : GraphQLArgument) : result string :=
  let* defaultAST := astFromValue (a_defaultValue arg) (a_type arg) in
  let argDecl := a_name arg ++ ": " ++ typeRefToString (a_type arg) in
  Ok match defaultAST with
     | Some ast => argDecl ++ " = " ++ print (ValueAST ast)
     | None => argDecl
     end.

Definition hasDescription (description : option string) : bool :=
  match description with Some d => JS.truthy d | None => false end.

Definition printArgs (options : option Options) (args : list GraphQLArgument)
    (indentation : string) : result string :=
  match args with
  | [] => Ok EmptyString
  | _ =>
      if forallb (fun arg => negb (hasDescription (a_description arg))) args
      then
        let* values := mapM printInputValue args in
        Ok ("(" ++ JS.join ", " values ++ ")")
      else
        let* lines :=
          mapFromM
            (fun i arg =>
               let* value := printInputValue arg in
               Ok (printDescription options (a_description arg)
                     ("  " ++ indentation) (Nat.eqb i 0)
                   ++ "  " ++ indentation ++ value))
            0 args in
        Ok ("(" ++ JS.nl ++ JS.join JS.nl lines ++ JS.nl ++ indentation ++ ")")
  end.

Definition printDirective (directive : GraphQLDirective)
    (options : option Options) : result string :=
  let* args := printArgs options (d_args directive) EmptyString in
  Ok (printDescription options (d_description directive) EmptyString true
      ++ "directive @" ++ d_name directive
      ++ args
      ++ (if d_isRepeatable directive then " repeatable" else EmptyString)
      ++ " on " ++ JS.join " | " (d_locations directive)).

(** [printDeprecated], given [isDeprecated] and [deprecationReason]. *)
Definition printDeprecated (isDeprecated : bool) (reason : Nullable string)
    : result string :=
  if negb isDeprecated then Ok EmptyString
  else
    let* reasonAST := astFromValue (stringValueOf reason) (NamedRef "String") in
    let isDefaultReason :=
      match reason with
      | Value r => String.eqb r DEFAULT_DEPRECATION_REASON
      | _ => false
      end in
    Ok match reasonAST with
       | Some ast =>
           if isDefaultReason then " @deprecated"
           else " @deprecated(reason: " ++ print (ValueAST ast) ++ ")"
       | None => " @deprecated"
       end.

(** The callback that [printFields] maps over the fields: the operands
    of the concatenation are evaluated from left to right, so the
    arguments are printed first, then the deprecation, then the federation
    directives, which may store a fragment on the type object. *)
Definition printFieldLine (options : option Options) (i : nat)
    (type : GraphQLCompositeType) (f : GraphQLField)
    : result string * GraphQLCompositeType :=
  match printArgs options (f_args f) "  " with
  | Throw e => (Throw e, type)
  | Ok args =>
      match printDeprecated (f_isDeprecated f) (f_deprecationReason f) with
      | Throw e => (Throw e, type)
      | Ok deprecated =>
          match printFederationFieldDirectives type f with
          | (Throw e, type1) => (Throw e, type1)
          | (Ok directives, type1) =>
              (Ok (printDescription options (f_description f) "  " (Nat.eqb i 0)
                   ++ "  " ++ f_name f ++ args
                   ++ ": " ++ typeRefToString (f_type f)
                   ++ deprecated ++ directives),
               type1)
          end
      end
  end.

(** The [map] of [printFields], run over the fields in order; the type
    object is threaded through, a throw stops the loop. *)
Fixpoint printFieldLines (options : option Options) (i : nat)
    (fields : list GraphQLField) (type : GraphQLCompositeType)
    : result (list string) * GraphQLCompositeType :=
  match fields with
  | [] => (Ok [], type)
  | f :: rest =>
      match printFieldLine options i type f with
      | (Throw e, type1) => (Throw e, type1)
      | (Ok line, type1) =>
          match printFieldLines options (S i) rest type1 with
          | (Throw e, type2) => (Throw e, type2)
          | (Ok lines, type2) => (Ok (line :: lines), type2)
          end
      end
  end.

Definition isEntity (type : GraphQLCompositeType) : bool :=
  match ct_federation type with
  | Some m => match ft_keys m with Some _ => true | None => false end
  | None => false
  end.

Definition printFields (options : option Options) (type : GraphQLCompositeType)
    : result string * GraphQLCompositeType :=
  match printFieldLines options 0 (ct_fields type) type with
  | (Throw e, type1) => (Throw e, type1)
  | (Ok fields, type1) => (Ok (printBlock fields (isEntity type1)), type1)
  end.

(** [type.extensionASTNodes && type.astNode && !type.astNode.fields]. *)
Definition isExtension (type : GraphQLCompositeType) : bool :=
  match ct_extensionASTNodes type, ct_astNode type with
  | Some _, Some astNode =>
      match td_fields astNode with None => true | Some _ => false end
  | _, _ => false
  end.

Definition printObject (type : GraphQLCompositeType) (options : option Options)
    (nextKeyId : nat) : result string * GraphQLCompositeType * nat :=
  let interfaces := ct_interfaces type in
  let implementedInterfaces :=
    match interfaces with
    | [] => EmptyString
    | _ => " implements " ++ JS.join " & " interfaces
    end in
  match printFields options type with
  | (Throw e, type1) => (Throw e, type1, nextKeyId)
  | (Ok fields, type1) =>
      let (keys, nextKeyId1) := printKeys type1 nextKeyId in
      (Ok (printDescription options (ct_description type) EmptyString true
           ++ (if isExtension type then "extend " else EmptyString)
           ++ "type " ++ ct_name type
           ++ implementedInterfaces
           ++ fields ++ keys ++ printFragmentsForType type1),
       type1, nextKeyId1)
  end.

Definition printInterface (type : GraphQLCompositeType) (options : option Options)
    : result string * GraphQLCompositeType :=
  match printFields options type with
  | (Throw e, type1) => (Throw e, type1)
  | (Ok fields, type1) =>
      (Ok (printDescription options (ct_description type) EmptyString true
           ++ (if isExtension type then "extend " else EmptyString)
           ++ "interface " ++ ct_name type
           ++ fields ++ printFragmentsForType type1),
       type1)
  end.

Definition printUnion (type : GraphQLUnionType) (options : option Options) : string :=
  let types := un_types type in
  let possibleTypes :=
    match types with [] => EmptyString | _ => " = " ++ JS.join " | " types end in
  printDescription options (un_description type) EmptyString true
  ++ "union " ++ un_name type ++ possibleTypes.

Definition printEnum (type : GraphQLEnumType) (options : option Options)
    : result string :=
  let* values :=
    mapFromM
      (fun i value =>
         let* deprecated :=
           printDeprecated (ev_isDeprecated value) (ev_deprecationReason value) in
         Ok (printDescription options (ev_description value) "  " (Nat.eqb i 0)
             ++ "  " ++ ev_name value ++ deprecated))
      0 (en_values type) in
  Ok (printDescription options (en_description type) EmptyString true
      ++ "enum " ++ en_name type ++ printBlock values false).

Definition printInputObject (type : GraphQLInputObjectType)
    (options : option Options) : result string :=
  let* fields :=
    mapFromM
      (fun i f =>
         let* value := printInputValue f in
         Ok (printDescription options (a_description f) "  " (Nat.eqb i 0)
             ++ "  " ++ value))
      0 (io_fields type) in
  Ok (printDescription options (io_description type) EmptyString true
      ++ "input " ++ io_name type ++ printBlock fields false).

(** [printType]: a named type is of one of the six kinds, so the [throw]
    that ends the source function is not reached. *)
Definition printType (type : GraphQLNamedType) (options : option Options)
    (nextKeyId : nat) : result string * GraphQLNamedType * nat :=
  match type with
  | ScalarType t => (Ok (printScalar t options), type, nextKeyId)
  | ObjectType t =>
      let '(r, t1, n) := printObject t options nextKeyId in (r, ObjectType t1, n)
  | InterfaceType t =>
      let '(r, t1) := printInterface t options in (r, InterfaceType t1, nextKeyId)
  | UnionType t => (Ok (printUnion t options), type, nextKeyId)
  | EnumType t => (printEnum t options, type, nextKeyId)
  | InputObjectType t => (printInputObject t options, type, nextKeyId)
  end.

(** [types.map (type => printType (type, options))]: the array holds
    references to the type objects of the schema, modelled as positions
    in the type map; each object is read where it lives and written back
    there. *)
Fixpoint printTypes (refs : list nat) (options : option Options)
    (typeMap : list (string * GraphQLNamedType)) (nextKeyId : nat)
    : result (list string) * list (string * GraphQLNamedType) * nat :=
  match refs with
  | [] => (Ok [], typeMap, nextKeyId)
  | ref :: rest =>
      match typeMap !! ref with
      | None => (Throw (TypeError "dangling type reference"), typeMap, nextKeyId)
      | Some (key, type) =>
          match printType type options nextKeyId with
          | (Throw e, type1, n1) => (Throw e, <[ref := (key, type1)]> typeMap, n1)
          | (Ok text, type1, n1) =>
              match printTypes rest options (<[ref := (key, type1)]> typeMap) n1 with
              | (Throw e, typeMap2, n2) => (Throw e, typeMap2, n2)
              | (Ok texts, typeMap2, n2) => (Ok (text :: texts), typeMap2, n2)
              end
          end
      end
  end.

(** [Object.values (schema.getTypeMap ()).sort (...).filter (typeFilter)],
    as references. *)
Definition sortedTypeRefs (typeFilter : GraphQLNamedType -> bool)
    (typeMap : list (string * GraphQLNamedType)) : list (nat * GraphQLNamedType) :=
  List.filter (fun r => typeFilter (snd r))
    (sortWith (fun r1 r2 => localeCompare (typeName (snd r1)) (typeName (snd r2)))
       (imap (fun i entry => (i, snd entry)) typeMap)).

Definition withTypeMap (schema : GraphQLSchema)
    (typeMap : list (string * GraphQLNamedType)) : GraphQLSchema :=
  {| s_typeMap := typeMap; s_directives := s_directives schema;
     s_queryType := s_queryType schema; s_mutationType := s_mutationType schema;
     s_subscriptionType := s_subscriptionType schema |}.

(** [printFilteredSchema]: besides the text it returns the schema with
    its type objects as the call leaves them, and the module-level
    counter.  The arguments of [concat] are evaluated in order: the
    directives are printed before the types, so a throw among them leaves
    the type objects and the counter untouched. *)
Definition printFilteredSchema (schema : GraphQLSchema)
    (serviceList : list ServiceDefinition)
    (directiveFilter : GraphQLDirective -> bool)
    (typeFilter : GraphQLNamedType -> bool)
    (options : option Options) (nextKeyId : nat)
    : result string * GraphQLSchema * nat :=
  let directives := List.filter directiveFilter (s_directives schema) in
  let types := sortedTypeRefs typeFilter (s_typeMap schema) in
  match mapM (fun directive => printDirective directive options) directives with
  | Throw e => (Throw e, schema, nextKeyId)
  | Ok directiveTexts =>
      match printTypes (map fst types) options (s_typeMap schema) nextKeyId with
      | (Throw e, typeMap1, n1) => (Throw e, withTypeMap schema typeMap1, n1)
      | (Ok typeTexts, typeMap1, n1) =>
          (Ok (JS.join (JS.nl ++ JS.nl)
                 (List.filter JS.truthy
                    ([printSchemaDefinition schema]
                     ++ csdlDefinitions
                     ++ [printGraphs serviceList]
                     ++ directiveTexts
                     ++ typeTexts)%list)
               ++ JS.nl),
           withTypeMap schema typeMap1, n1)
      end
  end.

Definition printComposedSdl (schema : GraphQLSchema)
    (serviceList : list ServiceDefinition) (options : option Options)
    (nextKeyId : nat) : result string * GraphQLSchema * nat :=
  printFilteredSchema schema serviceList
    (fun n => negb (isSpecifiedDirective n) && negb (isFederationDirective n))
    isDefinedType options nextKeyId.

End Serializer.

(** ** Instances of the collaborators, used to run the embedding *)
Module Sample.

Inductive token : Type := TName (s : string) | TOpen | TClose.

Fixpoint tokenize (cur : string) (s : string) : list token :=
  let flush := match cur with EmptyString => [] | _ => [TName cur] end in
  match s with
  | EmptyString => flush
  | String c s' =>
      if JS.isSpace c || Ascii.eqb c ","%char
      then List.app flush (tokenize EmptyString s')
      else if Ascii.eqb c "{"%char
      then List.app flush (TOpen :: tokenize EmptyString s')
      else if Ascii.eqb c "}"%char
      then List.app flush (TClose :: tokenize EmptyString s')
      else tokenize (cur ++ String c EmptyString) s'
  end.

Fixpoint parseSelections (fuel : nat) (ts : list token)
    : option (list SelectionNode * list token) :=
  match fuel with
  | 0 => None
  | S fuel' =>
      match ts with
      | TName n :: TOpen :: rest =>
          match parseSelections fuel' rest with
          | Some (sub, TClose :: rest') =>
              match sub, parseSelections fuel' rest' with
              | _ :: _, Some (sels, r) => Some (FieldNode n (Some sub) :: sels, r)
              | _, _ => None
              end
          | _ => None
          end
      | TName n :: rest =>
          match parseSelections fuel' rest with
          | Some (sels, r) => Some (FieldNode n None :: sels, r)
          | None => None
          end
      | _ => Some ([], ts)
      end
  end.

(** Modelled from the spec: [parseFieldSet] of composition/utils, which is
    not among the sources; it turns a field-set string such as
    [id name] or [roles { canWrite }] into selections and fails on text
    that is not a selection set. *)
Definition parseFieldSet (text : string) : result (list SelectionNode) :=
  let ts := tokenize EmptyString text in
  match parseSelections (S (List.length ts)) ts with
  | Some (sel :: sels, []) => Ok (sel :: sels)
  | _ => Throw (OtherError "MalformedFieldSet")
  end.

(** Modelled from the spec: [hasMatchingFieldInDirectives] of
    composition/utils, which is not among the sources; true iff some
    directive of the list has a field-set argument whose top-level
    selections contain one named [fieldNameToMatch]. *)
Definition hasMatchingFieldInDirectives (directives : list DirectiveNode)
    (fieldNameToMatch : string) (namedType : GraphQLCompositeType) : result bool :=
  someM
    (fun directive =>
       match dir_arguments directive with
       | Some (a :: _) =>
           match arg_value a with
           | StringValue text =>
               let* selections := parseFieldSet text in
               Ok (existsb (isFieldNamed fieldNameToMatch) selections)
           | _ => Ok false
           end
       | _ => Ok false
       end)
    directives.

Definition lookupComposite (schema : GraphQLSchema) (name : string)
    : option GraphQLCompositeType :=
  match lookupKey name (s_typeMap schema) with
  | Some (ObjectType t) | Some (InterfaceType t) => Some t
  | _ => None
  end.

Fixpoint selectionReaches (schema : GraphQLSchema) (typeToFind fieldToFind : string)
    (selection : SelectionNode) (selectionSetType : GraphQLCompositeType)
    {struct selection} : bool :=
  match selection with
  | FieldNode name sub =>
      match List.find (fun f => String.eqb (f_name f) name) (ct_fields selectionSetType) with
      | None => false
      | Some f =>
          let returnType := getNamedType (f_type f) in
          if String.eqb returnType typeToFind && String.eqb name fieldToFind
          then true
          else
            match sub, lookupComposite schema returnType with
            | Some nested, Some t' =>
                existsb
                  (fun s => selectionReaches schema typeToFind fieldToFind s t')
                  nested
            | _, _ => false
            end
      end
  | _ => false
  end.

(** Modelled from the spec: [selectionIncludesField] of composition/utils,
    which is not among the sources; for each selection the selected field
    is resolved on [selectionSetType]; it succeeds when that field's
    unwrapped return type is [typeToFind] and the selection is named
    [fieldToFind], and otherwise recurses into a nested selection set at
    the field's unwrapped return type. *)
Definition selectionIncludesField (schema : GraphQLSchema)
    (selections : list SelectionNode)
    (selectionSetType typeToFind : GraphQLCompositeType) (fieldToFind : string)
    : result bool :=
  Ok (existsb
        (fun s => selectionReaches schema (ct_name typeToFind) fieldToFind s
                    selectionSetType)
        selections).

(** Modelled from the spec: [logServiceAndType] of composition/utils, which
    is not among the sources; a prefix naming the service, the type and
    the field. *)
Definition logServiceAndType (serviceName typeName fieldName : string) : string :=
  "[" ++ serviceName ++ "] " ++ typeName ++ "." ++ fieldName ++ " -> ".

Definition externalUnused : GraphQLSchema -> result (list GraphQLError) :=
  externalUnused parseFieldSet hasMatchingFieldInDirectives
    selectionIncludesField logServiceAndType.

(** graphql's [print], on the nodes this file prints. *)
Fixpoint printSelection (s : SelectionNode) : string :=
  let block sub :=
    " {" ++ JS.nl ++ "  " ++ JS.join (JS.nl ++ "  ") (map printSelection sub)
    ++ JS.nl ++ "}" in
  match s with
  | FieldNode n None => n
  | FieldNode n (Some sub) => n ++ block sub
  | FragmentSpreadNode n => "..." ++ n
  | InlineFragmentNode None sub => "..." ++ block sub
  | InlineFragmentNode (Some t) sub => "... on " ++ t ++ block sub
  end.

Fixpoint printValue (v : ValueNode) : string :=
  match v with
  | StringValue s => quoted s
  | IntValue s | FloatValue s | EnumValue s => s
  | BooleanValue b => if b then "true" else "false"
  | NullValue => "null"
  | ListValue vs => "[" ++ JS.join ", " (map printValue vs) ++ "]"
  | ObjectValue fs =>
      "{" ++ JS.join ", " (map (fun kv => fst kv ++ ": " ++ printValue (snd kv)) fs)
      ++ "}"
  | VariableValue n => "$" ++ n
  end.

Definition print (ast : ASTNode) : string :=
  match ast with
  | SelectionAST s => printSelection s
  | ValueAST v => printValue v
  end.

(** graphql's [astFromValue] at a scalar type: the serialized value is
    converted by its JavaScript type, and a value that is not a boolean, a
    number or a string makes it throw. *)
Definition astFromValue (value : JSValue) (type : TypeRef)
    : result (option ValueNode) :=
  match value with
  | JSUndefined => Ok None
  | JSNull => Ok (Some NullValue)
  | JSBool b => Ok (Some (BooleanValue b))
  | JSNumber z =>
      Ok (Some (IntValue (NilEmpty.string_of_int (Z.to_int z))))
  | JSString s => Ok (Some (StringValue s))
  | JSArray _ | JSObject _ =>
      Throw (TypeError "Cannot convert value to AST")
  end.

(** [JSON.stringify] of a string without characters to escape. *)
Definition JSON_stringify (s : string) : string := quoted s.

(** A comparison of names by code units. *)
Definition localeCompare (a b : string) : Z :=
  match String.compare a b with Lt => (-1)%Z | Eq => 0%Z | Gt => 1%Z end.

Definition nameIn (names : list string) (n : string) : bool :=
  existsb (String.eqb n) names.

Definition isSpecifiedDirective (d : GraphQLDirective) : bool :=
  nameIn ["include"; "skip"; "deprecated"; "specifiedBy"] (d_name d).
Definition isSpecifiedScalarType (t : GraphQLNamedType) : bool :=
  nameIn ["String"; "Int"; "Float"; "Boolean"; "ID"] (typeName t).
Definition isIntrospectionType (t : GraphQLNamedType) : bool :=
  nameIn ["__Schema"; "__Directive"; "__DirectiveLocation"; "__Type"; "__Field";
          "__InputValue"; "__EnumValue"; "__TypeKind"] (typeName t).
Definition isFederationType (t : GraphQLNamedType) : bool :=
  nameIn ["_Any"; "_FieldSet"; "_Entity"; "_Service"] (typeName t).
Definition isFederationDirective (d : GraphQLDirective) : bool :=
  nameIn ["key"; "extends"; "external"; "requires"; "provides"] (d_name d).
Definition csdlDefinitions : list string := [].

Definition printComposedSdl :=
  printComposedSdl print astFromValue JSON_stringify localeCompare
    isSpecifiedDirective isSpecifiedScalarType isIntrospectionType
    isFederationType isFederationDirective csdlDefinitions.

(** *** Builders for small schemas *)
Definition directive (name fields : string) : DirectiveNode :=
  {| dir_name := name;
     dir_arguments := Some [{| arg_name := "fields"; arg_value := StringValue fields |}] |}.
Definition external : DirectiveNode :=
  {| dir_name := "external"; dir_arguments := Some [] |}.
Definition fieldNode (name : string) (ds : list DirectiveNode) : FieldDefinitionNode :=
  {| fd_name := name; fd_directives := Some ds |}.
Definition field (name : string) (type : TypeRef) (ds : list DirectiveNode)
    (metadata : option FederationField) : GraphQLField :=
  {| f_name := name; f_description := None; f_args := []; f_type := type;
     f_isDeprecated := false; f_deprecationReason := Undefined;
     f_astNode := Some (fieldNode name ds); f_federation := metadata |}.
Definition ownedBy (service : string) : option FederationField :=
  Some {| ff_serviceName := Value service; ff_requires := None; ff_provides := None |}.
Definition externalOf (typeName service fieldName : string) : ExternalFieldDefinition :=
  {| ext_field := fieldNode fieldName [external];
     ext_parentTypeName := typeName; ext_serviceName := service |}.
Definition composite (name : string) (interfaces : list string)
    (fields : list GraphQLField) (ds : list DirectiveNode)
    (metadata : option FederationType) : GraphQLCompositeType :=
  {| ct_name := name; ct_description := None; ct_interfaces := interfaces;
     ct_fields := fields;
     ct_astNode := Some {| td_name := name; td_directives := Some ds;
                           td_fields := Some (map (fun f => fieldNode (f_name f) []) fields) |};
     ct_extensionASTNodes := None; ct_federation := metadata;
     ct_fragments := None; ct_nextFragmentId := None |}.
Definition schemaOf (types : list GraphQLNamedType) : GraphQLSchema :=
  {| s_typeMap := map (fun t => (typeName t, t)) types; s_directives := [];
     s_queryType := None; s_mutationType := None; s_subscriptionType := None |}.

End Sample.

(** ** Statements about the validator *)

(** The service [serviceName] declares the external field [ext] on the
    Object type [parentType], which the type map holds under
    [parentTypeName]. *)
Definition declaresExternal (schema : GraphQLSchema) (parentTypeName : string)
    (parentType : GraphQLCompositeType) (serviceName : string)
    (ext : ExternalFieldDefinition) : Prop :=
  In (parentTypeName, ObjectType parentType) (s_typeMap schema) /\
  exists m externals fields,
    ct_federation parentType = Some m /\ ft_externals m = Some externals /\
    In (serviceName, fields) externals /\ In ext fields.

(** The type implements an interface that declares a field of that name. *)
Definition implementsInterfaceDeclaring (schema : GraphQLSchema)
    (parentType : GraphQLCompositeType) (fieldName : string) : Prop :=
  exists interfaceName i f,
    In interfaceName (ct_interfaces parentType) /\
    lookupKey interfaceName (s_typeMap schema) = Some (InterfaceType i) /\
    In f (ct_fields i) /\ f_name f = fieldName.

(** The keys object holds a key entry for the service: an entry of its
    own, under the name of the service, with an array of keys. *)
Definition hasOwnKeyEntry (service : string)
    (keys : list (string * option (list (list SelectionNode)))) : Prop :=
  exists selections, lookupKey service keys = Some (Some selections).

(** The metadata declares an owning service that has no key entry for
    itself: there is no keys object, or it has no entry with an array
    under the owner. *)
Definition ownerHasNoKeyEntry (m : FederationType) : Prop :=
  exists owner,
    ft_serviceName m = Value owner /\
    forall keys, ft_keys m = Some keys -> ~ hasOwnKeyEntry owner keys.

(** The metadata declares a non-empty owning service and a keys object in
    which looking up the owner finds nothing: no entry of its own with an
    array and, when the object has no entry of its own under that name at
    all, no member inherited from [Object.prototype] either. *)
Definition ownerMissingFromKeys (m : FederationType) : Prop :=
  exists owner keys,
    ft_serviceName m = Value owner /\ owner <> EmptyString /\
    ft_keys m = Some keys /\
    ~ hasOwnKeyEntry owner keys /\
    (lookupKey owner keys = None -> ~ In owner JS.objectPrototypeMembers).

(** The validator skips the type. *)
Definition isSkipped (parentType : GraphQLCompositeType) : Prop :=
  exists m, ct_federation parentType = Some m /\ ownerMissingFromKeys m.

Section ValidatorStatements.

Variable parseFieldSet : string -> result (list SelectionNode).
Variable hasMatchingFieldInDirectives :
  list DirectiveNode -> string -> GraphQLCompositeType -> result bool.
Variable selectionIncludesField :
  GraphQLSchema -> list SelectionNode -> GraphQLCompositeType ->
  GraphQLCompositeType -> string -> result bool.
Variable logServiceAndType : string -> string -> string -> string.

Local Abbreviation c1 := (hasMatchingKeyOnType hasMatchingFieldInDirectives).
Local Abbreviation c2 := (hasMatchingProvidesOnAnotherType parseFieldSet).
Local Abbreviation c3 :=
  (hasMatchingRequiresOnAnotherType parseFieldSet selectionIncludesField).
Local Abbreviation c4 := (hasMatchingRequiresOnType hasMatchingFieldInDirectives).
Local Abbreviation check :=
  (checkExternalField parseFieldSet hasMatchingFieldInDirectives
     selectionIncludesField logServiceAndType).
Local Abbreviation validate :=
  (externalUnused parseFieldSet hasMatchingFieldInDirectives
     selectionIncludesField logServiceAndType).

(** None of the five conditions holds for the field. *)
Definition isUnused (schema : GraphQLSchema) (parentType : GraphQLCompositeType)
    (serviceName externalFieldName : string) : Prop :=
  c1 parentType externalFieldName = Ok false /\
  c2 schema parentType externalFieldName = Ok false /\
  c3 schema parentType externalFieldName = Ok false /\
  c4 parentType serviceName externalFieldName = Ok false /\
  isInterfaceField schema parentType externalFieldName = false.

(** The validator returns a list that holds the error for the field. *)
Definition reportsUnused (schema : GraphQLSchema) (parentTypeName serviceName : string)
    (ext : ExternalFieldDefinition) : Prop :=
  exists errs,
    validate schema = Ok errs /\
    In (externalUnusedError logServiceAndType serviceName parentTypeName (ext_field ext))
       errs.

(** The errors are exactly those of the unused external fields of the
    Object types that the validator does not skip. *)
Definition reportsExactlyUnused (schema : GraphQLSchema) (errs : list GraphQLError)
    : Prop :=
  forall e,
    In e errs <->
    exists parentTypeName parentType serviceName ext,
      declaresExternal schema parentTypeName parentType serviceName ext /\
      ~ isSkipped parentType /\
      isUnused schema parentType serviceName (fd_name (ext_field ext)) /\
      e = externalUnusedError logServiceAndType serviceName parentTypeName
            (ext_field ext).

(** The five conditions are tried in the order key, provides,
    requires anywhere, requires on the type, interface: a condition is
    looked at only when all the earlier ones have said no; the first that
    holds ends the iteration for the field without an error, whatever the
    later ones would give; a condition that throws ends it with that
    throw, whatever the later ones would give (so the interface condition
    comes last: it cannot save a field when an earlier condition throws);
    and when all five say no the error is pushed. *)
Definition checksInOrder : Prop :=
  forall schema parentTypeName parentType serviceName externalField,
    let name := fd_name externalField in
    let verdict := check schema parentTypeName parentType serviceName externalField in
    (forall e, c1 parentType name = Throw e -> verdict = Throw e) /\
    (c1 parentType name = Ok true -> verdict = Ok None) /\
    (c1 parentType name = Ok false ->
     (forall e, c2 schema parentType name = Throw e -> verdict = Throw e) /\
     (c2 schema parentType name = Ok true -> verdict = Ok None) /\
     (c2 schema parentType name = Ok false ->
      (forall e, c3 schema parentType name = Throw e -> verdict = Throw e) /\
      (c3 schema parentType name = Ok true -> verdict = Ok None) /\
      (c3 schema parentType name = Ok false ->
       (forall e, c4 parentType serviceName name = Throw e -> verdict = Throw e) /\
       (c4 parentType serviceName name = Ok true -> verdict = Ok None) /\
       (c4 parentType serviceName name = Ok false ->
        (isInterfaceField schema parentType name = true -> verdict = Ok None) /\
        (isInterfaceField schema parentType name = false ->
         verdict =
           Ok (Some (externalUnusedError logServiceAndType serviceName
                       parentTypeName externalField))))))).

(** What an emitted error carries: the code, a message that names the
    service, the type and the field through [logServiceAndType], and the
    [@external] directive nodes of the field. *)
Definition errorShape : Prop :=
  forall serviceName parentTypeName externalField,
    let e := externalUnusedError logServiceAndType serviceName parentTypeName
               externalField in
    err_code e = "EXTERNAL_UNUSED" /\
    err_message e =
      logServiceAndType serviceName parentTypeName (fd_name externalField)
      ++ unusedMessage /\
    err_nodes e = findDirectivesOnNode (Some externalField) "external".

(** Every error comes from an external field of an Object type of the
    map for which [P] holds. *)
Definition errorsComeFrom (schema : GraphQLSchema) (errs : list GraphQLError)
    (P : GraphQLCompositeType -> ExternalFieldDefinition -> Prop) : Prop :=
  forall e,
    In e errs ->
    exists parentTypeName parentType serviceName ext,
      declaresExternal schema parentTypeName parentType serviceName ext /\
      P parentType ext /\
      e = externalUnusedError logServiceAndType serviceName parentTypeName
            (ext_field ext).

End ValidatorStatements.

(** *** Schemas the validator is run on *)
Module Scenario.
Import Sample.

Definition plainMetadata (owner : Nullable string)
    (keys : option (list (string * option (list (list SelectionNode)))))
    (externals : option (list (string * list ExternalFieldDefinition)))
    : option FederationType :=
  Some {| ft_serviceName := owner; ft_keys := keys; ft_externals := externals;
          ft_isValueType := None |}.

Definition idKey : option (list (list SelectionNode)) := Some [[FieldNode "id" None]].

(** Scenario B of the specification: service B extends [User], declares
    [id] and [name] external, and nothing provides or requires [name]. *)
Definition user : GraphQLCompositeType :=
  composite "User" []
    [ field "id" (NonNullOf (NamedRef "ID")) [] (ownedBy "A");
      field "name" (NamedRef "String") [] (ownedBy "A");
      field "reviews" (ListOf (NamedRef "Review")) [] (ownedBy "B") ]
    [ directive "key" "id" ]
    (plainMetadata (Value "A") (Some [("A", idKey); ("B", idKey)])
       (Some [("B", [externalOf "User" "B" "id"; externalOf "User" "B" "name"])])).
Definition review (ds : list DirectiveNode) : GraphQLCompositeType :=
  composite "Review" []
    [ field "author" (NamedRef "User") ds (ownedBy "B");
      field "text" (NamedRef "String") [] (ownedBy "B") ]
    [] (plainMetadata (Value "B") None None).
Definition scenarioA : GraphQLSchema :=
  schemaOf [ObjectType user; ObjectType (review [directive "provides" "name"])].
Definition scenarioB : GraphQLSchema :=
  schemaOf [ObjectType user; ObjectType (review [])].
Definition nameUnused : GraphQLError :=
  externalUnusedError logServiceAndType "B" "User" (fieldNode "name" [external]).

(** An entity owned by A whose keys object only has an entry for B. *)
Definition product : GraphQLCompositeType :=
  composite "Product" []
    [ field "sku" (NamedRef "String") [] (ownedBy "A");
      field "weight" (NamedRef "Int") [] (ownedBy "A") ]
    [ directive "key" "sku" ]
    (plainMetadata (Value "A") (Some [("B", Some [[FieldNode "sku" None]])])
       (Some [("B", [externalOf "Product" "B" "weight"])])).
Definition ownerWithoutKey : GraphQLSchema := schemaOf [ObjectType product].

(** An entity owned by a service named [constructor], whose keys object
    only has an entry for B. *)
Definition gadget : GraphQLCompositeType :=
  composite "Gadget" []
    [ field "sku" (NamedRef "String") [] (ownedBy "constructor");
      field "weight" (NamedRef "Int") [] (ownedBy "constructor") ]
    [ directive "key" "sku" ]
    (plainMetadata (Value "constructor") (Some [("B", Some [[FieldNode "sku" None]])])
       (Some [("B", [externalOf "Gadget" "B" "weight"])])).
Definition ownerNamedConstructor : GraphQLSchema := schemaOf [ObjectType gadget].
Definition gadgetWeightUnused : GraphQLError :=
  externalUnusedError logServiceAndType "B" "Gadget" (fieldNode "weight" [external]).

(** A type owned by A without any key, extended by B with an external. *)
Definition roles : GraphQLCompositeType :=
  composite "AccountRoles" []
    [ field "canWrite" (NamedRef "Boolean") [] (ownedBy "A") ]
    []
    (plainMetadata (Value "A") None
       (Some [("B", [externalOf "AccountRoles" "B" "canWrite"])])).
Definition ownerWithoutKeys : GraphQLSchema := schemaOf [ObjectType roles].
Definition canWriteUnused : GraphQLError :=
  externalUnusedError logServiceAndType "B" "AccountRoles"
    (fieldNode "canWrite" [external]).

(** The interface example of the source comment: [Car.speed] is external
    in B and no directive mentions it. *)
Definition vehicle : GraphQLCompositeType :=
  composite "Vehicle" []
    [ field "id" (NonNullOf (NamedRef "ID")) [] None;
      field "speed" (NamedRef "Int") [] None ]
    [] None.
Definition car : GraphQLCompositeType :=
  composite "Car" ["Vehicle"]
    [ field "id" (NonNullOf (NamedRef "ID")) [] (ownedBy "A");
      field "speed" (NamedRef "Int") [] (ownedBy "A") ]
    []
    (plainMetadata (Value "A") None
       (Some [("B", [externalOf "Car" "B" "speed"])])).
Definition vehicles : GraphQLSchema :=
  schemaOf [ObjectType car; InterfaceType vehicle].

(** An Interface type that carries externals metadata. *)
Definition node : GraphQLCompositeType :=
  composite "Node" []
    [ field "id" (NonNullOf (NamedRef "ID")) [] (ownedBy "A") ]
    []
    (plainMetadata (Value "A") None (Some [("B", [externalOf "Node" "B" "id"])])).
Definition interfaceWithExternals : GraphQLSchema := schemaOf [InterfaceType node].

End Scenario.

(** ** Statements about the serializer *)

(** The type's declaration has extension nodes. *)
Definition hasExtensionNodes (type : GraphQLCompositeType) : Prop :=
  exists node nodes, ct_extensionASTNodes type = Some (node :: nodes).

(** The type has a base AST node, and that node declares no fields: it
    has no list of fields, or an empty one. *)
Definition baseDeclaresNoFields (type : GraphQLCompositeType) : Prop :=
  exists astNode,
    ct_astNode type = Some astNode /\
    (td_fields astNode = None \/ td_fields astNode = Some []).

(** What the code tests: the [extensionASTNodes] property is set (to any
    array), the [astNode] property is set, and that node has no [fields]
    property (an empty array of fields is a [fields] property). *)
Definition isExtensionOnly (type : GraphQLCompositeType) : Prop :=
  ct_extensionASTNodes type <> None /\
  exists astNode, ct_astNode type = Some astNode /\ td_fields astNode = None.

(** Neither array is set and empty: on such a type, having extension
    nodes and a base node that declares no fields is what the code
    tests. *)
Definition hasNoEmptyArray (type : GraphQLCompositeType) : Prop :=
  ct_extensionASTNodes type <> Some [] /\
  forall astNode, ct_astNode type = Some astNode -> td_fields astNode <> Some [].

(** After the description, [text] goes on with [extend] followed by
    [keyword] and the name of the type. *)
Definition printsExtend (keyword : string) (options : option Options)
    (type : GraphQLCompositeType) (text : string) : Prop :=
  exists rest,
    text = printDescription options (ct_description type) EmptyString true
           ++ "extend " ++ keyword ++ ct_name type ++ rest.

(** After the description, [text] goes on with [keyword] and the name of
    the type, without [extend]. *)
Definition printsPlain (keyword : string) (options : option Options)
    (type : GraphQLCompositeType) (text : string) : Prop :=
  exists rest,
    text = printDescription options (ct_description type) EmptyString true
           ++ keyword ++ ct_name type ++ rest.

(** [text] has [extend] exactly when the type is only an extension, and
    is printed without it otherwise. *)
Definition printsExtendIffExtension (keyword : string) (options : option Options)
    (type : GraphQLCompositeType) (text : string) : Prop :=
  (printsExtend keyword options type text <-> isExtensionOnly type) /\
  (~ isExtensionOnly type -> printsPlain keyword options type text).

(** The document made of the given parts: empty parts are dropped, the
    others are separated by a blank line, and a newline ends it. *)
Definition documentOf (parts : list string) : string :=
  JS.join (JS.nl ++ JS.nl) (List.filter JS.truthy parts) ++ JS.nl.

(** A type object without the two properties that [findOrCreateFragment]
    adds to it. *)
Definition withoutFragments (type : GraphQLCompositeType) : GraphQLCompositeType :=
  {| ct_name := ct_name type; ct_description := ct_description type;
     ct_interfaces := ct_interfaces type; ct_fields := ct_fields type;
     ct_astNode := ct_astNode type;
     ct_extensionASTNodes := ct_extensionASTNodes type;
     ct_federation := ct_federation type;
     ct_fragments := None; ct_nextFragmentId := None |}.

Definition typeWithoutFragments (type : GraphQLNamedType) : GraphQLNamedType :=
  match type with
  | ObjectType t => ObjectType (withoutFragments t)
  | InterfaceType t => InterfaceType (withoutFragments t)
  | _ => type
  end.

Definition mapWithoutFragments (typeMap : list (string * GraphQLNamedType))
    : list (string * GraphQLNamedType) :=
  map (fun entry => (fst entry, typeWithoutFragments (snd entry))) typeMap.

Definition schemaWithoutFragments (schema : GraphQLSchema) : GraphQLSchema :=
  {| s_typeMap := mapWithoutFragments (s_typeMap schema);
     s_directives := s_directives schema;
     s_queryType := s_queryType schema; s_mutationType := s_mutationType schema;
     s_subscriptionType := s_subscriptionType schema |}.

(** The field asks for no fragment: its metadata, if any, has no
    non-empty [requires] or [provides]. *)
Definition needsNoFragment (f : GraphQLField) : bool :=
  match f_federation f with
  | None => true
  | Some m =>
      match ff_requires m, ff_provides m with
      | (None | Some []), (None | Some []) => true
      | _, _ => false
      end
  end.

(** [printKeys] prints no key fragment for the type. *)
Definition printsNoKey (type : GraphQLCompositeType) : bool :=
  match ct_federation type with
  | None => true
  | Some m =>
      match ft_serviceName m, ft_keys m with
      | Value owner, Some keys =>
          negb (JS.truthy owner)
          || forallb (fun entry => match snd entry with
                                   | None | Some [] => true
                                   | _ => false
                                   end) keys
      | _, _ => true
      end
  end.

(** Printing the type touches neither the key counter nor the type. *)
Definition carriesNoState (type : GraphQLNamedType) : bool :=
  match type with
  | ObjectType t => forallb needsNoFragment (ct_fields t) && printsNoKey t
  | InterfaceType t => forallb needsNoFragment (ct_fields t)
  | _ => true
  end.

(** An Object or Interface type without federation metadata that has a
    field without federation metadata. *)
Definition lacksMetadata (type : GraphQLNamedType) : Prop :=
  exists t f,
    (type = ObjectType t \/ type = InterfaceType t) /\
    ct_federation t = None /\ In f (ct_fields t) /\ f_federation f = None.

(** Every key of the [fragments] Map is a synthesized fragment name. *)
Definition keyedByFragmentName (type : GraphQLCompositeType) : Prop :=
  forall m, ct_fragments type = Some m ->
    Forall (fun entry => String.prefix "cs__fragmentOn_" (fst entry) = true) m.

Definition fragmentsOf (type : GraphQLCompositeType) : list (string * Fragment) :=
  match ct_fragments type with Some m => m | None => [] end.

Definition nextFragmentIdOf (type : GraphQLCompositeType) : nat :=
  match ct_nextFragmentId type with Some n => n | None => 0 end.

(** *** Schemas the serializer is run on *)
Module Document.
Import Sample.

Definition services : list ServiceDefinition :=
  [ {| svc_name := "A"; svc_url := Some "http://a"; svc_typeDefs := EmptyString |};
    {| svc_name := "B"; svc_url := Some "http://b"; svc_typeDefs := EmptyString |} ].

Definition requiresId : list SelectionNode := [FieldNode "id" None].

Definition requiring (service : string) : option FederationField :=
  Some {| ff_serviceName := Value service; ff_requires := Some requiresId;
          ff_provides := None |}.

(** Two fields of one type with the same [requires] text. *)
Definition account : GraphQLCompositeType :=
  composite "Account" []
    [ field "id" (NonNullOf (NamedRef "ID")) [] (ownedBy "A");
      field "balance" (NamedRef "Int") [] (requiring "B");
      field "limit" (NamedRef "Int") [] (requiring "B") ]
    [] (Scenario.plainMetadata (Value "A") None None).
Definition accounts : GraphQLSchema := schemaOf [ObjectType account].

(** A type that only has extensions: the base node has no [fields]. *)
Definition extensionOnly : GraphQLCompositeType :=
  {| ct_name := "Shipment"; ct_description := None; ct_interfaces := [];
     ct_fields := [ field "eta" (NamedRef "String") [] (ownedBy "B") ];
     ct_astNode := Some {| td_name := "Shipment"; td_directives := None;
                           td_fields := None |};
     ct_extensionASTNodes :=
       Some [ {| td_name := "Shipment"; td_directives := Some [];
                 td_fields := Some [fieldNode "eta" []] |} ];
     ct_federation := Scenario.plainMetadata (Value "A") None None;
     ct_fragments := None; ct_nextFragmentId := None |}.

(** The same for an Interface type. *)
Definition extensionOnlyInterface : GraphQLCompositeType :=
  {| ct_name := "Tracked"; ct_description := None; ct_interfaces := [];
     ct_fields := [ field "eta" (NamedRef "String") [] (ownedBy "B") ];
     ct_astNode := Some {| td_name := "Tracked"; td_directives := None;
                           td_fields := None |};
     ct_extensionASTNodes :=
       Some [ {| td_name := "Tracked"; td_directives := Some [];
                 td_fields := Some [fieldNode "eta" []] |} ];
     ct_federation := Scenario.plainMetadata (Value "A") None None;
     ct_fragments := None; ct_nextFragmentId := None |}.

(** A type declared without a field block and extended with a field: the
    base node has an empty list of fields, as the parser gives it. *)
Definition declaredEmpty : GraphQLCompositeType :=
  {| ct_name := "Parcel"; ct_description := None; ct_interfaces := [];
     ct_fields := [ field "eta" (NamedRef "String") [] (ownedBy "B") ];
     ct_astNode := Some {| td_name := "Parcel"; td_directives := Some [];
                           td_fields := Some [] |};
     ct_extensionASTNodes :=
       Some [ {| td_name := "Parcel"; td_directives := Some [];
                 td_fields := Some [fieldNode "eta" []] |} ];
     ct_federation := Scenario.plainMetadata (Value "A") None None;
     ct_fragments := None; ct_nextFragmentId := None |}.



(** A value type: nothing to synthesize when it is printed.  The
    composer gives value types the owner [null]. *)
Definition money : GraphQLCompositeType :=
  composite "Money" []
    [ field "amount" (NamedRef "Int") [] (ownedBy "A");
      field "currency" (NamedRef "String") [] (ownedBy "A") ]
    [] (Scenario.plainMetadata Null None None).
Definition valueTypes : GraphQLSchema :=
  schemaOf [ObjectType money;
            ScalarType {| sc_name := "Date"; sc_description := None |}].

Definition moneyText : string :=
  "type Money {" ++ JS.nl
  ++ "  amount: Int @cs__resolve(graph: A)" ++ JS.nl
  ++ "  currency: String @cs__resolve(graph: A)" ++ JS.nl ++ "}".

Definition customDirective (name : string) : GraphQLDirective :=
  {| d_name := name; d_description := None; d_args := [];
     d_isRepeatable := false; d_locations := ["FIELD_DEFINITION"] |}.

(** Two custom directives, declared in the order [zeta], [alpha]. *)
Definition withDirectives : GraphQLSchema :=
  {| s_typeMap := [("Money", ObjectType money)];
     s_directives := [customDirective "zeta"; customDirective "alpha"];
     s_queryType := None; s_mutationType := None; s_subscriptionType := None |}.

End Document.

(** ** Further definitions: the rest of printComposedSdl.ts and the loops
       of the validator *)

Section IntrospectionSchema.

Variable print : ASTNode -> string.
Variable astFromValue : JSValue -> TypeRef -> result (option ValueNode).
Variable JSON_stringify : string -> string.
Variable localeCompare : string -> string -> Z.
Variable isSpecifiedDirective : GraphQLDirective -> bool.
Variable isIntrospectionType : GraphQLNamedType -> bool.
Variable csdlDefinitions : list string.

(** [printIntrospectionSchema]: the same printer with an empty service
    list, the specified directives and the introspection types. *)
Definition printIntrospectionSchema (schema : GraphQLSchema)
    (options : option Options) (nextKeyId : nat)
    : result string * GraphQLSchema * nat :=
  printFilteredSchema print astFromValue JSON_stringify localeCompare
    csdlDefinitions schema [] isSpecifiedDirective isIntrospectionType
    options nextKeyId.

End IntrospectionSchema.

(** A computation ends with a throw. *)
Definition throws {A} (r : result A) : bool :=
  match r with Throw _ => true | Ok _ => false end.

Section ThrowPoints.

Variable astFromValue : JSValue -> TypeRef -> result (option ValueNode).

(** The default value of the argument, or input field, cannot be
    converted. *)
Definition argumentThrows (arg : GraphQLArgument) : bool :=
  throws (astFromValue (a_defaultValue arg) (a_type arg)).

(** The field or enum value is deprecated and its reason cannot be
    converted. *)
Definition deprecationThrows (isDeprecated : bool) (reason : Nullable string) : bool :=
  isDeprecated && throws (astFromValue (stringValueOf reason) (NamedRef "String")).

(** Neither the field nor its type has federation metadata. *)
Definition lacksOwner (type : GraphQLCompositeType) (f : GraphQLField) : bool :=
  match f_federation f, ct_federation type with
  | None, None => true
  | _, _ => false
  end.

(** The field of the Object or Interface type cannot be printed. *)
Definition fieldThrows (type : GraphQLCompositeType) (f : GraphQLField) : bool :=
  existsb argumentThrows (f_args f)
  || deprecationThrows (f_isDeprecated f) (f_deprecationReason f)
  || lacksOwner type f.

(** The type cannot be printed: one of its fields, enum values or input
    fields cannot. *)
Definition typeThrows (type : GraphQLNamedType) : bool :=
  match type with
  | ScalarType _ | UnionType _ => false
  | ObjectType t | InterfaceType t => existsb (fieldThrows t) (ct_fields t)
  | EnumType t =>
      existsb (fun value =>
                 deprecationThrows (ev_isDeprecated value) (ev_deprecationReason value))
        (en_values t)
  | InputObjectType t => existsb argumentThrows (io_fields t)
  end.

(** The directive definition cannot be printed. *)
Definition directiveThrows (directive : GraphQLDirective) : bool :=
  existsb argumentThrows (d_args directive).

(** One of the types at the given positions of the type map cannot be
    printed. *)
Definition someTypeThrows (refs : list nat)
    (typeMap : list (string * GraphQLNamedType)) : bool :=
  existsb (fun ref => match typeMap !! ref with
                      | Some entry => typeThrows (snd entry)
                      | None => true
                      end) refs.

End ThrowPoints.

(** The number of key selections that [printKeys] prints for the type:
    all selections of all services, when the type has an owner and keys. *)
Definition keySelectionCount (type : GraphQLCompositeType) : nat :=
  match ct_federation type with
  | None => 0
  | Some m =>
      match ft_serviceName m, ft_keys m with
      | Value owner, Some keys =>
          if JS.truthy owner
          then list_sum
                 (map (fun entry => match snd entry with
                                    | Some selections => List.length selections
                                    | None => 0
                                    end) keys)
          else 0
      | _, _ => 0
      end
  end.

(** Only Object types go through [printKeys]. *)
Definition typeKeyCount (type : GraphQLNamedType) : nat :=
  match type with
  | ObjectType t => keySelectionCount t
  | _ => 0
  end.

(** Every character of the string satisfies [p]. *)
Fixpoint everyChar (p : ascii -> bool) (s : string) : bool :=
  match s with
  | EmptyString => true
  | String c s' => p c && everyChar p s'
  end.

Definition isDigit (c : ascii) : bool :=
  let n := nat_of_ascii c in Nat.leb 48 n && Nat.leb n 57.

Definition isNameStart (c : ascii) : bool :=
  let n := nat_of_ascii c in
  (Nat.leb 65 n && Nat.leb n 90) || (Nat.leb 97 n && Nat.leb n 122) || Nat.eqb n 95.

(** A GraphQL name: a letter or underscore, then letters, digits and
    underscores. *)
Definition isValidName (s : string) : bool :=
  match s with
  | EmptyString => false
  | String c s' => isNameStart c && everyChar isIdentifierChar s'
  end.

(** The name that [findOrCreateFragment] synthesizes on a type named
    [typeName] for the selection text [key] when its counter is [n]. *)
Definition fragmentName (typeName key : string) (n : nat) : string :=
  "cs__fragmentOn_"
  ++ asValidIdentifier (typeName ++ "_" ++ key ++ "_" ++ JS.ofNat n).

(** The fragments stored on the type were all made by
    [findOrCreateFragment] on this type: there are as many as the fragment
    counter says, each under a name synthesized with a smaller counter. *)
Definition fragmentStoreKept (type : GraphQLCompositeType) : Prop :=
  List.length (fragmentsOf type) = nextFragmentIdOf type /\
  Forall (fun entry =>
            exists key m,
              fst entry = fragmentName (ct_name type) key m /\
              m < nextFragmentIdOf type)
    (fragmentsOf type).

Definition nonEmpty {A} (l : option (list A)) : nat :=
  match l with Some (_ :: _) => 1 | _ => 0 end.

(** The number of calls of [findOrCreateFragment] that printing the
    fields makes: one per non-empty [requires], one per non-empty
    [provides]. *)
Definition fragmentRequests (fields : list GraphQLField) : nat :=
  list_sum
    (map (fun f => match f_federation f with
                   | Some m => nonEmpty (ff_requires m) + nonEmpty (ff_provides m)
                   | None => 0
                   end) fields).

(** The text has no white space but single spaces, each between two
    other characters; [afterSpace] tells whether a space was just read
    (or the text is at its start). *)
Fixpoint singleSpaced (afterSpace : bool) (s : string) : bool :=
  match s with
  | EmptyString => negb afterSpace
  | String c s' =>
      if JS.isSpace c
      then Ascii.eqb c " "%char && negb afterSpace && singleSpaced true s'
      else singleSpaced false s'
  end.

Definition tidy (s : string) : bool :=
  match s with
  | EmptyString => true
  | _ => singleSpaced true s
  end.

(** As [singleSpaced], but the text may end with a space. *)
Fixpoint runsCollapsed (afterSpace : bool) (s : string) : bool :=
  match s with
  | EmptyString => true
  | String c s' =>
      if JS.isSpace c
      then Ascii.eqb c " "%char && negb afterSpace && runsCollapsed true s'
      else runsCollapsed false s'
  end.

(** The iterations of the innermost loop of [externalUnused], in the
    order in which the three nested loops reach them: for each Object type
    of the type map that the escape does not skip and that has externals,
    for each service of the externals, for each external field. *)
Definition visitedFields (schema : GraphQLSchema)
    : list (string * GraphQLCompositeType * string * ExternalFieldDefinition) :=
  flat_map
    (fun entry =>
       match snd entry with
       | ObjectType parentType =>
           if escapesValidation (ct_federation parentType) then []
           else
             match ct_federation parentType with
             | Some m =>
                 match ft_externals m with
                 | Some externals =>
                     flat_map
                       (fun service =>
                          map (fun ext => (fst entry, parentType, fst service, ext))
                            (snd service))
                       externals
                 | None => []
                 end
             | None => []
             end
       | _ => []
       end)
    (s_typeMap schema).

Section ValidatorLoop.

Variable parseFieldSet : string -> result (list SelectionNode).
Variable hasMatchingFieldInDirectives :
  list DirectiveNode -> string -> GraphQLCompositeType -> result bool.
Variable selectionIncludesField :
  GraphQLSchema -> list SelectionNode -> GraphQLCompositeType ->
  GraphQLCompositeType -> string -> result bool.
Variable logServiceAndType : string -> string -> string -> string.

(** The iteration of the innermost loop for one visited field. *)
Definition checkVisited (schema : GraphQLSchema)
    (v : string * GraphQLCompositeType * string * ExternalFieldDefinition)
    : result (option GraphQLError) :=
  let '(parentTypeName, parentType, serviceName, ext) := v in
  checkExternalField parseFieldSet hasMatchingFieldInDirectives
    selectionIncludesField logServiceAndType schema parentTypeName parentType
    serviceName (ext_field ext).

(** What the iteration pushes onto the error array. *)
Definition errorsOfVisited (schema : GraphQLSchema)
    (v : string * GraphQLCompositeType * string * ExternalFieldDefinition)
    : list GraphQLError :=
  match checkVisited schema v with
  | Ok (Some e) => [e]
  | _ => []
  end.

End ValidatorLoop.

(** The collaborators of the validator do not look at the two properties
    that the serializer adds to type objects. *)
Definition ignoresFragments
    (hasMatchingFieldInDirectives :
       list DirectiveNode -> string -> GraphQLCompositeType -> result bool)
    (selectionIncludesField :
       GraphQLSchema -> list SelectionNode -> GraphQLCompositeType ->
       GraphQLCompositeType -> string -> result bool) : Prop :=
  (forall directives name type,
      hasMatchingFieldInDirectives directives name (withoutFragments type)
      = hasMatchingFieldInDirectives directives name type) /\
  (forall schema selections type1 type2 name,
      selectionIncludesField (schemaWithoutFragments schema) selections
        (withoutFragments type1) (withoutFragments type2) name
      = selectionIncludesField schema selections type1 type2 name).

(** *** More schemas *)
Module Further.
Import Sample.

(** Scenario B with [User.reviews] requiring [name] in its metadata, so
    that serializing stores a fragment on [User]. *)
Definition user : GraphQLCompositeType :=
  composite "User" []
    [ field "id" (NonNullOf (NamedRef "ID")) [] (ownedBy "A");
      field "name" (NamedRef "String") [] (ownedBy "A");
      field "reviews" (ListOf (NamedRef "Review")) []
        (Some {| ff_serviceName := Value "B";
                 ff_requires := Some [FieldNode "name" None];
                 ff_provides := None |}) ]
    [ directive "key" "id" ]
    (Scenario.plainMetadata (Value "A")
       (Some [("A", Scenario.idKey); ("B", Scenario.idKey)])
       (Some [("B", [externalOf "User" "B" "id"; externalOf "User" "B" "name"])])).
Definition reviews : GraphQLSchema :=
  schemaOf [ObjectType user; ObjectType (Scenario.review [])].

(** An introspection type as graphql builds it: an Object type with
    fields and no federation metadata. *)
Definition schemaType : GraphQLCompositeType :=
  composite "__Schema" []
    [ field "types" (NonNullOf (ListOf (NonNullOf (NamedRef "__Type")))) [] None ]
    [] None.
Definition withIntrospection : GraphQLSchema :=
  schemaOf [ObjectType Scenario.user; ObjectType schemaType].

(** Scenario B with a [@provides] on [Review.author] whose field set is
    not a selection set. *)
Definition malformed : GraphQLSchema :=
  schemaOf [ObjectType Scenario.user;
            ObjectType (Scenario.review [directive "provides" "name {"])].

(** A type whose metadata and fields are complete, with an argument
    whose default value is an object that cannot be converted at its
    scalar type. *)
Definition page : GraphQLCompositeType :=
  composite "Page" []
    [ {| f_name := "items"; f_description := None;
         f_args := [ {| a_name := "first"; a_description := None;
                        a_type := NamedRef "Int";
                        a_defaultValue := JSObject [("n", JSNumber 10)] |} ];
         f_type := ListOf (NamedRef "String");
         f_isDeprecated := false; f_deprecationReason := Undefined;
         f_astNode := Some (fieldNode "items" []);
         f_federation := ownedBy "A" |} ]
    [] (Scenario.plainMetadata (Value "A") None None).
Definition pages : GraphQLSchema := schemaOf [ObjectType page].

Definition printIntrospectionSchema :=
  printIntrospectionSchema print astFromValue JSON_stringify localeCompare
    isSpecifiedDirective isIntrospectionType csdlDefinitions.

End Further.

(** ** Properties of the validator *)

Lemma collectM_Ok_In {A B} (body : A -> result (list B)) (l : list A) (ys : list B) :
  collectM body l = Ok ys ->
  forall y, In y ys <-> exists x zs, In x l /\ body x = Ok zs /\ In y zs.
Proof.
  revert ys. induction l as [|x l IH]; simpl; intros ys H y.
  - injection H as <-. split; [intros [] | intros (x & zs & [] & _)].
  - destruct (body x) as [zs|] eqn:Hx; simpl in H; [|discriminate].
    destruct (collectM body l) as [ws|] eqn:Hl; simpl in H; [|discriminate].
    injection H as <-. rewrite in_app_iff, (IH ws eq_refl y). split.
    + intros [Hy | (x' & zs' & Hin & Hb & Hy)].
      * exists x, zs. auto.
      * exists x', zs'. auto.
    + intros (x' & zs' & [-> | Hin] & Hb & Hy).
      * rewrite Hx in Hb. injection Hb as <-. now left.
      * right. exists x', zs'. auto.
Qed.

Lemma collectM_all_empty {A B} (body : A -> result (list B)) (l : list A) :
  (forall x, In x l -> body x = Ok []) -> collectM body l = Ok [].
Proof.
  induction l as [|x l IH]; simpl; intros H; [reflexivity|].
  rewrite (H x) by now left. simpl. rewrite IH; [reflexivity|].
  intros y Hy. apply H. now right.
Qed.

Lemma isObjectPrototypeMember_spec (name : string) :
  JS.isObjectPrototypeMember name = true <-> In name JS.objectPrototypeMembers.
Proof.
  unfold JS.isObjectPrototypeMember. rewrite existsb_exists. split.
  - intros (x & Hin & Heq). apply String.eqb_eq in Heq. now subst x.
  - intros Hin. exists name. split; [assumption | apply String.eqb_refl].
Qed.

(** The lookup [keys[owner]] is falsy exactly when the object has no
    entry of its own with an array under the owner and, if it has no entry
    of its own under that name, inherits no member of that name. *)
Lemma hasKeyEntry_false (owner : string)
    (keys : list (string * option (list (list SelectionNode)))) :
  hasKeyEntry owner keys = false <->
  ~ hasOwnKeyEntry owner keys /\
  (lookupKey owner keys = None -> ~ In owner JS.objectPrototypeMembers).
Proof.
  unfold hasKeyEntry, hasOwnKeyEntry.
  destruct (lookupKey owner keys) as [[selections|]|]; split.
  - discriminate.
  - intros [H _]. exfalso. apply H. eauto.
  - intros _. split; [intros (x & Hx); discriminate | discriminate].
  - reflexivity.
  - intros H. split; [intros (x & Hx); discriminate|].
    intros _ Hin. apply isObjectPrototypeMember_spec in Hin. congruence.
  - intros [_ H]. destruct (JS.isObjectPrototypeMember owner) eqn:Hm; [|reflexivity].
    exfalso. apply (H eq_refl). now apply isObjectPrototypeMember_spec.
Qed.

Lemma escapesValidation_spec (m : FederationType) :
  escapesValidation (Some m) = true <-> ownerMissingFromKeys m.
Proof.
  unfold escapesValidation, ownerMissingFromKeys. split.
  - destruct (ft_serviceName m) as [| |owner]; try discriminate.
    destruct (ft_keys m) as [keys|]; [|discriminate].
    intros H. apply andb_true_iff in H as [Ht Hk].
    apply negb_true_iff, hasKeyEntry_false in Hk as [Hown Hinherited].
    exists owner, keys. repeat split; trivial.
    intros ->. discriminate.
  - intros (owner & keys & -> & Hne & -> & Hown & Hinherited).
    rewrite (proj2 (hasKeyEntry_false owner keys) (conj Hown Hinherited)).
    destruct owner; [contradiction | reflexivity].
Qed.

Lemma escapesValidation_isSkipped (t : GraphQLCompositeType) :
  escapesValidation (ct_federation t) = false <-> ~ isSkipped t.
Proof.
  unfold isSkipped. split.
  - intros H (m & Hm & Hown). apply escapesValidation_spec in Hown.
    rewrite Hm in H. congruence.
  - intros H. destruct (escapesValidation (ct_federation t)) eqn:Hesc; [|reflexivity].
    exfalso. apply H. destruct (ct_federation t) as [m|]; [|discriminate].
    exists m. split; [reflexivity|]. now apply escapesValidation_spec.
Qed.

Lemma isInterfaceField_spec (schema : GraphQLSchema) (t : GraphQLCompositeType)
    (name : string) :
  isInterfaceField schema t name = true <-> implementsInterfaceDeclaring schema t name.
Proof.
  unfold isInterfaceField, fieldsOnInterfacesImplementedByParentType,
    implementsInterfaceDeclaring.
  rewrite existsb_exists. split.
  - intros (x & Hin & Heq). apply String.eqb_eq in Heq. subst x.
    apply in_flat_map in Hin as (iname & Hi & Hin).
    destruct (lookupKey iname (s_typeMap schema)) as [[| |i| | |]|] eqn:Hl;
      try contradiction.
    apply in_map_iff in Hin as (f & Hf & Hin). eauto 8.
  - intros (iname & i & f & Hi & Hl & Hf & Hn). exists name. split.
    + apply in_flat_map. exists iname. split; [assumption|]. rewrite Hl.
      apply in_map_iff. eauto.
    + apply String.eqb_refl.
Qed.

Section ValidatorProperties.

Variable parseFieldSet : string -> result (list SelectionNode).
Variable hasMatchingFieldInDirectives :
  list DirectiveNode -> string -> GraphQLCompositeType -> result bool.
Variable selectionIncludesField :
  GraphQLSchema -> list SelectionNode -> GraphQLCompositeType ->
  GraphQLCompositeType -> string -> result bool.
Variable logServiceAndType : string -> string -> string -> string.

Local Abbreviation check :=
  (checkExternalField parseFieldSet hasMatchingFieldInDirectives
     selectionIncludesField logServiceAndType).
Local Abbreviation checkOne :=
  (checkType parseFieldSet hasMatchingFieldInDirectives
     selectionIncludesField logServiceAndType).
Local Abbreviation validate :=
  (externalUnused parseFieldSet hasMatchingFieldInDirectives
     selectionIncludesField logServiceAndType).
Local Abbreviation unused :=
  (isUnused parseFieldSet hasMatchingFieldInDirectives selectionIncludesField).
Local Abbreviation mkError := (externalUnusedError logServiceAndType).

Ltac split_check :=
  unfold checkExternalField, isUnused;
  repeat match goal with
    | |- context [bind ?c _] => destruct c as [[|]|]; simpl
    | |- context [if ?b then _ else _] => destruct b; simpl
    end.

(** The iteration for one field pushes an error exactly when none of
    the five conditions holds. *)
Lemma checkExternalField_error schema tn t sn fld e :
  check schema tn t sn fld = Ok (Some e) <->
  unused schema t sn (fd_name fld) /\ e = mkError sn tn fld.
Proof.
  split_check; split; try discriminate;
    try (intros (H & _); decompose [and] H; discriminate).
  - intros H. injection H as <-. auto 10.
  - intros (_ & ->). reflexivity.
Qed.

Lemma checksInOrder_holds :
  checksInOrder parseFieldSet hasMatchingFieldInDirectives selectionIncludesField
    logServiceAndType.
Proof.
  intros schema tn t sn fld name verdict. subst name verdict.
  unfold checkExternalField.
  repeat match goal with
    | |- _ /\ _ => split
    | |- forall _, _ => intro
    | H : _ = Ok _ |- _ => rewrite H; clear H; simpl
    | H : _ = Throw _ |- _ => rewrite H; clear H; simpl
    | H : isInterfaceField _ _ _ = _ |- _ => rewrite H; clear H; simpl
    end; reflexivity.
Qed.

(** Where the errors of a run come from. *)
Lemma externalUnused_sources schema errs :
  validate schema = Ok errs ->
  forall e,
    In e errs <->
    exists tn t sn ext,
      declaresExternal schema tn t sn ext /\
      escapesValidation (ct_federation t) = false /\
      check schema tn t sn (ext_field ext) = Ok (Some e).
Proof.
  intros Hrun e. unfold externalUnused in Hrun.
  rewrite (collectM_Ok_In _ _ _ Hrun e). split.
  - intros ([tn nt] & zs & Hentry & Hbody & He).
    unfold checkType in Hbody. simpl in Hbody.
    destruct nt as [|t| | | |];
      try (injection Hbody as <-; contradiction).
    destruct (escapesValidation (ct_federation t)) eqn:Hesc;
      [injection Hbody as <-; contradiction|].
    destruct (ct_federation t) as [m|] eqn:Hm;
      [|injection Hbody as <-; contradiction].
    destruct (ft_externals m) as [externals|] eqn:Hx;
      [|injection Hbody as <-; contradiction].
    unfold checkExternals in Hbody.
    apply (collectM_Ok_In _ _ _ Hbody e) in He as ([sn fields] & ws & Hs & Hb & He).
    apply (collectM_Ok_In _ _ _ Hb e) in He as (ext & vs & Hf & Hv & He).
    simpl in Hv.
    destruct (checkExternalField _ _ _ _ _ _ _ _ _) as [[e'|]|] eqn:Hc;
      simpl in Hv; try discriminate; injection Hv as <-; simpl in He;
      [|contradiction].
    destruct He as [<-|[]].
    exists tn, t, sn, ext. split; [|rewrite Hm in *; auto].
    split; [assumption|]. exists m, externals, fields. auto.
  - intros (tn & t & sn & ext & (Hentry & m & externals & fields & Hm & Hx & Hs & Hf)
            & Hesc & Hc).
    destruct (collectM_Ok_In _ _ _ Hrun e) as [_ Hback].
    pose proof Hrun as Hall.
    assert (Hbody : exists zs, checkOne schema (tn, ObjectType t) = Ok zs).
    { clear -Hall Hentry. revert errs Hall.
      induction (s_typeMap schema) as [|x l IH]; simpl; intros errs Hall;
        [contradiction|].
      destruct (checkType _ _ _ _ _ x) as [zs|] eqn:Hz; simpl in Hall;
        [|discriminate].
      destruct (collectM _ l) as [ws|] eqn:Hw; simpl in Hall; [|discriminate].
      destruct Hentry as [->|Hin]; eauto. }
    destruct Hbody as (zs & Hbody). exists (tn, ObjectType t), zs.
    split; [assumption|]. split; [assumption|].
    pose proof Hbody as Hbody'. unfold checkType in Hbody'. simpl in Hbody'.
    rewrite Hesc, Hm, Hx in Hbody'. unfold checkExternals in Hbody'.
    apply (collectM_Ok_In _ _ _ Hbody' e).
    assert (Hinner : exists ws,
               collectM
                 (fun ext0 =>
                    let* r := check schema tn t sn (ext_field ext0) in Ok (pushed r))
                 fields = Ok ws).
    { clear -Hbody' Hs. revert zs Hbody'.
      induction externals as [|x l IH]; simpl; intros zs Hall; [contradiction|].
      destruct (collectM _ (snd x)) as [ws|] eqn:Hz; simpl in Hall; [|discriminate].
      destruct (collectM _ l) as [ws'|] eqn:Hw; simpl in Hall; [|discriminate].
      destruct Hs as [->|Hin]; eauto. }
    destruct Hinner as (ws & Hinner). exists (sn, fields), ws.
    split; [assumption|]. split; [assumption|].
    apply (collectM_Ok_In _ _ _ Hinner e). exists ext, [e].
    split; [assumption|]. rewrite Hc. simpl. auto.
Qed.

(** C1 (amended). When the validator returns, its errors are exactly
    those of the external fields, declared by a service on an Object type
    that the validator does not skip, for which none of the five
    conditions holds (a key on the type, a provides on a field returning
    the type, a requires anywhere that reaches the field, a requires on a
    field of the same type owned by the same service, a field of that name
    on an implemented interface); the conditions are tried in that fixed
    order, the first that holds ending the check of the field and the
    interface condition coming last; an error carries the code
    EXTERNAL_UNUSED, a message that identifies the service, the type name
    and the field name, and the field's [@external] directive nodes.  A
    type is skipped when its metadata declares a non-empty owner and a
    keys object in which looking up the owner finds nothing. *)
Theorem externalUnused_reports_exactly_unused schema errs :
  validate schema = Ok errs ->
  reportsExactlyUnused parseFieldSet hasMatchingFieldInDirectives
    selectionIncludesField logServiceAndType schema errs /\
  checksInOrder parseFieldSet hasMatchingFieldInDirectives
    selectionIncludesField logServiceAndType /\
  errorShape logServiceAndType.
Proof.
  intros Hrun. split; [|split].
  - intros e. rewrite (externalUnused_sources schema errs Hrun e).
    split; intros (tn & t & sn & ext & Hd & Hesc & H);
      exists tn, t, sn, ext; (split; [assumption|]);
      (split; [now apply escapesValidation_isSkipped|]).
    + now apply checkExternalField_error.
    + now apply checkExternalField_error.
  - apply checksInOrder_holds.
  - intros sn tn fld. simpl. auto.
Qed.

(** C4 (amended). An Object type is skipped, its iteration pushing
    nothing and evaluating no condition, when its metadata declares a
    non-empty owning service and a keys object in which looking up that
    service finds nothing: no entry of its own with an array, and no
    inherited member when there is no entry of its own.  Every error of a
    run comes from a type that is not skipped, and an Object type that is
    not skipped has all the externals of its metadata checked. *)
Theorem externalUnused_skips_owner_missing_from_keys schema tn t m :
  ct_federation t = Some m ->
  ownerMissingFromKeys m ->
  escapesValidation (ct_federation t) = true /\
  checkOne schema (tn, ObjectType t) = Ok [] /\
  (forall errs,
      validate schema = Ok errs ->
      errorsComeFrom logServiceAndType schema errs (fun t' _ => ~ isSkipped t')) /\
  (forall tn' t' m' externals,
      ct_federation t' = Some m' -> ~ ownerMissingFromKeys m' ->
      ft_externals m' = Some externals ->
      checkOne schema (tn', ObjectType t')
      = checkExternals parseFieldSet hasMatchingFieldInDirectives
          selectionIncludesField logServiceAndType schema tn' t' externals).
Proof.
  intros Hm Hown. apply escapesValidation_spec in Hown.
  rewrite Hm. split; [assumption|]. split; [|split].
  - unfold checkType. simpl. rewrite Hm, Hown. reflexivity.
  - intros errs Hrun e He.
    apply (externalUnused_sources schema errs Hrun e) in He
      as (tn' & t' & sn & ext & Hd & Hesc & Hc).
    apply checkExternalField_error in Hc as (_ & ->).
    apply escapesValidation_isSkipped in Hesc. eauto 10.
  - intros tn' t' m' externals Hm' Hnot Hx. unfold checkType. simpl.
    rewrite Hm', Hx.
    destruct (escapesValidation (Some m')) eqn:Hesc; [|reflexivity].
    apply escapesValidation_spec in Hesc. contradiction.
Qed.

(** C5. An external field whose name is declared by an interface that
    the type implements never gets an error: the iteration for the field
    pushes none, it ends without error as soon as the four directive
    conditions have said no, and every error of a run is for a field that
    no implemented interface declares. *)
Theorem externalUnused_interface_escape schema tn t sn fld :
  implementsInterfaceDeclaring schema t (fd_name fld) ->
  (forall e, check schema tn t sn fld <> Ok (Some e)) /\
  (hasMatchingKeyOnType hasMatchingFieldInDirectives t (fd_name fld) = Ok false ->
   hasMatchingProvidesOnAnotherType parseFieldSet schema t (fd_name fld) = Ok false ->
   hasMatchingRequiresOnAnotherType parseFieldSet selectionIncludesField
     schema t (fd_name fld) = Ok false ->
   hasMatchingRequiresOnType hasMatchingFieldInDirectives t sn (fd_name fld) = Ok false ->
   check schema tn t sn fld = Ok None) /\
  forall errs,
    validate schema = Ok errs ->
    errorsComeFrom logServiceAndType schema errs
      (fun t' ext =>
         ~ implementsInterfaceDeclaring schema t' (fd_name (ext_field ext))).
Proof.
  intros Hi. apply isInterfaceField_spec in Hi. split; [|split].
  - intros e Hc. apply checkExternalField_error in Hc as ((_ & _ & _ & _ & H) & _).
    congruence.
  - intros H1 H2 H3 H4. unfold checkExternalField.
    rewrite H1. simpl. rewrite H2. simpl. rewrite H3. simpl. rewrite H4. simpl.
    rewrite Hi. reflexivity.
  - intros errs Hrun e He.
    apply (externalUnused_sources schema errs Hrun e) in He
      as (tn' & t' & sn' & ext & Hd & Hesc & Hc).
    apply checkExternalField_error in Hc as ((_ & _ & _ & _ & H) & ->).
    exists tn', t', sn', ext. split; [assumption|]. split; [|reflexivity].
    intros Habs. apply isInterfaceField_spec in Habs. congruence.
Qed.

(** C9. The iteration for a type that is not of Object kind pushes
    nothing, whatever metadata the type carries, and every error of a run
    comes from an external field of an Object type of the type map. *)
Theorem externalUnused_only_object_types schema tn nt :
  isObjectType nt = false ->
  checkOne schema (tn, nt) = Ok [] /\
  forall errs,
    validate schema = Ok errs ->
    errorsComeFrom logServiceAndType schema errs (fun _ _ => True).
Proof.
  intros Hk. split.
  - destruct nt; try reflexivity. discriminate.
  - intros errs Hrun e He.
    apply (externalUnused_sources schema errs Hrun e) in He
      as (tn' & t' & sn' & ext & Hd & Hesc & Hc).
    apply checkExternalField_error in Hc as (_ & ->). eauto 10.
Qed.

End ValidatorProperties.

(** *** The validator on the scenarios *)

(** Scenario A of the specification: no error. *)
Example scenarioA_no_error : Sample.externalUnused Scenario.scenarioA = Ok [].
Proof. vm_compute. reflexivity. Qed.

(** Scenario B of the specification: one error, for [User.name] in B. *)
Example scenarioB_one_error :
  Sample.externalUnused Scenario.scenarioB = Ok [Scenario.nameUnused].
Proof. vm_compute. reflexivity. Qed.

Lemma externalUnused_reports_exactly_unused_witness :
  Sample.externalUnused Scenario.scenarioB = Ok [Scenario.nameUnused] /\
  reportsExactlyUnused Sample.parseFieldSet Sample.hasMatchingFieldInDirectives
    Sample.selectionIncludesField Sample.logServiceAndType
    Scenario.scenarioB [Scenario.nameUnused] /\
  err_message Scenario.nameUnused
  = "[B] User.name -> is marked as @external but is not used by a @requires, @key, or @provides directive." /\
  Sample.externalUnused Scenario.ownerNamedConstructor
  = Ok [Scenario.gadgetWeightUnused] /\
  reportsExactlyUnused Sample.parseFieldSet Sample.hasMatchingFieldInDirectives
    Sample.selectionIncludesField Sample.logServiceAndType
    Scenario.ownerNamedConstructor [Scenario.gadgetWeightUnused].
Proof.
  split; [vm_compute; reflexivity|]. split; [|split; [reflexivity|split]].
  - apply (externalUnused_reports_exactly_unused Sample.parseFieldSet
             Sample.hasMatchingFieldInDirectives Sample.selectionIncludesField
             Sample.logServiceAndType Scenario.scenarioB [Scenario.nameUnused]).
    vm_compute. reflexivity.
  - vm_compute. reflexivity.
  - apply (externalUnused_reports_exactly_unused Sample.parseFieldSet
             Sample.hasMatchingFieldInDirectives Sample.selectionIncludesField
             Sample.logServiceAndType Scenario.ownerNamedConstructor
             [Scenario.gadgetWeightUnused]).
    vm_compute. reflexivity.
Defined.

(** C1 as stated fails: [Product.weight] is an external field declared by
    B on an entity Object type and none of the five conditions holds for
    it, yet the validator reports nothing, because the owner A has no entry
    in the keys of [Product] and the type is skipped. *)
Lemma externalUnused_unused_not_reported :
  declaresExternal Scenario.ownerWithoutKey "Product" Scenario.product "B"
    (Sample.externalOf "Product" "B" "weight") /\
  isUnused Sample.parseFieldSet Sample.hasMatchingFieldInDirectives
    Sample.selectionIncludesField Scenario.ownerWithoutKey Scenario.product
    "B" "weight" /\
  ~ reportsUnused Sample.parseFieldSet Sample.hasMatchingFieldInDirectives
      Sample.selectionIncludesField Sample.logServiceAndType
      Scenario.ownerWithoutKey "Product" "B"
      (Sample.externalOf "Product" "B" "weight").
Proof.
  split; [|split].
  - split; [cbn; left; reflexivity|].
    eexists _, _, _. split; [reflexivity|]. split; [reflexivity|].
    split; [cbn; left; reflexivity|]. cbn. left. reflexivity.
  - repeat split; vm_compute; reflexivity.
  - intros (errs & Hrun & Hin). vm_compute in Hrun. injection Hrun as <-.
    contradiction.
Qed.

Lemma externalUnused_skips_owner_missing_from_keys_witness :
  ownerMissingFromKeys
    {| ft_serviceName := Value "A";
       ft_keys := Some [("B", Some [[FieldNode "sku" None]])];
       ft_externals := Some [("B", [Sample.externalOf "Product" "B" "weight"])];
       ft_isValueType := None |} /\
  checkType Sample.parseFieldSet Sample.hasMatchingFieldInDirectives
    Sample.selectionIncludesField Sample.logServiceAndType
    Scenario.ownerWithoutKey ("Product", ObjectType Scenario.product) = Ok [].
Proof.
  assert (H : ownerMissingFromKeys
                {| ft_serviceName := Value "A";
                   ft_keys := Some [("B", Some [[FieldNode "sku" None]])];
                   ft_externals :=
                     Some [("B", [Sample.externalOf "Product" "B" "weight"])];
                   ft_isValueType := None |}).
  { exists "A", [("B", Some [[FieldNode "sku" None]])].
    split; [reflexivity|]. split; [discriminate|]. split; [reflexivity|]. split.
    - intros (selections & Hl). discriminate Hl.
    - intros _ Hin. apply isObjectPrototypeMember_spec in Hin. discriminate Hin. }
  split; [exact H|].
  exact (proj1 (proj2
           (externalUnused_skips_owner_missing_from_keys Sample.parseFieldSet
              Sample.hasMatchingFieldInDirectives Sample.selectionIncludesField
              Sample.logServiceAndType Scenario.ownerWithoutKey "Product"
              Scenario.product _ eq_refl H))).
Defined.

(** C4 as stated fails, in two ways.  The metadata of [AccountRoles]
    declares the owner A, which has no key entry because the type has no
    keys at all: the type is not skipped and its unused external gets an
    error.  The metadata of [Gadget] declares the owner [constructor],
    and its keys object only has an entry for B: the lookup of the owner
    finds the member that every plain object inherits, the type is not
    skipped and its unused external gets an error. *)
Lemma externalUnused_owner_without_keys_checked :
  ((exists m, ct_federation Scenario.roles = Some m /\ ownerHasNoKeyEntry m) /\
   Sample.externalUnused Scenario.ownerWithoutKeys = Ok [Scenario.canWriteUnused]) /\
  ((exists m keys,
       ct_federation Scenario.gadget = Some m /\ ownerHasNoKeyEntry m /\
       ft_keys m = Some keys /\ lookupKey "constructor" keys = None) /\
   Sample.externalUnused Scenario.ownerNamedConstructor
   = Ok [Scenario.gadgetWeightUnused]).
Proof.
  split; split.
  - eexists. split; [reflexivity|]. exists "A". split; [reflexivity|].
    intros keys H. discriminate.
  - vm_compute. reflexivity.
  - eexists _, _. split; [reflexivity|]. split; [|split; reflexivity].
    exists "constructor". split; [reflexivity|].
    intros keys H. injection H as <-. intros (selections & Hl). discriminate Hl.
  - vm_compute. reflexivity.
Qed.

Lemma externalUnused_interface_escape_witness :
  implementsInterfaceDeclaring Scenario.vehicles Scenario.car "speed" /\
  Sample.externalUnused Scenario.vehicles = Ok [] /\
  forall e,
    checkExternalField Sample.parseFieldSet Sample.hasMatchingFieldInDirectives
      Sample.selectionIncludesField Sample.logServiceAndType
      Scenario.vehicles "Car" Scenario.car "B" (Sample.fieldNode "speed" [Sample.external])
    <> Ok (Some e).
Proof.
  assert (H : implementsInterfaceDeclaring Scenario.vehicles Scenario.car "speed").
  { exists "Vehicle", Scenario.vehicle,
      (Sample.field "speed" (NamedRef "Int") [] None).
    repeat split; try reflexivity; cbn; auto. }
  split; [exact H|]. split; [vm_compute; reflexivity|].
  exact (proj1
           (externalUnused_interface_escape Sample.parseFieldSet
              Sample.hasMatchingFieldInDirectives Sample.selectionIncludesField
              Sample.logServiceAndType Scenario.vehicles "Car" Scenario.car "B"
              (Sample.fieldNode "speed" [Sample.external]) H)).
Defined.

Lemma externalUnused_only_object_types_witness :
  isObjectType (InterfaceType Scenario.node) = false /\
  checkType Sample.parseFieldSet Sample.hasMatchingFieldInDirectives
    Sample.selectionIncludesField Sample.logServiceAndType
    Scenario.interfaceWithExternals ("Node", InterfaceType Scenario.node) = Ok [] /\
  Sample.externalUnused Scenario.interfaceWithExternals = Ok [].
Proof.
  split; [reflexivity|]. split; [|vm_compute; reflexivity].
  exact (proj1
           (externalUnused_only_object_types Sample.parseFieldSet
              Sample.hasMatchingFieldInDirectives Sample.selectionIncludesField
              Sample.logServiceAndType Scenario.interfaceWithExternals "Node"
              (InterfaceType Scenario.node) eq_refl)).
Defined.

(** ** Properties of the serializer *)

Lemma prefix_empty (s : string) : String.prefix EmptyString s = true.
Proof. destruct s; reflexivity. Qed.

Lemma prefix_append (s t : string) : String.prefix s (s ++ t) = true.
Proof.
  induction s as [|c s IH]; simpl; [apply prefix_empty|].
  destruct (ascii_dec c c); [assumption | congruence].
Qed.

Lemma append_assoc3 (a b c : string) : (a ++ b) ++ c = a ++ b ++ c.
Proof. induction a as [|x a IH]; simpl; [reflexivity | now rewrite IH]. Qed.

Lemma isExtension_spec (type : GraphQLCompositeType) :
  isExtension type = true <-> isExtensionOnly type.
Proof.
  unfold isExtension, isExtensionOnly. split.
  - destruct (ct_extensionASTNodes type); [|discriminate].
    destruct (ct_astNode type) as [n|]; [|discriminate].
    destruct (td_fields n) eqn:Hf; [discriminate|].
    intros _. split; [discriminate | eauto].
  - intros (He & n & -> & ->).
    destruct (ct_extensionASTNodes type); [reflexivity | contradiction].
Qed.

(** On a type without an empty array, what the code tests is that the
    type has extension nodes and a base node that declares no fields. *)
Lemma isExtensionOnly_without_empty_array (type : GraphQLCompositeType) :
  hasNoEmptyArray type ->
  (isExtensionOnly type <-> hasExtensionNodes type /\ baseDeclaresNoFields type).
Proof.
  unfold hasNoEmptyArray, isExtensionOnly, hasExtensionNodes, baseDeclaresNoFields.
  intros [Hnodes Hfields]. split.
  - intros (Hext & n & Hn & Hf). split; [|eauto].
    destruct (ct_extensionASTNodes type) as [[|node nodes]|]; try contradiction.
    eauto.
  - intros ((node & nodes & Hext) & n & Hn & [Hf | Hf]).
    + split; [congruence | eauto].
    + exfalso. exact (Hfields n Hn Hf).
Qed.

Lemma append_cancel_l (a x y : string) : a ++ x = a ++ y -> x = y.
Proof.
  induction a as [|c a IH]; simpl; intros H; [assumption|].
  injection H as H. auto.
Qed.

(** The text made of the description, [extend] when the code's test
    holds, the keyword, the name and the rest. *)
Lemma printsExtend_after_description (keyword : string) (options : option Options)
    (type : GraphQLCompositeType) (more : string) :
  String.prefix "extend " (keyword ++ ct_name type ++ more) = false ->
  printsExtendIffExtension keyword options type
    (printDescription options (ct_description type) EmptyString true
     ++ (if isExtension type then "extend " else EmptyString)
     ++ keyword ++ ct_name type ++ more).
Proof.
  intros Hkw. unfold printsExtendIffExtension, printsExtend, printsPlain.
  destruct (isExtension type) eqn:Hext.
  - split.
    + split; [intros _; now apply isExtension_spec|].
      intros _. exists more. reflexivity.
    + intros Hnot. exfalso. apply Hnot. now apply isExtension_spec.
  - change (EmptyString ++ ?s) with s. split.
    + split.
      * intros (rest & Hrest). exfalso. apply append_cancel_l in Hrest.
        rewrite Hrest in Hkw. rewrite (prefix_append "extend ") in Hkw.
        discriminate Hkw.
      * intros H. apply isExtension_spec in H. congruence.
    + intros _. exists more. reflexivity.
Qed.

Lemma lookupKey_absent {V} (key : string) (m : list (string * V)) :
  Forall (fun entry => fst entry <> key) m -> lookupKey key m = None.
Proof.
  induction 1 as [|[k v] m Hk _ IH]; simpl; [reflexivity|].
  destruct (String.eqb_spec k key); [contradiction | assumption].
Qed.

Lemma mapSet_Forall {V} (P : string * V -> Prop) (k : string) (v : V)
    (m : list (string * V)) :
  P (k, v) -> Forall P m -> Forall P (mapSet k v m).
Proof.
  intros Hkv. induction 1 as [|[k' v'] m Hx Hm IH]; simpl.
  - constructor; [assumption | constructor].
  - destruct (String.eqb k' k); constructor; assumption.
Qed.

Section SerializerLocal.

Variable print : ASTNode -> string.
Variable astFromValue : JSValue -> TypeRef -> result (option ValueNode).

Local Abbreviation findOrCreate := (findOrCreateFragment print).
Local Abbreviation fieldDirectives := (printFederationFieldDirectives print).
Local Abbreviation fieldLines := (printFieldLines print astFromValue).

(** The lookup by selection text never hits: the Map is filled under
    the synthesized names, none of which is a selection text. *)
Lemma findOrCreateFragment_never_reuses type selections :
  keyedByFragmentName type ->
  lookupKey (printFieldSet print selections) (fragmentsOf type) = None /\
  fst (findOrCreate type selections) =
    "cs__fragmentOn_"
    ++ asValidIdentifier
         (ct_name type ++ "_" ++ printFieldSet print selections ++ "_"
          ++ JS.ofNat (nextFragmentIdOf type)) /\
  nextFragmentIdOf (snd (findOrCreate type selections)) = S (nextFragmentIdOf type) /\
  keyedByFragmentName (snd (findOrCreate type selections)).
Proof.
  intros Hinv.
  assert (Hmiss : lookupKey (printFieldSet print selections) (fragmentsOf type) = None).
  { apply lookupKey_absent. unfold fragmentsOf.
    destruct (ct_fragments type) as [m|] eqn:Hm; [|constructor].
    eapply List.Forall_impl; [|apply (Hinv m Hm)].
    intros [k v] Hk Heq. simpl in *. subst k.
    unfold printFieldSet in Hk. simpl in Hk. discriminate. }
  split; [assumption|]. unfold fragmentsOf, nextFragmentIdOf in *.
  unfold findOrCreateFragment. rewrite Hmiss. simpl.
  repeat split.
  intros m Hm. injection Hm as <-. apply mapSet_Forall.
  - simpl. apply (prefix_append "cs__fragmentOn_").
  - destruct (ct_fragments type) as [m|] eqn:Hm; [apply (Hinv m Hm) | constructor].
Qed.

End SerializerLocal.

(** C3: two fields of [Account] require the same selection [{ id }];
    the second lookup does not find the fragment made for the first, a
    second fragment with the same text is made, and the two resolution
    directives name different fragments. *)
Theorem findOrCreateFragment_duplicates_identical_text :
  let first := findOrCreateFragment Sample.print Document.account Document.requiresId in
  let second := findOrCreateFragment Sample.print (snd first) Document.requiresId in
  fst first = "cs__fragmentOn_Account_id_0" /\
  fst second = "cs__fragmentOn_Account_id_1" /\
  map (fun entry => (fst entry, frag_text (snd entry))) (fragmentsOf (snd second)) =
    [ ("cs__fragmentOn_Account_id_0",
       "fragment cs__fragmentOn_Account_id_0 on Account { id }");
      ("cs__fragmentOn_Account_id_1",
       "fragment cs__fragmentOn_Account_id_1 on Account { id }") ] /\
  printFieldLines Sample.print Sample.astFromValue None 0
    (ct_fields Document.account) Document.account =
    (Ok [ "  id: ID! @cs__resolve(graph: A)";
          "  balance: Int @cs__resolve(graph: B, requires: "
            ++ quoted "cs__fragmentOn_Account_id_0" ++ ")";
          "  limit: Int @cs__resolve(graph: B, requires: "
            ++ quoted "cs__fragmentOn_Account_id_1" ++ ")" ],
     snd second) /\
  printFragmentsForType (snd second) =
    JS.nl ++ "fragment cs__fragmentOn_Account_id_0 on Account { id }" ++ ","
    ++ JS.nl ++ "fragment cs__fragmentOn_Account_id_1 on Account { id }".
Proof. vm_compute. repeat split. Qed.

Section SerializerFrame.

Variable print : ASTNode -> string.
Variable astFromValue : JSValue -> TypeRef -> result (option ValueNode).
Variable JSON_stringify : string -> string.
Variable localeCompare : string -> string -> Z.
Variable isSpecifiedDirective : GraphQLDirective -> bool.
Variable isSpecifiedScalarType : GraphQLNamedType -> bool.
Variable isIntrospectionType : GraphQLNamedType -> bool.
Variable isFederationType : GraphQLNamedType -> bool.
Variable isFederationDirective : GraphQLDirective -> bool.
Variable csdlDefinitions : list string.

Local Abbreviation printOne := (printType print astFromValue).
Local Abbreviation printAll := (printTypes print astFromValue).
Local Abbreviation serialize :=
  (printComposedSdl print astFromValue JSON_stringify localeCompare
     isSpecifiedDirective isSpecifiedScalarType isIntrospectionType
     isFederationType isFederationDirective csdlDefinitions).

(** *** What a call may change on a type object *)

Lemma findOrCreateFragment_frame type selections :
  withoutFragments (snd (findOrCreateFragment print type selections))
  = withoutFragments type.
Proof.
  unfold findOrCreateFragment. destruct (lookupKey _ _); reflexivity.
Qed.

Lemma printFederationFieldDirectives_frame type field :
  withoutFragments (snd (printFederationFieldDirectives print type field))
  = withoutFragments type.
Proof.
  unfold printFederationFieldDirectives.
  destruct (f_federation field) as [m|];
    [|destruct (ct_federation type); reflexivity].
  destruct (ff_requires m) as [[|r rs]|]; destruct (ff_provides m) as [[|p ps]|];
    simpl; try reflexivity;
    repeat match goal with
      | |- context [findOrCreateFragment print ?t ?s] =>
          let H := fresh "H" in
          pose proof (findOrCreateFragment_frame t s) as H;
          destruct (findOrCreateFragment print t s); simpl in *
      end; congruence.
Qed.

Lemma printFieldLine_frame options i type f :
  withoutFragments (snd (printFieldLine print astFromValue options i type f))
  = withoutFragments type.
Proof.
  unfold printFieldLine.
  destruct (printArgs _ _ _ _ _) as [args|e]; [|reflexivity].
  destruct (printDeprecated _ _ _ _) as [deprecated|e]; [|reflexivity].
  pose proof (printFederationFieldDirectives_frame type f) as Hf.
  destruct (printFederationFieldDirectives print type f) as [[text|e] type1];
    assumption.
Qed.

Lemma printFieldLines_frame options i fields type :
  withoutFragments (snd (printFieldLines print astFromValue options i fields type))
  = withoutFragments type.
Proof.
  revert i type. induction fields as [|f fields IH]; intros i type; simpl;
    [reflexivity|].
  pose proof (printFieldLine_frame options i type f) as Hf.
  destruct (printFieldLine print astFromValue options i type f) as [[text|e] type1];
    simpl in *; [|assumption].
  specialize (IH (S i) type1).
  destruct (printFieldLines _ _ _ _ _ _) as [[lines|e] type2]; simpl in *;
    congruence.
Qed.

Lemma printFields_frame options type :
  withoutFragments (snd (printFields print astFromValue options type))
  = withoutFragments type.
Proof.
  unfold printFields.
  pose proof (printFieldLines_frame options 0 (ct_fields type) type) as H.
  destruct (printFieldLines _ _ _ _ _ _) as [[lines|e] type1]; assumption.
Qed.

Lemma printType_frame type options nextKeyId :
  typeWithoutFragments (snd (fst (printOne type options nextKeyId)))
  = typeWithoutFragments type.
Proof.
  destruct type as [t|t|t|t|t|t]; try reflexivity; simpl.
  - unfold printObject. pose proof (printFields_frame options t) as H.
    destruct (printFields _ _ _ _) as [[fields|e] t1]; simpl in *;
      [destruct (printKeys _ _ _)|]; simpl; congruence.
  - unfold printInterface. pose proof (printFields_frame options t) as H.
    destruct (printFields _ _ _ _) as [[fields|e] t1]; simpl in *; congruence.
Qed.

Lemma printTypes_frame refs options typeMap nextKeyId :
  mapWithoutFragments (snd (fst (printAll refs options typeMap nextKeyId)))
  = mapWithoutFragments typeMap.
Proof.
  revert typeMap nextKeyId.
  induction refs as [|ref refs IH]; intros typeMap nextKeyId; simpl;
    [reflexivity|].
  destruct (typeMap !! ref) as [[key type]|] eqn:Href; [|reflexivity].
  pose proof (printType_frame type options nextKeyId) as Hone.
  assert (Hput : forall type1,
             typeWithoutFragments type1 = typeWithoutFragments type ->
             mapWithoutFragments (<[ref := (key, type1)]> typeMap)
             = mapWithoutFragments typeMap).
  { intros type1 H1. unfold mapWithoutFragments.
    rewrite (list_fmap_insert _ typeMap ref (key, type1)). simpl. rewrite H1.
    apply list_insert_id. rewrite list_lookup_fmap, Href. reflexivity. }
  destruct (printType _ _ _ _ _) as [[[text|e] type1] n1]; simpl in Hone.
  - specialize (IH (<[ref := (key, type1)]> typeMap) n1).
    destruct (printTypes _ _ _ _ _ _) as [[[texts|e] typeMap2] n2];
      simpl in *; rewrite IH; auto.
  - simpl. auto.
Qed.

(** *** The key counter never goes back *)

Lemma printKeySelections_counter typeName service keys n :
  snd (printKeySelections print typeName service keys n) = n + List.length keys.
Proof.
  revert n. induction keys as [|k keys IH]; intros n; simpl; [lia|].
  specialize (IH (S n)). destruct (printKeySelections _ _ _ _ _). simpl in *. lia.
Qed.

Lemma printKeyEntries_counter typeName entries n :
  n <= snd (printKeyEntries print typeName entries n).
Proof.
  revert n. induction entries as [|[service keys] entries IH]; intros n; simpl;
    [lia|].
  destruct keys as [keys|].
  - pose proof (printKeySelections_counter typeName service keys n) as Hk.
    destruct (printKeySelections _ _ _ _ _) as [lines n1]. simpl in Hk.
    specialize (IH n1). destruct (printKeyEntries _ _ _ _). simpl in *. lia.
  - specialize (IH n). destruct (printKeyEntries _ _ _ _). simpl in *. lia.
Qed.

Lemma printKeys_counter type n : n <= snd (printKeys print type n).
Proof.
  unfold printKeys. destruct (ct_federation type) as [m|]; simpl; [|lia].
  destruct (ft_serviceName m) as [| |owner]; simpl; try lia.
  destruct (ft_keys m) as [keys|]; simpl; [|lia].
  destruct (JS.truthy owner); simpl; [|lia].
  pose proof (printKeyEntries_counter (ct_name type) keys n) as H.
  destruct (printKeyEntries _ _ _ _). simpl in *. lia.
Qed.

Lemma printType_counter type options n : n <= snd (printOne type options n).
Proof.
  destruct type as [t|t|t|t|t|t]; simpl; try lia.
  - unfold printObject. destruct (printFields _ _ _ _) as [[fields|e] t1];
      simpl; [|lia].
    pose proof (printKeys_counter t1 n) as H.
    destruct (printKeys _ _ _). simpl in *. lia.
  - destruct (printInterface _ _ _ _). simpl. lia.
Qed.

Lemma printTypes_counter refs options typeMap n :
  n <= snd (printAll refs options typeMap n).
Proof.
  revert typeMap n. induction refs as [|ref refs IH]; intros typeMap n; simpl;
    [lia|].
  destruct (typeMap !! ref) as [[key type]|]; simpl; [|lia].
  pose proof (printType_counter type options n) as Hone.
  destruct (printType _ _ _ _ _) as [[[text|e] type1] n1]; simpl in *; [|lia].
  specialize (IH (<[ref := (key, type1)]> typeMap) n1).
  destruct (printTypes _ _ _ _ _ _) as [[[texts|e] typeMap2] n2]; simpl in *; lia.
Qed.

(** C7 (amended). A call leaves the schema as it was except for the
    [fragments] Map and the [nextFragmentId] counter that
    [findOrCreateFragment] stores on the Object and Interface type
    objects: names, kinds, descriptions, fields, interfaces, AST nodes and
    federation metadata of all types, the directives and the root types
    are unchanged, whether the call returns or throws; the module-level
    key counter never decreases.  The stored fragments and both counters
    stay after the call. *)
Theorem printComposedSdl_frame schema serviceList options nextKeyId :
  schemaWithoutFragments (snd (fst (serialize schema serviceList options nextKeyId)))
  = schemaWithoutFragments schema /\
  nextKeyId <= snd (serialize schema serviceList options nextKeyId).
Proof.
  unfold printComposedSdl, printFilteredSchema.
  destruct (mapM _ _) as [directiveTexts|e]; [|split; [reflexivity | simpl; lia]].
  match goal with
  | |- context [printTypes print astFromValue ?refs options ?tm nextKeyId] =>
      pose proof (printTypes_frame refs options tm nextKeyId) as Hf;
      pose proof (printTypes_counter refs options tm nextKeyId) as Hc;
      destruct (printTypes print astFromValue refs options tm nextKeyId)
        as [[[texts|e] typeMap1] n1]
  end; simpl in *; (split; [|assumption]);
    unfold schemaWithoutFragments, withTypeMap; simpl;
    rewrite Hf; reflexivity.
Qed.

End SerializerFrame.

(** C7 as stated fails: after one call on [Document.accounts] the
    [Account] type object holds two fragments and a fragment counter that
    it did not have before. *)
Lemma printComposedSdl_mutates_type_objects :
  let after :=
    snd (fst (Sample.printComposedSdl Document.accounts Document.services None 0)) in
  after <> Document.accounts /\
  match s_typeMap after with
  | [(_, ObjectType t)] =>
      ct_nextFragmentId t = Some 2 /\ List.length (fragmentsOf t) = 2
  | _ => False
  end.
Proof.
  vm_compute. split; [|split; reflexivity].
  intros H. discriminate H.
Qed.

(** *** The sorted, filtered references to the types *)

Lemma insertSorted_Permutation {A} (compareFn : A -> A -> Z) (x : A) (l : list A) :
  Permutation (insertSorted compareFn x l) (x :: l).
Proof.
  induction l as [|y l IH]; simpl; [reflexivity|].
  destruct (compareFn x y <=? 0)%Z; [reflexivity|].
  rewrite IH. apply perm_swap.
Qed.

Lemma sortWith_Permutation {A} (compareFn : A -> A -> Z) (l : list A) :
  Permutation (sortWith compareFn l) l.
Proof.
  induction l as [|x l IH]; simpl; [reflexivity|].
  rewrite insertSorted_Permutation. now constructor.
Qed.

Lemma filter_Permutation {A} (f : A -> bool) (l l' : list A) :
  Permutation l l' -> Permutation (List.filter f l) (List.filter f l').
Proof.
  induction 1 as [|x l l' _ IH|x y l|l l' l'' _ IH1 _ IH2]; simpl.
  - reflexivity.
  - destruct (f x); [now constructor | assumption].
  - destruct (f x), (f y); try reflexivity. apply perm_swap.
  - now transitivity (List.filter f l').
Qed.

Section Sorting.

Context {A : Type} (compareFn : A -> A -> Z).
Hypothesis compare_total :
  forall a b, (0 < compareFn a b)%Z -> (compareFn b a <= 0)%Z.
Hypothesis compare_trans :
  forall a b c, (compareFn a b <= 0)%Z -> (compareFn b c <= 0)%Z ->
                (compareFn a c <= 0)%Z.

Local Abbreviation inOrder := (fun a b => (compareFn a b <= 0)%Z).

Lemma insertSorted_Sorted x l :
  Sorted inOrder l -> Sorted inOrder (insertSorted compareFn x l).
Proof using compare_total.
  induction 1 as [|y l Hs IH Hd]; simpl.
  - repeat constructor.
  - destruct (Z.leb_spec (compareFn x y) 0) as [Hle|Hgt].
    + constructor; [now constructor | now constructor].
    + constructor; [assumption|].
      destruct l as [|z l]; simpl in *.
      * constructor. now apply compare_total.
      * destruct (compareFn x z <=? 0)%Z; constructor.
        -- now apply compare_total.
        -- now inversion Hd.
Qed.

Lemma sortWith_Sorted l : Sorted inOrder (sortWith compareFn l).
Proof using compare_total.
  induction l as [|x l IH]; simpl; [constructor | now apply insertSorted_Sorted].
Qed.

Lemma sortWith_StronglySorted l : StronglySorted inOrder (sortWith compareFn l).
Proof using compare_total compare_trans.
  apply Sorted_StronglySorted; [|apply sortWith_Sorted].
  intros a b c. apply compare_trans.
Qed.

End Sorting.

Lemma filter_StronglySorted {A} (R : A -> A -> Prop) (f : A -> bool) (l : list A) :
  StronglySorted R l -> StronglySorted R (List.filter f l).
Proof.
  induction 1 as [|x l Hs IH Hall]; simpl; [constructor|].
  destruct (f x); [|assumption]. constructor; [assumption|].
  rewrite List.Forall_forall in *. intros y Hy.
  apply List.filter_In in Hy as [Hy _]. auto.
Qed.

Lemma map_StronglySorted {A B} (R : B -> B -> Prop) (g : A -> B) (l : list A) :
  StronglySorted (fun a b => R (g a) (g b)) l -> StronglySorted R (map g l).
Proof.
  induction 1 as [|x l Hs IH Hall]; simpl; constructor; [assumption|].
  rewrite List.Forall_forall in *. intros y Hy.
  apply List.in_map_iff in Hy as (a & <- & Ha). auto.
Qed.

Lemma map_filter_snd {A B} (f : B -> bool) (l : list (A * B)) :
  map snd (List.filter (fun r => f (snd r)) l) = List.filter f (map snd l).
Proof.
  induction l as [|[a b] l IH]; simpl; [reflexivity|].
  destruct (f b); simpl; now rewrite IH.
Qed.

Lemma filter_map_fst_NoDup {A B} (f : A * B -> bool) (l : list (A * B)) :
  List.NoDup (map fst l) -> List.NoDup (map fst (List.filter f l)).
Proof.
  induction l as [|x l IH]; simpl; intros H; [constructor|].
  inversion H as [|? ? Hx Hl]; subst.
  destruct (f x); simpl; [|auto]. constructor; [|auto].
  intros Hin. apply Hx. apply List.in_map_iff in Hin as (y & Hy & Hin).
  apply List.filter_In in Hin as [Hin _]. apply List.in_map_iff. eauto.
Qed.

Section TypeRefs.

Variable localeCompare : string -> string -> Z.
Variable typeFilter : GraphQLNamedType -> bool.

Local Abbreviation indexed :=
  (imap (fun (i : nat) (entry : string * GraphQLNamedType) => (i, snd entry))).
Local Abbreviation refsOf := (sortedTypeRefs localeCompare typeFilter).

Lemma indexed_In (typeMap : list (string * GraphQLNamedType)) i type :
  In (i, type) (indexed typeMap) <-> exists key, typeMap !! i = Some (key, type).
Proof.
  rewrite <- list_elem_of_In, elem_of_lookup_imap. split.
  - intros (j & [key t] & Heq & Hl). injection Heq as -> ->. eauto.
  - intros (key & Hl). exists i, (key, type). auto.
Qed.

Lemma indexed_fst (typeMap : list (string * GraphQLNamedType)) :
  map fst (indexed typeMap) = seq 0 (List.length typeMap).
Proof.
  change (map fst (indexed typeMap)) with (fst <$> indexed typeMap).
  rewrite fmap_imap.
  rewrite (imap_ext _ (fun j _ => j) typeMap) by reflexivity.
  rewrite imap_seq_0. apply list_fmap_id.
Qed.

Lemma indexed_snd (typeMap : list (string * GraphQLNamedType)) :
  map snd (indexed typeMap) = map snd typeMap.
Proof.
  change (map snd (indexed typeMap)) with (snd <$> indexed typeMap).
  rewrite fmap_imap.
  rewrite (imap_ext _ (const snd) typeMap) by reflexivity.
  apply imap_const.
Qed.

Lemma sortedTypeRefs_In typeMap i type :
  In (i, type) (refsOf typeMap) <->
  (exists key, typeMap !! i = Some (key, type)) /\ typeFilter type = true.
Proof.
  unfold sortedTypeRefs. rewrite List.filter_In. simpl.
  rewrite <- indexed_In. split; intros [H ?]; split; trivial.
  - eapply Permutation_in; [apply sortWith_Permutation | exact H].
  - eapply Permutation_in; [symmetry; apply sortWith_Permutation | exact H].
Qed.

Lemma sortedTypeRefs_NoDup typeMap : List.NoDup (map fst (refsOf typeMap)).
Proof.
  unfold sortedTypeRefs. apply filter_map_fst_NoDup.
  eapply Permutation_NoDup.
  - apply Permutation_map. symmetry. apply sortWith_Permutation.
  - rewrite indexed_fst. apply List.seq_NoDup.
Qed.

Lemma sortedTypeRefs_Permutation typeMap :
  Permutation (map snd (refsOf typeMap)) (List.filter typeFilter (map snd typeMap)).
Proof.
  unfold sortedTypeRefs. rewrite map_filter_snd. apply filter_Permutation.
  rewrite <- indexed_snd. apply Permutation_map, sortWith_Permutation.
Qed.

Lemma sortedTypeRefs_sorted typeMap :
  (forall a b, (0 < localeCompare a b)%Z -> (localeCompare b a <= 0)%Z) ->
  (forall a b c, (localeCompare a b <= 0)%Z -> (localeCompare b c <= 0)%Z ->
                 (localeCompare a c <= 0)%Z) ->
  StronglySorted (fun a b => (localeCompare (typeName a) (typeName b) <= 0)%Z)
    (map snd (refsOf typeMap)).
Proof.
  intros Htotal Htrans. apply map_StronglySorted.
  unfold sortedTypeRefs. apply filter_StronglySorted.
  apply sortWith_StronglySorted.
  - intros a b. apply Htotal.
  - intros a b c. apply Htrans.
Qed.

End TypeRefs.

(** ** Where the serializer throws *)

Lemma throws_spec {A} (r : result A) : throws r = true <-> exists e, r = Throw e.
Proof.
  destruct r as [a|e]; simpl; split; try discriminate; eauto.
  intros (e & H). discriminate H.
Qed.

Lemma throws_false {A} (r : result A) : throws r = false <-> exists a, r = Ok a.
Proof.
  destruct r as [a|e]; simpl; split; try discriminate; eauto.
  intros (a & H). discriminate H.
Qed.

Lemma throws_bind {A B} (r : result A) (k : A -> result B) :
  throws (bind r k)
  = throws r || match r with Ok a => throws (k a) | Throw _ => false end.
Proof. destruct r; reflexivity. Qed.

Lemma throws_mapM {A B} (f : A -> result B) (l : list A) :
  throws (mapM f l) = existsb (fun x => throws (f x)) l.
Proof.
  induction l as [|x l IH]; simpl; [reflexivity|].
  destruct (f x) as [y|e]; simpl; [|reflexivity].
  rewrite <- IH. destruct (mapM f l); reflexivity.
Qed.

Lemma throws_mapFromM {A B} (f : nat -> A -> result B) (g : A -> bool)
    (i : nat) (l : list A) :
  (forall j x, throws (f j x) = g x) ->
  throws (mapFromM f i l) = existsb g l.
Proof.
  intros Hfg. revert i. induction l as [|x l IH]; intros i; simpl; [reflexivity|].
  rewrite <- (Hfg i x). destruct (f i x) as [y|e]; simpl; [|reflexivity].
  rewrite <- (IH (S i)). destruct (mapFromM f (S i) l); reflexivity.
Qed.

Lemma mapM_Forall2 {A B} (f : A -> result B) (l : list A) (ys : list B) :
  mapM f l = Ok ys <-> Forall2 (fun x y => f x = Ok y) l ys.
Proof.
  revert ys. induction l as [|x l IH]; intros ys; simpl.
  - split; [intros H; injection H as <-; constructor|].
    intros H. inversion H. reflexivity.
  - split.
    + destruct (f x) as [y|e] eqn:Hx; simpl; [|discriminate].
      destruct (mapM f l) as [zs|e] eqn:Hl; simpl; [|discriminate].
      intros H. injection H as <-. constructor; [assumption|]. now apply IH.
    + intros H. inversion H as [|? y ? zs Hx Hl]; subst. rewrite Hx. simpl.
      apply IH in Hl. rewrite Hl. reflexivity.
Qed.

Lemma existsb_ext {A} (p q : A -> bool) (l : list A) :
  (forall x, p x = q x) -> existsb p l = existsb q l.
Proof.
  intros H. induction l as [|x l IH]; simpl; [reflexivity|].
  now rewrite H, IH.
Qed.

Lemma existsb_Permutation {A} (p : A -> bool) (l l' : list A) :
  Permutation l l' -> existsb p l = existsb p l'.
Proof.
  induction 1 as [| x l l' _ IH | x y l | l l' l'' _ IH1 _ IH2]; simpl.
  - reflexivity.
  - now rewrite IH.
  - destruct (p x), (p y); reflexivity.
  - congruence.
Qed.

Section ThrowLemmas.

Variable print : ASTNode -> string.
Variable astFromValue : JSValue -> TypeRef -> result (option ValueNode).
Variable JSON_stringify : string -> string.
Variable localeCompare : string -> string -> Z.
Variable csdlDefinitions : list string.

Local Abbreviation printOne := (printType print astFromValue).
Local Abbreviation printAll := (printTypes print astFromValue).
Local Abbreviation printFiltered :=
  (printFilteredSchema print astFromValue JSON_stringify localeCompare csdlDefinitions).

Lemma throws_printInputValue arg :
  throws (printInputValue print astFromValue arg) = argumentThrows astFromValue arg.
Proof.
  unfold printInputValue, argumentThrows.
  destruct (astFromValue _ _); reflexivity.
Qed.

Lemma throws_printArgs options args indentation :
  throws (printArgs print astFromValue options args indentation)
  = existsb (argumentThrows astFromValue) args.
Proof.
  unfold printArgs. destruct args as [|arg args]; [reflexivity|].
  destruct (forallb _ _).
  - rewrite throws_bind, throws_mapM.
    rewrite (existsb_ext _ (argumentThrows astFromValue))
      by (intros x; apply throws_printInputValue).
    destruct (mapM _ _); simpl; apply orb_false_r.
  - rewrite throws_bind.
    rewrite (throws_mapFromM _ (argumentThrows astFromValue)).
    + destruct (mapFromM _ _ _); simpl; apply orb_false_r.
    + intros j x. rewrite throws_bind, throws_printInputValue.
      destruct (printInputValue _ _ _); simpl; apply orb_false_r.
Qed.

Lemma throws_printDirective directive options :
  throws (printDirective print astFromValue directive options)
  = directiveThrows astFromValue directive.
Proof.
  unfold printDirective, directiveThrows.
  rewrite throws_bind, throws_printArgs.
  destruct (printArgs _ _ _ _ _); simpl; apply orb_false_r.
Qed.

Lemma throws_printDeprecated isDeprecated reason :
  throws (printDeprecated print astFromValue isDeprecated reason)
  = deprecationThrows astFromValue isDeprecated reason.
Proof.
  unfold printDeprecated, deprecationThrows.
  destruct isDeprecated; [|reflexivity]. simpl.
  destruct (astFromValue _ _); reflexivity.
Qed.

Lemma throws_printFederationFieldDirectives type field :
  throws (fst (printFederationFieldDirectives print type field))
  = lacksOwner type field.
Proof.
  unfold printFederationFieldDirectives, lacksOwner.
  destruct (f_federation field) as [m|];
    [|destruct (ct_federation type); reflexivity].
  destruct (ff_requires m) as [[|r rs]|]; destruct (ff_provides m) as [[|p ps]|];
    simpl;
    repeat match goal with
      | |- context [findOrCreateFragment print ?t ?s] =>
          destruct (findOrCreateFragment print t s); simpl
      end; reflexivity.
Qed.

Lemma throws_printFieldLine options i type f :
  throws (fst (printFieldLine print astFromValue options i type f))
  = fieldThrows astFromValue type f.
Proof.
  unfold printFieldLine, fieldThrows.
  rewrite <- throws_printArgs with (options := options) (indentation := "  ").
  rewrite <- throws_printDeprecated, <- throws_printFederationFieldDirectives.
  destruct (printArgs _ _ _ _ _) as [args|e]; [|reflexivity].
  destruct (printDeprecated _ _ _ _) as [deprecated|e]; [|reflexivity].
  destruct (printFederationFieldDirectives print type f) as [[text|e] type1];
    reflexivity.
Qed.

(** Whether a field can be printed does not depend on the fragments
    stored on the type. *)
Lemma fieldThrows_frame (type type' : GraphQLCompositeType) (f : GraphQLField) :
  withoutFragments type' = withoutFragments type ->
  fieldThrows astFromValue type' f = fieldThrows astFromValue type f.
Proof.
  intros H. apply (f_equal ct_federation) in H. simpl in H.
  unfold fieldThrows, lacksOwner. rewrite H. reflexivity.
Qed.

Lemma throws_printFieldLines options i fields type :
  throws (fst (printFieldLines print astFromValue options i fields type))
  = existsb (fieldThrows astFromValue type) fields.
Proof.
  revert i type. induction fields as [|f fields IH]; intros i type; simpl;
    [reflexivity|].
  rewrite <- (throws_printFieldLine options i type f).
  pose proof (printFieldLine_frame print astFromValue options i type f) as Hframe.
  destruct (printFieldLine print astFromValue options i type f) as [[line|e] type1];
    [|reflexivity].
  simpl in Hframe. simpl.
  rewrite (existsb_ext _ (fieldThrows astFromValue type1))
    by (intros x; symmetry; now apply fieldThrows_frame).
  rewrite <- (IH (S i) type1).
  destruct (printFieldLines _ _ _ _ _ _) as [[lines|e] type2]; reflexivity.
Qed.

Lemma throws_printFields options type :
  throws (fst (printFields print astFromValue options type))
  = existsb (fieldThrows astFromValue type) (ct_fields type).
Proof.
  unfold printFields. rewrite <- (throws_printFieldLines options 0).
  destruct (printFieldLines _ _ _ _ _ _) as [[lines|e] type1]; reflexivity.
Qed.

Lemma throws_printType type options n :
  throws (fst (fst (printOne type options n))) = typeThrows astFromValue type.
Proof.
  destruct type as [t|t|t|t|t|t]; simpl; try reflexivity.
  - unfold printObject. rewrite <- (throws_printFields options t).
    destruct (printFields _ _ _ _) as [[fields|e] t1]; [|reflexivity].
    destruct (printKeys _ _ _). reflexivity.
  - unfold printInterface. rewrite <- (throws_printFields options t).
    destruct (printFields _ _ _ _) as [[fields|e] t1]; reflexivity.
  - unfold printEnum. rewrite throws_bind.
    rewrite (throws_mapFromM _
               (fun value => deprecationThrows astFromValue (ev_isDeprecated value)
                               (ev_deprecationReason value))).
    + destruct (mapFromM _ _ _); simpl; apply orb_false_r.
    + intros j x. rewrite throws_bind, throws_printDeprecated.
      destruct (printDeprecated _ _ _ _); simpl; apply orb_false_r.
  - unfold printInputObject. rewrite throws_bind.
    rewrite (throws_mapFromM _ (argumentThrows astFromValue)).
    + destruct (mapFromM _ _ _); simpl; apply orb_false_r.
    + intros j x. rewrite throws_bind, throws_printInputValue.
      destruct (printInputValue _ _ _); simpl; apply orb_false_r.
Qed.

Lemma typeThrows_frame (type type' : GraphQLNamedType) :
  typeWithoutFragments type' = typeWithoutFragments type ->
  typeThrows astFromValue type' = typeThrows astFromValue type.
Proof.
  destruct type as [t|t|t|t|t|t], type' as [t'|t'|t'|t'|t'|t'];
    cbn [typeWithoutFragments]; intros H; try discriminate H;
    try (injection H as ->; reflexivity);
    assert (Hc : withoutFragments t' = withoutFragments t) by congruence;
    simpl;
    rewrite (existsb_ext _ (fieldThrows astFromValue t))
      by (intros x; now apply fieldThrows_frame);
    apply (f_equal ct_fields) in Hc; simpl in Hc; rewrite Hc; reflexivity.
Qed.

Lemma someTypeThrows_frame refs (typeMap typeMap' : list (string * GraphQLNamedType)) :
  mapWithoutFragments typeMap' = mapWithoutFragments typeMap ->
  someTypeThrows astFromValue refs typeMap' = someTypeThrows astFromValue refs typeMap.
Proof.
  intros H. unfold someTypeThrows. apply existsb_ext. intros ref.
  apply (f_equal (fun m => m !! ref)) in H. unfold mapWithoutFragments in H.
  rewrite !list_lookup_fmap in H.
  destruct (typeMap' !! ref) as [[k' t']|], (typeMap !! ref) as [[k t]|];
    simpl in H; try discriminate H; [|reflexivity].
  injection H as _ H. now apply typeThrows_frame.
Qed.

Lemma throws_printTypes refs options typeMap n :
  throws (fst (fst (printAll refs options typeMap n))) = someTypeThrows astFromValue refs typeMap.
Proof.
  revert typeMap n. induction refs as [|ref refs IH]; intros typeMap n;
    [reflexivity|].
  change (someTypeThrows astFromValue (ref :: refs) typeMap)
    with (match typeMap !! ref with
          | Some entry => typeThrows astFromValue (snd entry)
          | None => true
          end || someTypeThrows astFromValue refs typeMap).
  simpl. destruct (typeMap !! ref) as [[key type]|] eqn:Href; [|reflexivity].
  simpl. rewrite <- (throws_printType type options n).
  pose proof (printType_frame print astFromValue type options n) as Hframe.
  destruct (printType _ _ _ _ _) as [[[text|e] type1] n1]; [|reflexivity].
  simpl in Hframe. simpl.
  rewrite <- (someTypeThrows_frame refs typeMap (<[ref := (key, type1)]> typeMap)).
  - rewrite <- (IH (<[ref := (key, type1)]> typeMap) n1).
    destruct (printTypes _ _ _ _ _ _) as [[[texts|e] typeMap2] n2]; reflexivity.
  - unfold mapWithoutFragments.
    rewrite (list_fmap_insert _ typeMap ref (key, type1)). simpl. rewrite Hframe.
    apply list_insert_id. rewrite list_lookup_fmap, Href. reflexivity.
Qed.

Lemma someTypeThrows_sorted typeFilter (typeMap : list (string * GraphQLNamedType)) :
  someTypeThrows astFromValue (map fst (sortedTypeRefs localeCompare typeFilter typeMap)) typeMap
  = existsb (typeThrows astFromValue) (List.filter typeFilter (map snd typeMap)).
Proof.
  rewrite <- (existsb_Permutation _ _ _
                (sortedTypeRefs_Permutation localeCompare typeFilter typeMap)).
  unfold someTypeThrows.
  assert (H : forall pairs : list (nat * GraphQLNamedType),
             (forall i type, In (i, type) pairs ->
                             exists key, typeMap !! i = Some (key, type)) ->
             existsb (fun ref => match typeMap !! ref with
                                 | Some entry => typeThrows astFromValue (snd entry)
                                 | None => true
                                 end) (map fst pairs)
             = existsb (typeThrows astFromValue) (map snd pairs)).
  { induction pairs as [|[i type] pairs IH]; intros Hsrc; simpl; [reflexivity|].
    destruct (Hsrc i type) as (key & ->); [now left|]. simpl.
    rewrite IH; [reflexivity|]. intros j t Hj. apply Hsrc. now right. }
  apply H. intros i type Hin. now apply sortedTypeRefs_In in Hin.
Qed.

(** The filtered printer throws exactly when a directive that passes the
    directive filter or a type that passes the type filter cannot be
    printed. *)
Lemma throws_printFilteredSchema schema serviceList directiveFilter typeFilter
    options n :
  throws (fst (fst (printFiltered schema serviceList directiveFilter typeFilter
                      options n)))
  = existsb (directiveThrows astFromValue)
      (List.filter directiveFilter (s_directives schema))
    || existsb (typeThrows astFromValue)
         (List.filter typeFilter (map snd (s_typeMap schema))).
Proof.
  unfold printFilteredSchema.
  rewrite <- (existsb_ext (fun d => throws (printDirective print astFromValue d options)))
    by (intros d; apply throws_printDirective).
  rewrite <- throws_mapM.
  destruct (mapM _ _) as [directiveTexts|e]; [|reflexivity]. simpl.
  rewrite <- someTypeThrows_sorted, <- (throws_printTypes _ options _ n).
  destruct (printTypes _ _ _ _ _ _) as [[[texts|e] typeMap1] n1]; reflexivity.
Qed.

End ThrowLemmas.

Section SerializerRun.

Variable print : ASTNode -> string.
Variable astFromValue : JSValue -> TypeRef -> result (option ValueNode).
Variable JSON_stringify : string -> string.
Variable localeCompare : string -> string -> Z.
Variable isSpecifiedDirective : GraphQLDirective -> bool.
Variable isSpecifiedScalarType : GraphQLNamedType -> bool.
Variable isIntrospectionType : GraphQLNamedType -> bool.
Variable isFederationType : GraphQLNamedType -> bool.
Variable isFederationDirective : GraphQLDirective -> bool.
Variable csdlDefinitions : list string.

Local Abbreviation fieldDirectives := (printFederationFieldDirectives print).
Local Abbreviation printOne := (printType print astFromValue).
Local Abbreviation printAll := (printTypes print astFromValue).
Local Abbreviation defined :=
  (isDefinedType isSpecifiedScalarType isIntrospectionType isFederationType).
Local Abbreviation serialize :=
  (printComposedSdl print astFromValue JSON_stringify localeCompare
     isSpecifiedDirective isSpecifiedScalarType isIntrospectionType
     isFederationType isFederationDirective csdlDefinitions).

(** *** Extension types *)

Lemma printObject_returns type options n :
  existsb (fieldThrows astFromValue type) (ct_fields type) = false ->
  exists fields type1 keys n1,
    printFields print astFromValue options type = (Ok fields, type1) /\
    printKeys print type1 n = (keys, n1) /\
    printObject print astFromValue type options n
    = (Ok (printDescription options (ct_description type) EmptyString true
           ++ (if isExtension type then "extend " else EmptyString)
           ++ "type " ++ ct_name type
           ++ (match ct_interfaces type with
               | [] => EmptyString
               | _ => " implements " ++ JS.join " & " (ct_interfaces type)
               end)
           ++ fields ++ keys ++ printFragmentsForType type1),
       type1, n1).
Proof.
  intros Hok. rewrite <- (throws_printFields print astFromValue options type) in Hok.
  unfold printObject.
  destruct (printFields _ _ _ _) as [[fields|e] type1]; [|discriminate].
  destruct (printKeys print type1 n) as [keys n1] eqn:Hkeys.
  exists fields, type1, keys, n1. split; [reflexivity|]. split; [exact Hkeys|].
  reflexivity.
Qed.

Lemma printInterface_returns type options :
  existsb (fieldThrows astFromValue type) (ct_fields type) = false ->
  exists fields type1,
    printFields print astFromValue options type = (Ok fields, type1) /\
    printInterface print astFromValue type options
    = (Ok (printDescription options (ct_description type) EmptyString true
           ++ (if isExtension type then "extend " else EmptyString)
           ++ "interface " ++ ct_name type
           ++ fields ++ printFragmentsForType type1),
       type1).
Proof.
  intros Hok. rewrite <- (throws_printFields print astFromValue options type) in Hok.
  unfold printInterface.
  destruct (printFields _ _ _ _) as [[fields|e] type1]; [|discriminate].
  exists fields, type1. split; reflexivity.
Qed.

(** C8 (amended). An Object or Interface type whose fields can be
    printed is printed, and after the description its text goes on with
    [extend] if and only if [extensionASTNodes] is set, the base AST node
    is set and that node has no [fields] property; otherwise it goes on
    with [type] or [interface] and the name, without [extend].  On a type
    where neither array is empty this is the claim: the type has extension
    nodes and its base node declares no fields. *)
Theorem extend_printed_iff_extension type options nextKeyId :
  existsb (fieldThrows astFromValue type) (ct_fields type) = false ->
  (exists text type1 n1,
      printObject print astFromValue type options nextKeyId = (Ok text, type1, n1) /\
      printsExtendIffExtension "type " options type text) /\
  (exists text type1,
      printInterface print astFromValue type options = (Ok text, type1) /\
      printsExtendIffExtension "interface " options type text) /\
  (hasNoEmptyArray type ->
   (isExtensionOnly type <-> hasExtensionNodes type /\ baseDeclaresNoFields type)).
Proof.
  intros Hok. split; [|split].
  - destruct (printObject_returns type options nextKeyId Hok)
      as (fields & type1 & keys & n1 & _ & _ & ->).
    eexists _, _, _. split; [reflexivity|].
    apply (printsExtend_after_description "type "). reflexivity.
  - destruct (printInterface_returns type options Hok) as (fields & type1 & _ & ->).
    eexists _, _. split; [reflexivity|].
    apply (printsExtend_after_description "interface "). reflexivity.
  - apply isExtensionOnly_without_empty_array.
Qed.

(** *** A field without metadata on a type without metadata *)

Lemma lacksMetadata_typeThrows type :
  lacksMetadata type -> typeThrows astFromValue type = true.
Proof.
  intros (t & f & Hkind & Ht & Hin & Hf).
  assert (H : existsb (fieldThrows astFromValue t) (ct_fields t) = true).
  { apply existsb_exists. exists f. split; [assumption|].
    unfold fieldThrows, lacksOwner. rewrite Hf, Ht. apply orb_true_r. }
  destruct Hkind as [-> | ->]; exact H.
Qed.



(** *** The text of a run *)

Lemma printTypes_texts (pairs : list (nat * GraphQLNamedType)) options
    (typeMap0 typeMap : list (string * GraphQLNamedType)) n texts typeMap1 n1 :
  List.NoDup (map fst pairs) ->
  (forall i type, In (i, type) pairs ->
                  exists key, typeMap0 !! i = Some (key, type)) ->
  (forall i, In i (map fst pairs) -> typeMap !! i = typeMap0 !! i) ->
  printAll (map fst pairs) options typeMap n = (Ok texts, typeMap1, n1) ->
  Forall2
    (fun type text =>
       exists k type' k', printOne type options k = (Ok text, type', k'))
    (map snd pairs) texts.
Proof.
  revert typeMap n texts.
  induction pairs as [|[i type] pairs IH]; intros typeMap n texts Hnd Hsrc Hsame Hrun;
    simpl in *.
  - injection Hrun as <- _ _. constructor.
  - inversion Hnd as [|? ? Hi Hnd']; subst.
    destruct (Hsrc i type) as (key & Hl); [now left|].
    rewrite (Hsame i), Hl in Hrun by now left.
    destruct (printType _ _ _ _ _) as [[[text|e] type1] k1] eqn:Hone;
      [|discriminate].
    destruct (printTypes _ _ _ _ _ _) as [[[rest|e] typeMap2] k2] eqn:Hrest;
      [|discriminate].
    injection Hrun as <- <- <-. constructor; [eauto|].
    eapply IH; [assumption | | | exact Hrest].
    + intros j t Hj. apply Hsrc. now right.
    + intros j Hj. rewrite list_lookup_insert_ne.
      * apply Hsame. now right.
      * intros ->. contradiction.
Qed.

(** C6 (amended). The text of a run is the document made, in this
    order, of the schema-definition block, the fixed [csdlDefinitions],
    the [cs__Graph] enum, the definitions of the directives that are
    neither specified by the language nor federation directives, in the
    order of [schema.getDirectives ()], not sorted, and the texts of the
    types that pass [isDefinedType], sorted by name with [localeCompare];
    empty parts are dropped. *)
Theorem printComposedSdl_layout schema serviceList options nextKeyId text schema1 n1 :
  (forall a b, (0 < localeCompare a b)%Z -> (localeCompare b a <= 0)%Z) ->
  (forall a b c, (localeCompare a b <= 0)%Z -> (localeCompare b c <= 0)%Z ->
                 (localeCompare a c <= 0)%Z) ->
  serialize schema serviceList options nextKeyId = (Ok text, schema1, n1) ->
  exists directiveTexts types typeTexts,
    text =
      documentOf
        ([printSchemaDefinition schema]
         ++ csdlDefinitions
         ++ [printGraphs JSON_stringify serviceList]
         ++ directiveTexts
         ++ typeTexts)%list /\
    Forall2
      (fun directive directiveText =>
         printDirective print astFromValue directive options = Ok directiveText)
      (List.filter
         (fun d => negb (isSpecifiedDirective d) && negb (isFederationDirective d))
         (s_directives schema))
      directiveTexts /\
    Permutation types (List.filter defined (map snd (s_typeMap schema))) /\
    StronglySorted (fun a b => (localeCompare (typeName a) (typeName b) <= 0)%Z) types /\
    Forall2
      (fun type typeText =>
         exists k type' k', printOne type options k = (Ok typeText, type', k'))
      types typeTexts.
Proof.
  intros Htotal Htrans. unfold printComposedSdl, printFilteredSchema.
  set (pairs := sortedTypeRefs localeCompare defined (s_typeMap schema)).
  destruct (mapM _ _) as [directiveTexts|e] eqn:Hdirectives; [|discriminate].
  destruct (printTypes _ _ _ _ _ _) as [[[texts|e] typeMap1] k1] eqn:Hrun;
    [|discriminate].
  intros H. injection H as <- _ _.
  exists directiveTexts, (map snd pairs), texts.
  split; [reflexivity|]. split; [|split; [|split]].
  - now apply mapM_Forall2.
  - apply sortedTypeRefs_Permutation.
  - now apply sortedTypeRefs_sorted.
  - eapply (printTypes_texts pairs options (s_typeMap schema)); [| | |exact Hrun].
    + apply sortedTypeRefs_NoDup.
    + intros i type Hin. now apply sortedTypeRefs_In in Hin.
    + reflexivity.
Qed.

(** *** Types that carry no state *)

Lemma printFederationFieldDirectives_idle type field :
  needsNoFragment field = true -> snd (fieldDirectives type field) = type.
Proof.
  unfold needsNoFragment, printFederationFieldDirectives.
  destruct (f_federation field) as [m|];
    [|destruct (ct_federation type); reflexivity].
  destruct (ff_requires m) as [[|r rs]|]; destruct (ff_provides m) as [[|p ps]|];
    simpl; intros H; try discriminate; reflexivity.
Qed.

Lemma printFieldLine_idle options i type f :
  needsNoFragment f = true ->
  snd (printFieldLine print astFromValue options i type f) = type.
Proof.
  intros Hf. unfold printFieldLine.
  destruct (printArgs _ _ _ _ _) as [args|e]; [|reflexivity].
  destruct (printDeprecated _ _ _ _) as [deprecated|e]; [|reflexivity].
  pose proof (printFederationFieldDirectives_idle type f Hf) as Hidle.
  destruct (printFederationFieldDirectives print type f) as [[text|e] type1];
    exact Hidle.
Qed.

Lemma printFieldLines_idle options i fields type :
  forallb needsNoFragment fields = true ->
  snd (printFieldLines print astFromValue options i fields type) = type.
Proof.
  revert i. induction fields as [|f fields IH]; intros i H; simpl; [reflexivity|].
  simpl in H. apply andb_true_iff in H as [Hf Hrest].
  pose proof (printFieldLine_idle options i type f Hf) as Hidle.
  destruct (printFieldLine print astFromValue options i type f) as [[text|e] type1];
    simpl in Hidle; subst type1; [|reflexivity].
  specialize (IH (S i) Hrest).
  destruct (printFieldLines _ _ _ _ _ _) as [[lines|e] type2]; simpl in *;
    assumption.
Qed.

Lemma printKeyEntries_idle typeName entries n :
  forallb (fun entry => match snd entry with
                        | None | Some [] => true
                        | _ => false
                        end) entries = true ->
  printKeyEntries print typeName entries n = (map (fun _ => EmptyString) entries, n).
Proof.
  induction entries as [|[service keys] entries IH]; simpl; intros H;
    [reflexivity|].
  apply andb_true_iff in H as [Hk Hrest].
  destruct keys as [[|k keys]|]; simpl in *; try discriminate;
    rewrite (IH Hrest); reflexivity.
Qed.

Lemma printKeys_idle type n :
  printsNoKey type = true ->
  printKeys print type n = (fst (printKeys print type 0), n).
Proof.
  unfold printsNoKey, printKeys.
  destruct (ct_federation type) as [m|]; [|reflexivity].
  destruct (ft_serviceName m) as [| |owner]; try reflexivity.
  destruct (ft_keys m) as [keys|]; [|reflexivity].
  destruct (JS.truthy owner); simpl; [|reflexivity].
  intros H. rewrite !(printKeyEntries_idle _ _ _ H). reflexivity.
Qed.

Lemma printType_idle type options n :
  carriesNoState type = true ->
  printOne type options n = (fst (fst (printOne type options 0)), type, n).
Proof.
  destruct type as [t|t|t|t|t|t]; simpl; intros H; try reflexivity.
  - apply andb_true_iff in H as [Hf Hk]. unfold printObject, printFields.
    pose proof (printFieldLines_idle options 0 (ct_fields t) t Hf) as Hidle.
    destruct (printFieldLines _ _ _ _ _ _) as [[lines|e] t1]; simpl in Hidle;
      subst t1; [|reflexivity].
    rewrite (printKeys_idle t n Hk). destruct (printKeys print t 0). reflexivity.
  - unfold printInterface, printFields.
    pose proof (printFieldLines_idle options 0 (ct_fields t) t H) as Hidle.
    destruct (printFieldLines _ _ _ _ _ _) as [[lines|e] t1]; simpl in Hidle;
      subst t1; reflexivity.
Qed.

Lemma printTypes_idle refs options typeMap n :
  (forall i key type, In i refs -> typeMap !! i = Some (key, type) ->
                      carriesNoState type = true) ->
  printAll refs options typeMap n
  = (fst (fst (printAll refs options typeMap 0)), typeMap, n).
Proof.
  revert n. induction refs as [|ref refs IH]; intros n H; simpl; [reflexivity|].
  destruct (typeMap !! ref) as [[key type]|] eqn:Href; [|reflexivity].
  assert (Hidle : carriesNoState type = true)
    by (apply (H ref key type); [now left | exact Href]).
  rewrite (printType_idle type options n Hidle).
  rewrite (printType_idle type options 0 Hidle).
  rewrite (list_insert_id _ _ _ Href).
  destruct (fst (fst (printOne type options 0))) as [text|e]; [|reflexivity].
  assert (Hrest : forall i key type, In i refs -> typeMap !! i = Some (key, type) ->
                                     carriesNoState type = true).
  { intros i key' type' Hin Hl. apply (H i key' type'); [now right | exact Hl]. }
  rewrite (IH n Hrest), (IH 0 Hrest).
  destruct (fst (fst (printAll refs options typeMap 0))); reflexivity.
Qed.

Lemma printComposedSdl_idle schema serviceList options :
  (forall key type, In (key, type) (s_typeMap schema) -> defined type = true ->
                    carriesNoState type = true) ->
  forall n,
    serialize schema serviceList options n
    = (fst (fst (serialize schema serviceList options 0)), schema, n).
Proof.
  intros Hidle n. unfold printComposedSdl, printFilteredSchema.
  destruct (mapM _ _) as [directiveTexts|e]; [|reflexivity].
  match goal with
  | |- context [printTypes print astFromValue ?refs options ?tm n] =>
      assert (Hrefs : forall i key type, In i refs -> tm !! i = Some (key, type) ->
                                         carriesNoState type = true)
  end.
  { intros i key type Hin Hl.
    apply List.in_map_iff in Hin as ([j t] & Hj & Hin). simpl in Hj. subst j.
    apply sortedTypeRefs_In in Hin as [(key' & Hl') Hd].
    rewrite Hl in Hl'. injection Hl' as <- <-.
    apply (Hidle key type); [|assumption].
    apply list_elem_of_In, list_elem_of_lookup. eauto. }
  rewrite (printTypes_idle _ options _ n Hrefs).
  rewrite (printTypes_idle _ options _ 0 Hrefs).
  destruct (fst (fst (printTypes _ _ _ _ _ _))); simpl;
    destruct schema; reflexivity.
Qed.

(** *** Types that advance the key counter *)

Lemma printKeyEntries_advances typeName entries n :
  forallb (fun entry => match snd entry with
                        | None | Some [] => true
                        | _ => false
                        end) entries = false ->
  n < snd (printKeyEntries print typeName entries n).
Proof.
  revert n. induction entries as [|[service keys] entries IH]; intros n; simpl;
    [discriminate|].
  destruct keys as [[|k keys]|]; simpl; intros H.
  - specialize (IH n H). destruct (printKeyEntries _ _ _ _). exact IH.
  - pose proof (printKeySelections_counter print typeName service keys (S n)) as Hk.
    destruct (printKeySelections _ _ _ _ _) as [lines n1]. simpl in Hk.
    pose proof (printKeyEntries_counter print typeName entries n1) as Hrest.
    destruct (printKeyEntries _ _ _ _). simpl in *. lia.
  - specialize (IH n H). destruct (printKeyEntries _ _ _ _). exact IH.
Qed.

Lemma printKeys_advances type n :
  printsNoKey type = false -> n < snd (printKeys print type n).
Proof.
  unfold printsNoKey, printKeys.
  destruct (ct_federation type) as [m|]; [|discriminate].
  destruct (ft_serviceName m) as [| |owner]; try discriminate.
  destruct (ft_keys m) as [keys|]; [|discriminate].
  destruct (JS.truthy owner); simpl; [|discriminate].
  intros H. pose proof (printKeyEntries_advances (ct_name type) keys n H) as Hk.
  destruct (printKeyEntries _ _ _ _). exact Hk.
Qed.

Lemma printObject_advances type options n text type1 n1 :
  printsNoKey type = false ->
  printObject print astFromValue type options n = (Ok text, type1, n1) -> n < n1.
Proof.
  intros Hkey. unfold printObject.
  pose proof (printFields_frame print astFromValue options type) as Hframe.
  destruct (printFields _ _ _ _) as [[fields|e] t1]; [|discriminate].
  simpl in Hframe.
  assert (Hkey1 : printsNoKey t1 = false).
  { unfold printsNoKey in *. apply (f_equal ct_federation) in Hframe.
    simpl in Hframe. rewrite Hframe. exact Hkey. }
  pose proof (printKeys_advances t1 n Hkey1) as Hadv.
  destruct (printKeys _ _ _) as [keys k1]. intros H. injection H as _ _ <-.
  exact Hadv.
Qed.

Lemma printTypes_advances refs options (typeMap : list (string * GraphQLNamedType))
    n i key type texts typeMap1 n1 :
  In i refs -> typeMap !! i = Some (key, ObjectType type) ->
  printsNoKey type = false ->
  printAll refs options typeMap n = (Ok texts, typeMap1, n1) -> n < n1.
Proof.
  revert typeMap n texts. induction refs as [|ref refs IH];
    intros typeMap n texts Hin Hl Hkey; [contradiction|]. simpl.
  destruct (typeMap !! ref) as [[key' type']|] eqn:Href; [|discriminate].
  destruct (printType _ _ _ _ _) as [[[text|e] type1] k1] eqn:Hone; [|discriminate].
  pose proof (printTypes_counter print astFromValue refs options
                (<[ref := (key', type1)]> typeMap) k1) as Hmono.
  pose proof (printType_counter print astFromValue type' options n) as Hhead.
  rewrite Hone in Hhead. simpl in Hhead.
  destruct (printTypes _ _ _ _ _ _) as [[[rest|e] typeMap2] k2] eqn:Hrest;
    [|discriminate].
  simpl in Hmono. intros H. injection H as _ <- <-.
  destruct (Nat.eq_dec ref i) as [->|Hne].
  - rewrite Hl in Href. injection Href as <- <-. simpl in Hone.
    destruct (printObject _ _ _ _ _) as [[r t1] k] eqn:Hobj.
    injection Hone as -> _ ->.
    pose proof (printObject_advances type options n text t1 k1 Hkey Hobj). lia.
  - destruct Hin as [->|Hin]; [contradiction|].
    assert (k1 < k2); [|lia].
    eapply (IH (<[ref := (key', type1)]> typeMap) k1 rest Hin); [|exact Hkey|exact Hrest].
    rewrite list_lookup_insert_ne by assumption. exact Hl.
Qed.

Lemma printComposedSdl_advances schema serviceList options n i key type text schema1 n1 :
  s_typeMap schema !! i = Some (key, ObjectType type) ->
  defined (ObjectType type) = true ->
  printsNoKey type = false ->
  serialize schema serviceList options n = (Ok text, schema1, n1) -> n < n1.
Proof.
  intros Hl Hd Hkey. unfold printComposedSdl, printFilteredSchema.
  destruct (mapM _ _) as [directiveTexts|e]; [|discriminate].
  destruct (printTypes _ _ _ _ _ _) as [[[texts|e] typeMap1] k1] eqn:Hrun;
    [|discriminate].
  intros H. injection H as _ _ <-.
  eapply (printTypes_advances _ options (s_typeMap schema) n i key type);
    [|exact Hl|exact Hkey|exact Hrun].
  apply List.in_map_iff. exists (i, ObjectType type). split; [reflexivity|].
  apply sortedTypeRefs_In. eauto.
Qed.

(** C2 (amended). When no type that the call prints needs a key
    fragment or a [requires] / [provides] fragment, a call returns the
    same text whatever the value of the key counter, and leaves the
    counter and the schema as they were, so that two calls in a row
    return identical results.  The serializer state is not reset between
    calls: a call that returns after printing an Object type with a key
    fragment leaves the module-level key counter above the value it
    started from, and the next call starts from there. *)
Theorem printComposedSdl_repeatable_without_synthesis schema serviceList options :
  ((forall key type, In (key, type) (s_typeMap schema) -> defined type = true ->
                     carriesNoState type = true) ->
   (forall n,
       serialize schema serviceList options n
       = (fst (fst (serialize schema serviceList options 0)), schema, n)) /\
   (forall n,
       let first := serialize schema serviceList options n in
       let second := serialize (snd (fst first)) serviceList options (snd first) in
       fst (fst second) = fst (fst first))) /\
  (forall n i key type text schema1 n1,
      s_typeMap schema !! i = Some (key, ObjectType type) ->
      defined (ObjectType type) = true ->
      printsNoKey type = false ->
      serialize schema serviceList options n = (Ok text, schema1, n1) ->
      n < n1).
Proof.
  split.
  - intros Hidle.
    pose proof (printComposedSdl_idle schema serviceList options Hidle) as Hcall.
    split; [exact Hcall|].
    intros n first second. subst first second.
    rewrite (Hcall n). simpl. rewrite (Hcall n). reflexivity.
  - intros n i key type text schema1 n1.
    apply printComposedSdl_advances.
Qed.

End SerializerRun.

(** *** The serializer on the documents *)

Lemma localeCompare_total (a b : string) :
  (0 < Sample.localeCompare a b)%Z -> (Sample.localeCompare b a <= 0)%Z.
Proof.
  unfold Sample.localeCompare.
  rewrite (String.compare_antisym b a).
  destruct (String.compare a b); simpl; lia.
Qed.

Lemma localeCompare_trans (a b c : string) :
  (Sample.localeCompare a b <= 0)%Z -> (Sample.localeCompare b c <= 0)%Z ->
  (Sample.localeCompare a c <= 0)%Z.
Proof.
  assert (Hrefl : forall s, String.compare s s = Eq)
    by (intros s; apply OrderedTypeEx.String_as_OT.cmp_eq; reflexivity).
  unfold Sample.localeCompare.
  destruct (String.compare a b) eqn:Hab; [| |simpl; lia];
    destruct (String.compare b c) eqn:Hbc; try (simpl; lia); intros _ _.
  - apply OrderedTypeEx.String_as_OT.cmp_eq in Hab, Hbc.
    rewrite Hab, Hbc, Hrefl. lia.
  - apply OrderedTypeEx.String_as_OT.cmp_eq in Hab. rewrite Hab, Hbc. lia.
  - apply OrderedTypeEx.String_as_OT.cmp_eq in Hbc. rewrite <- Hbc, Hab. lia.
  - apply OrderedTypeEx.String_as_OT.cmp_lt in Hab, Hbc.
    pose proof (proj2 (OrderedTypeEx.String_as_OT.cmp_lt a c)
                  (OrderedTypeEx.String_as_OT.lt_trans a b c Hab Hbc)) as Hac.
    unfold OrderedTypeEx.String_as_OT.cmp in Hac. rewrite Hac. lia.
Qed.

Lemma extend_printed_iff_extension_witness :
  existsb (fieldThrows Sample.astFromValue Document.extensionOnly)
    (ct_fields Document.extensionOnly) = false /\
  (exists text type1 n1,
      printObject Sample.print Sample.astFromValue Document.extensionOnly None 0
      = (Ok text, type1, n1) /\
      printsExtendIffExtension "type " None Document.extensionOnly text) /\
  (exists text type1,
      printInterface Sample.print Sample.astFromValue Document.extensionOnly None
      = (Ok text, type1) /\
      printsExtendIffExtension "interface " None Document.extensionOnly text) /\
  fst (fst (printObject Sample.print Sample.astFromValue Document.extensionOnly None 0))
  = Ok ("extend type Shipment {" ++ JS.nl
        ++ "  eta: String @cs__resolve(graph: B)" ++ JS.nl ++ "}") /\
  fst (printInterface Sample.print Sample.astFromValue Document.extensionOnlyInterface
         None)
  = Ok ("extend interface Tracked {" ++ JS.nl
        ++ "  eta: String @cs__resolve(graph: B)" ++ JS.nl ++ "}").
Proof.
  pose proof (extend_printed_iff_extension Sample.print Sample.astFromValue
                Document.extensionOnly None 0 eq_refl) as (Hobject & Hinterface & _).
  split; [reflexivity|]. split; [exact Hobject|]. split; [exact Hinterface|].
  split; vm_compute; reflexivity.
Defined.

(** C8 as stated fails: [Parcel] has an extension node and a base node
    that declares no fields (its list of fields is empty, as the parser
    gives it for a declaration without a field block), yet neither
    printer prints [extend]: the code tests the presence of the [fields]
    property, not its contents. *)
Lemma extend_not_printed_for_empty_field_list :
  hasExtensionNodes Document.declaredEmpty /\
  baseDeclaresNoFields Document.declaredEmpty /\
  fst (fst (printObject Sample.print Sample.astFromValue Document.declaredEmpty None 0))
  = Ok ("type Parcel {" ++ JS.nl
        ++ "  eta: String @cs__resolve(graph: B)" ++ JS.nl ++ "}") /\
  fst (printInterface Sample.print Sample.astFromValue Document.declaredEmpty None)
  = Ok ("interface Parcel {" ++ JS.nl
        ++ "  eta: String @cs__resolve(graph: B)" ++ JS.nl ++ "}").
Proof.
  split; [|split; [|split]].
  - eexists _, _. reflexivity.
  - eexists. split; [reflexivity|]. right. reflexivity.
  - vm_compute. reflexivity.
  - vm_compute. reflexivity.
Qed.


Lemma printComposedSdl_layout_witness :
  exists text schema1 n1,
    Sample.printComposedSdl Document.withDirectives Document.services None 0
    = (Ok text, schema1, n1) /\
    exists directiveTexts types typeTexts,
      text =
        documentOf
          ([printSchemaDefinition Document.withDirectives]
           ++ Sample.csdlDefinitions
           ++ [printGraphs Sample.JSON_stringify Document.services]
           ++ directiveTexts
           ++ typeTexts)%list /\
      Forall2
        (fun directive directiveText =>
           printDirective Sample.print Sample.astFromValue directive None
           = Ok directiveText)
        (List.filter
           (fun d => negb (Sample.isSpecifiedDirective d)
                     && negb (Sample.isFederationDirective d))
           (s_directives Document.withDirectives))
        directiveTexts /\
      Permutation types
        (List.filter
           (isDefinedType Sample.isSpecifiedScalarType Sample.isIntrospectionType
              Sample.isFederationType)
           (map snd (s_typeMap Document.withDirectives))) /\
      StronglySorted
        (fun a b => (Sample.localeCompare (typeName a) (typeName b) <= 0)%Z) types /\
      Forall2
        (fun type typeText =>
           exists k type' k',
             printType Sample.print Sample.astFromValue type None k
             = (Ok typeText, type', k'))
        types typeTexts.
Proof.
  eexists _, _, _. split; [vm_compute; reflexivity|].
  apply (printComposedSdl_layout Sample.print Sample.astFromValue
           Sample.JSON_stringify Sample.localeCompare Sample.isSpecifiedDirective
           Sample.isSpecifiedScalarType Sample.isIntrospectionType
           Sample.isFederationType Sample.isFederationDirective
           Sample.csdlDefinitions Document.withDirectives Document.services None 0
           _ Document.withDirectives 0).
  - exact localeCompare_total.
  - exact localeCompare_trans.
  - vm_compute. reflexivity.
Defined.

(** C6 as stated fails: the schema declares the directives [zeta] and
    [alpha] in this order, and the document has their definitions in this
    order, which is not the order of their names. *)
Lemma printComposedSdl_directives_in_schema_order :
  fst (fst (Sample.printComposedSdl Document.withDirectives Document.services None 0))
  = Ok (documentOf
          [ printSchemaDefinition Document.withDirectives;
            printGraphs Sample.JSON_stringify Document.services;
            "directive @zeta on FIELD_DEFINITION";
            "directive @alpha on FIELD_DEFINITION";
            Document.moneyText ]) /\
  ~ StronglySorted
      (fun a b => (Sample.localeCompare (d_name a) (d_name b) <= 0)%Z)
      [Document.customDirective "zeta"; Document.customDirective "alpha"].
Proof.
  split; [vm_compute; reflexivity|].
  intros H. inversion H as [|? ? _ Hall]; subst.
  inversion Hall as [|? ? Hle _]; subst. vm_compute in Hle. apply Hle. reflexivity.
Qed.

Lemma printComposedSdl_repeatable_without_synthesis_witness :
  (forall key type,
      In (key, type) (s_typeMap Document.valueTypes) ->
      isDefinedType Sample.isSpecifiedScalarType Sample.isIntrospectionType
        Sample.isFederationType type = true ->
      carriesNoState type = true) /\
  (let first := Sample.printComposedSdl Document.valueTypes Document.services None 0 in
   let second :=
     Sample.printComposedSdl (snd (fst first)) Document.services None (snd first) in
   fst (fst second) = fst (fst first)) /\
  printsNoKey Scenario.user = false /\
  0 < snd (Sample.printComposedSdl Scenario.scenarioA Document.services None 0).
Proof.
  assert (H : forall key type,
             In (key, type) (s_typeMap Document.valueTypes) ->
             isDefinedType Sample.isSpecifiedScalarType Sample.isIntrospectionType
               Sample.isFederationType type = true ->
             carriesNoState type = true).
  { intros key type [Hin|[Hin|[]]] _; injection Hin as <- <-; reflexivity. }
  split; [exact H|]. split; [|split; [reflexivity|]].
  - exact (proj2
             (proj1
                (printComposedSdl_repeatable_without_synthesis Sample.print
                   Sample.astFromValue Sample.JSON_stringify Sample.localeCompare
                   Sample.isSpecifiedDirective Sample.isSpecifiedScalarType
                   Sample.isIntrospectionType Sample.isFederationType
                   Sample.isFederationDirective Sample.csdlDefinitions
                   Document.valueTypes Document.services None) H) 0).
  - eapply (proj2
              (printComposedSdl_repeatable_without_synthesis Sample.print
                 Sample.astFromValue Sample.JSON_stringify Sample.localeCompare
                 Sample.isSpecifiedDirective Sample.isSpecifiedScalarType
                 Sample.isIntrospectionType Sample.isFederationType
                 Sample.isFederationDirective Sample.csdlDefinitions
                 Scenario.scenarioA Document.services None)
              0 0 "User" Scenario.user);
      [reflexivity | reflexivity | reflexivity | vm_compute; reflexivity].
Defined.

(** C2 as stated fails: the first call on scenario A leaves the key
    counter at 2, and the second call, on the same schema and services,
    returns another text (its key fragments are numbered 2 and 3); on
    [Document.accounts] the second call finds the fragments that the first
    call stored on the type and prints them again. *)
Lemma printComposedSdl_second_call_differs :
  (let first := Sample.printComposedSdl Scenario.scenarioA Document.services None 0 in
   let second :=
     Sample.printComposedSdl (snd (fst first)) Document.services None (snd first) in
   snd first = 2 /\ fst (fst second) <> fst (fst first)) /\
  (let first := Sample.printComposedSdl Document.accounts Document.services None 0 in
   let second :=
     Sample.printComposedSdl (snd (fst first)) Document.services None (snd first) in
   snd (fst first) <> Document.accounts /\ fst (fst second) <> fst (fst first)).
Proof.
  split; vm_compute; (split; [try reflexivity|]); intros H; discriminate H.
Qed.

(** ** More on the serializer: when it throws, and the key counter *)

Lemma list_sum_Permutation (l l' : list nat) :
  Permutation l l' -> list_sum l = list_sum l'.
Proof.
  induction 1 as [| x l l' _ IH | x y l | l l' l'' _ IH1 _ IH2]; simpl; lia.
Qed.

Section SerializerErrors.

Variable print : ASTNode -> string.
Variable astFromValue : JSValue -> TypeRef -> result (option ValueNode).
Variable JSON_stringify : string -> string.
Variable localeCompare : string -> string -> Z.
Variable isSpecifiedDirective : GraphQLDirective -> bool.
Variable isSpecifiedScalarType : GraphQLNamedType -> bool.
Variable isIntrospectionType : GraphQLNamedType -> bool.
Variable isFederationType : GraphQLNamedType -> bool.
Variable isFederationDirective : GraphQLDirective -> bool.
Variable csdlDefinitions : list string.

Local Abbreviation printOne := (printType print astFromValue).
Local Abbreviation printAll := (printTypes print astFromValue).
Local Abbreviation printFiltered :=
  (printFilteredSchema print astFromValue JSON_stringify localeCompare csdlDefinitions).
Local Abbreviation defined :=
  (isDefinedType isSpecifiedScalarType isIntrospectionType isFederationType).
Local Abbreviation serialize :=
  (printComposedSdl print astFromValue JSON_stringify localeCompare
     isSpecifiedDirective isSpecifiedScalarType isIntrospectionType
     isFederationType isFederationDirective csdlDefinitions).
Local Abbreviation introspect :=
  (printIntrospectionSchema print astFromValue JSON_stringify localeCompare
     isSpecifiedDirective isIntrospectionType csdlDefinitions).

(** The filtered printer throws exactly when a directive that passes
    the directive filter or a type that passes the type filter cannot be
    printed. *)
Lemma printFilteredSchema_throws_iff schema serviceList directiveFilter typeFilter
    options n :
  (exists e,
      fst (fst (printFiltered schema serviceList directiveFilter typeFilter options n))
      = Throw e) <->
  (exists directive,
      In directive (s_directives schema) /\ directiveFilter directive = true /\
      directiveThrows astFromValue directive = true) \/
  (exists i key type,
      s_typeMap schema !! i = Some (key, type) /\ typeFilter type = true /\
      typeThrows astFromValue type = true).
Proof.
  rewrite <- throws_spec, throws_printFilteredSchema, orb_true_iff,
    !existsb_exists.
  split; intros [H | H]; [left | right | left | right].
  - destruct H as (d & Hin & Hd). apply List.filter_In in Hin as [Hin Hf]. eauto.
  - destruct H as (type & Hin & Ht). apply List.filter_In in Hin as [Hin Hf].
    apply List.in_map_iff in Hin as ([key type'] & Heq & Hin). simpl in Heq. subst type'.
    apply list_elem_of_In, list_elem_of_lookup in Hin as (i & Hi). eauto 6.
  - destruct H as (d & Hin & Hf & Hd). exists d. split; [|assumption].
    apply List.filter_In. auto.
  - destruct H as (i & key & type & Hl & Hf & Ht). exists type. split; [|assumption].
    apply List.filter_In. split; [|assumption].
    apply List.in_map_iff. exists (key, type). split; [reflexivity|].
    apply list_elem_of_In, list_elem_of_lookup. eauto.
Qed.

(** X1. [printComposedSdl] throws exactly when it has something to
    print that cannot be printed: a directive definition that is neither
    specified nor a federation directive, with an argument whose default
    value [astFromValue] cannot convert; or a type that passes
    [isDefinedType] and has an Object or Interface field with such an
    argument, a deprecated field or enum value whose reason cannot be
    converted, an input field whose default value cannot be converted, or
    a field without federation metadata while the type has none either.
    In every other case it returns a document. *)
Theorem printComposedSdl_throws_iff schema serviceList options n :
  (exists e, fst (fst (serialize schema serviceList options n)) = Throw e) <->
  (exists directive,
      In directive (s_directives schema) /\
      negb (isSpecifiedDirective directive) && negb (isFederationDirective directive)
      = true /\
      directiveThrows astFromValue directive = true) \/
  (exists i key type,
      s_typeMap schema !! i = Some (key, type) /\ defined type = true /\
      typeThrows astFromValue type = true).
Proof.
  exact (printFilteredSchema_throws_iff schema serviceList
           (fun d => negb (isSpecifiedDirective d) && negb (isFederationDirective d))
           defined options n).
Qed.

(** X2. [printIntrospectionSchema] goes through the same printers: it
    throws exactly when a specified directive or an introspection type of
    the schema cannot be printed; in particular it throws as soon as the
    type map holds an introspection type that is an Object type without
    federation metadata with a field without federation metadata. *)
Theorem printIntrospectionSchema_throws_iff schema options n :
  ((exists e, fst (fst (introspect schema options n)) = Throw e) <->
   (exists directive,
       In directive (s_directives schema) /\ isSpecifiedDirective directive = true /\
       directiveThrows astFromValue directive = true) \/
   (exists i key type,
       s_typeMap schema !! i = Some (key, type) /\ isIntrospectionType type = true /\
       typeThrows astFromValue type = true)) /\
  (forall i key type,
      s_typeMap schema !! i = Some (key, type) -> isIntrospectionType type = true ->
      lacksMetadata type ->
      exists e, fst (fst (introspect schema options n)) = Throw e).
Proof.
  split.
  - exact (printFilteredSchema_throws_iff schema [] isSpecifiedDirective
             isIntrospectionType options n).
  - intros i key type Hl Hf Hbad.
    apply (printFilteredSchema_throws_iff schema [] isSpecifiedDirective
             isIntrospectionType options n).
    right. exists i, key, type. split; [assumption|]. split; [assumption|].
    now apply lacksMetadata_typeThrows.
Qed.

(** *** The key counter after a call that returns *)

Lemma printKeyEntries_count typeName entries n :
  snd (printKeyEntries print typeName entries n)
  = n + list_sum (map (fun entry => match snd entry with
                                     | Some selections => List.length selections
                                     | None => 0
                                     end) entries).
Proof.
  revert n. induction entries as [|[service keys] entries IH]; intros n; simpl;
    [lia|].
  destruct keys as [keys|]; simpl.
  - pose proof (printKeySelections_counter print typeName service keys n) as Hk.
    destruct (printKeySelections _ _ _ _ _) as [lines n1]. simpl in Hk.
    specialize (IH n1). destruct (printKeyEntries _ _ _ _). simpl in *. lia.
  - specialize (IH n). destruct (printKeyEntries _ _ _ _). simpl in *. lia.
Qed.

Lemma printKeys_count type n :
  snd (printKeys print type n) = n + keySelectionCount type.
Proof.
  unfold printKeys, keySelectionCount.
  destruct (ct_federation type) as [m|]; simpl; [|lia].
  destruct (ft_serviceName m) as [| |owner]; simpl; try lia.
  destruct (ft_keys m) as [keys|]; simpl; [|lia].
  destruct (JS.truthy owner); simpl; [|lia].
  pose proof (printKeyEntries_count (ct_name type) keys n) as H.
  destruct (printKeyEntries _ _ _ _). simpl in *. lia.
Qed.

Lemma printType_count type options n text type1 n1 :
  printOne type options n = (Ok text, type1, n1) -> n1 = n + typeKeyCount type.
Proof.
  destruct type as [t|t|t|t|t|t]; simpl;
    try (intros H; injection H as _ _ <-; lia).
  - unfold printObject.
    pose proof (printFields_frame print astFromValue options t) as Hframe.
    destruct (printFields _ _ _ _) as [[fields|e] t1]; [|discriminate].
    simpl in Hframe. pose proof (printKeys_count t1 n) as Hk.
    destruct (printKeys _ _ _) as [keys k1]. simpl in Hk.
    intros H. injection H as _ _ <-. rewrite Hk.
    unfold keySelectionCount. apply (f_equal ct_federation) in Hframe.
    simpl in Hframe. rewrite Hframe. reflexivity.
  - destruct (printInterface _ _ _ _). intros H. injection H as _ _ <-. lia.
Qed.

Lemma printTypes_count (pairs : list (nat * GraphQLNamedType)) options
    (typeMap : list (string * GraphQLNamedType)) n texts typeMap1 n1 :
  List.NoDup (map fst pairs) ->
  (forall i type, In (i, type) pairs -> exists key, typeMap !! i = Some (key, type)) ->
  printAll (map fst pairs) options typeMap n = (Ok texts, typeMap1, n1) ->
  n1 = n + list_sum (map typeKeyCount (map snd pairs)).
Proof.
  revert typeMap n texts. induction pairs as [|[i type] pairs IH];
    intros typeMap n texts Hnd Hsrc; simpl.
  - intros H. injection H as _ _ <-. lia.
  - inversion Hnd as [|? ? Hi Hnd']; subst.
    destruct (Hsrc i type) as (key & Hl); [now left|]. rewrite Hl.
    destruct (printType _ _ _ _ _) as [[[text|e] type1] k1] eqn:Hone; [|discriminate].
    apply printType_count in Hone.
    destruct (printTypes _ _ _ _ _ _) as [[[rest|e] typeMap2] k2] eqn:Hrest;
      [|discriminate].
    intros H. injection H as _ <- <-.
    apply IH in Hrest; [lia | assumption |].
    intros j t Hj. destruct (Hsrc j t) as (key' & Hl'); [now right|].
    exists key'. rewrite list_lookup_insert_ne; [assumption|].
    intros ->. apply Hi. apply List.in_map_iff. exists (j, t). auto.
Qed.

(** X3. A call that returns leaves the module-level key counter at its
    starting value plus the number of key selections of the Object types
    that it printed: every printed key fragment takes one number, and
    nothing else moves the counter (Interface types print no key
    fragment). *)
Theorem printComposedSdl_counter schema serviceList options n text schema1 n1 :
  serialize schema serviceList options n = (Ok text, schema1, n1) ->
  n1 = n + list_sum (map typeKeyCount
                       (List.filter defined (map snd (s_typeMap schema)))).
Proof.
  unfold printComposedSdl, printFilteredSchema.
  destruct (mapM _ _) as [directiveTexts|e]; [|discriminate].
  destruct (printTypes _ _ _ _ _ _) as [[[texts|e] typeMap1] k1] eqn:Hrun;
    [|discriminate].
  intros H. injection H as _ _ <-.
  apply printTypes_count in Hrun.
  - rewrite Hrun. f_equal. apply list_sum_Permutation, Permutation_map.
    apply sortedTypeRefs_Permutation.
  - apply sortedTypeRefs_NoDup.
  - intros i type Hin. now apply sortedTypeRefs_In in Hin.
Qed.

End SerializerErrors.

(** ** The synthesized fragment names *)

Lemma everyChar_append (p : ascii -> bool) (s t : string) :
  everyChar p (s ++ t) = everyChar p s && everyChar p t.
Proof.
  induction s as [|c s IH]; simpl; [reflexivity|].
  rewrite IH. apply andb_assoc.
Qed.

Lemma everyChar_impl (p q : ascii -> bool) (s : string) :
  (forall c, p c = true -> q c = true) ->
  everyChar p s = true -> everyChar q s = true.
Proof.
  intros Hpq. induction s as [|c s IH]; simpl; [reflexivity|].
  intros H. apply andb_true_iff in H as [Hc Hs].
  rewrite (Hpq c Hc), (IH Hs). reflexivity.
Qed.

Lemma everyChar_keepChars (p : ascii -> bool) (s : string) :
  everyChar p (JS.keepChars p s) = true.
Proof.
  induction s as [|c s IH]; simpl; [reflexivity|].
  destruct (p c) eqn:Hc; simpl; [rewrite Hc|]; assumption.
Qed.

Lemma keepChars_append (p : ascii -> bool) (s t : string) :
  JS.keepChars p (s ++ t) = JS.keepChars p s ++ JS.keepChars p t.
Proof.
  induction s as [|c s IH]; simpl; [reflexivity|].
  rewrite IH. destruct (p c); reflexivity.
Qed.

Lemma keepChars_every (p : ascii -> bool) (s : string) :
  everyChar p s = true -> JS.keepChars p s = s.
Proof.
  induction s as [|c s IH]; simpl; [reflexivity|].
  intros H. apply andb_true_iff in H as [Hc Hs]. rewrite Hc, (IH Hs). reflexivity.
Qed.

Lemma replaceRunsFrom_none (p : ascii -> bool) (r : string) (b : bool) (t : string) :
  everyChar (fun c => negb (p c)) t = true -> JS.replaceRunsFrom p r b t = t.
Proof.
  revert b. induction t as [|c t IH]; intros b; simpl; [reflexivity|].
  intros H. apply andb_true_iff in H as [Hc Ht]. apply negb_true_iff in Hc.
  rewrite Hc, (IH false Ht). reflexivity.
Qed.

Lemma replaceRunsFrom_suffix (p : ascii -> bool) (r : string) (b : bool) (s t : string) :
  t <> EmptyString ->
  everyChar (fun c => negb (p c)) t = true ->
  JS.replaceRunsFrom p r b (s ++ t) = JS.replaceRunsFrom p r b s ++ t.
Proof.
  intros Hne Ht. revert b. induction s as [|c s IH]; intros b; simpl.
  - apply replaceRunsFrom_none. assumption.
  - destruct (p c); [destruct b|]; rewrite IH; try reflexivity.
    symmetry. apply append_assoc3.
Qed.

(** Collapsing the runs of underscores of a text that ends with an
    underscore gives a text that ends with an underscore. *)
Lemma collapse_keeps_last_underscore (b : bool) (s : string) :
  exists y,
    (if b then "_" else EmptyString)
    ++ JS.replaceRunsFrom (fun c => Ascii.eqb c "_"%char) "_" b (s ++ "_")
    = y ++ "_".
Proof.
  revert b. induction s as [|c s IH]; intros b; simpl.
  - exists EmptyString. destruct b; reflexivity.
  - destruct (Ascii.eqb c "_"%char).
    + destruct (IH true) as (y & Hy). exists y. destruct b; exact Hy.
    + destruct (IH false) as (y & Hy). simpl in Hy. rewrite Hy.
      exists ((if b then "_" else EmptyString) ++ String c y).
      destruct b; reflexivity.
Qed.

Lemma trimStart_suffix (s t : string) :
  (exists c t', t = String c t' /\ JS.isSpace c = false) ->
  exists s', JS.trimStart (s ++ t) = s' ++ t.
Proof.
  intros (c & t' & -> & Hc). induction s as [|x s IH]; simpl.
  - exists EmptyString. rewrite Hc. reflexivity.
  - destruct (JS.isSpace x); [exact IH|].
    exists (String x s). reflexivity.
Qed.

Lemma trimEnd_solid (t : string) :
  t <> EmptyString ->
  everyChar (fun c => negb (JS.isSpace c)) t = true -> JS.trimEnd t = t.
Proof.
  induction t as [|c t IH]; [contradiction|]. intros _ H. simpl in *.
  apply andb_true_iff in H as [Hc Ht]. apply negb_true_iff in Hc.
  destruct t as [|d t]; simpl in *; [rewrite Hc; reflexivity|].
  rewrite IH by (discriminate || assumption). reflexivity.
Qed.

Lemma trimEnd_suffix (s t : string) :
  t <> EmptyString ->
  everyChar (fun c => negb (JS.isSpace c)) t = true ->
  JS.trimEnd (s ++ t) = s ++ t.
Proof.
  intros Hne Ht. induction s as [|x s IH]; simpl; [now apply trimEnd_solid|].
  rewrite IH. destruct (s ++ t) eqn:Hst; [|reflexivity].
  destruct s; [simpl in Hst; contradiction | discriminate].
Qed.

Lemma isDigit_facts (c : ascii) :
  isDigit c = true ->
  JS.isSpace c = false /\ isSeparator c = false /\
  Ascii.eqb c "_"%char = false /\ isIdentifierChar c = true.
Proof.
  destruct c as [[] [] [] [] [] [] [] []]; vm_compute; intros H;
    try discriminate H; repeat split.
Qed.

Lemma ofNat_digits (n : nat) : everyChar isDigit (JS.ofNat n) = true.
Proof.
  unfold JS.ofNat. generalize (Nat.to_uint n). intros d.
  induction d; simpl; auto.
Qed.

Lemma ofNat_inj (n m : nat) : JS.ofNat n = JS.ofNat m -> n = m.
Proof.
  unfold JS.ofNat. intros H. apply DecimalNat.Unsigned.to_uint_inj.
  apply (f_equal NilEmpty.uint_of_string) in H.
  rewrite !NilEmpty.usu in H. now injection H.
Qed.

(** [asValidIdentifier] keeps a final [_] and the digits after it. *)
Lemma asValidIdentifier_numbered (s : string) (n : nat) :
  exists z, asValidIdentifier (s ++ "_" ++ JS.ofNat n) = z ++ "_" ++ JS.ofNat n.
Proof.
  pose proof (ofNat_digits n) as Hd. set (d := JS.ofNat n) in *.
  assert (Hspace : everyChar (fun c => negb (JS.isSpace c)) ("_" ++ d) = true).
  { simpl. apply (everyChar_impl isDigit); [|assumption].
    intros c Hc. apply isDigit_facts in Hc as (-> & _). reflexivity. }
  assert (Hsep : everyChar (fun c => negb (isSeparator c)) ("_" ++ d) = true).
  { simpl. apply (everyChar_impl isDigit); [|assumption].
    intros c Hc. apply isDigit_facts in Hc as (_ & -> & _). reflexivity. }
  assert (Hund : everyChar (fun c => negb (Ascii.eqb c "_"%char)) d = true).
  { apply (everyChar_impl isDigit); [|assumption].
    intros c Hc. apply isDigit_facts in Hc as (_ & _ & -> & _). reflexivity. }
  assert (Hid : everyChar isIdentifierChar ("_" ++ d) = true).
  { simpl. apply (everyChar_impl isDigit); [|assumption].
    intros c Hc. now apply isDigit_facts in Hc. }
  unfold asValidIdentifier, JS.trim.
  destruct (trimStart_suffix s ("_" ++ d)) as (s1 & ->);
    [exists "_"%char, d; split; reflexivity|].
  rewrite trimEnd_suffix by (discriminate || assumption).
  unfold JS.replaceRuns.
  rewrite (replaceRunsFrom_suffix isSeparator) by (discriminate || assumption).
  set (x1 := JS.replaceRunsFrom isSeparator "_" false s1).
  destruct d as [|c0 d0] eqn:Hdeq.
  - destruct (collapse_keeps_last_underscore false x1) as (y & Hy). simpl in Hy.
    change (x1 ++ "_" ++ EmptyString) with (x1 ++ "_"). rewrite Hy.
    rewrite keepChars_append. exists (JS.keepChars isIdentifierChar y). reflexivity.
  - rewrite <- (append_assoc3 x1 "_" (String c0 d0)).
    rewrite (replaceRunsFrom_suffix (fun c => Ascii.eqb c "_"%char))
      by (discriminate || assumption).
    destruct (collapse_keeps_last_underscore false x1) as (y & Hy). simpl in Hy.
    rewrite Hy, append_assoc3, keepChars_append.
    rewrite (keepChars_every isIdentifierChar ("_" ++ String c0 d0)) by assumption.
    exists (JS.keepChars isIdentifierChar y). reflexivity.
Qed.

Lemma numbered_suffix_inj (z1 z2 d1 d2 : string) :
  everyChar (fun c => negb (Ascii.eqb c "_"%char)) d1 = true ->
  everyChar (fun c => negb (Ascii.eqb c "_"%char)) d2 = true ->
  z1 ++ "_" ++ d1 = z2 ++ "_" ++ d2 -> d1 = d2.
Proof.
  assert (Hno : forall z d d',
             everyChar (fun c => negb (Ascii.eqb c "_"%char)) d = true ->
             d <> z ++ "_" ++ d').
  { intros z d d' Hd Heq. rewrite Heq, everyChar_append in Hd.
    apply andb_true_iff in Hd as [_ Hd]. simpl in Hd. discriminate. }
  intros H1 H2. revert z2. induction z1 as [|c z1 IH]; intros [|c' z2]; simpl; intros H.
  - now injection H.
  - injection H as _ H. now apply Hno in H.
  - injection H as _ H. symmetry in H. now apply Hno in H.
  - injection H as _ H. now apply (IH z2).
Qed.


(** Two synthesized names with different counters differ, whatever the
    type names and the selection texts. *)
Lemma fragmentName_counter_inj typeName1 key1 n1 typeName2 key2 n2 :
  fragmentName typeName1 key1 n1 = fragmentName typeName2 key2 n2 -> n1 = n2.
Proof.
  unfold fragmentName. intros H. apply append_cancel_l in H.
  replace (typeName1 ++ "_" ++ key1 ++ "_" ++ JS.ofNat n1)
    with ((typeName1 ++ "_" ++ key1) ++ "_" ++ JS.ofNat n1) in H
    by (rewrite !append_assoc3; reflexivity).
  replace (typeName2 ++ "_" ++ key2 ++ "_" ++ JS.ofNat n2)
    with ((typeName2 ++ "_" ++ key2) ++ "_" ++ JS.ofNat n2) in H
    by (rewrite !append_assoc3; reflexivity).
  destruct (asValidIdentifier_numbered (typeName1 ++ "_" ++ key1) n1) as (z1 & E1).
  destruct (asValidIdentifier_numbered (typeName2 ++ "_" ++ key2) n2) as (z2 & E2).
  rewrite E1, E2 in H. apply ofNat_inj.
  apply (numbered_suffix_inj z1 z2); [| |exact H];
    (apply (everyChar_impl isDigit); [|apply ofNat_digits]);
    intros c Hc; apply isDigit_facts in Hc as (_ & _ & -> & _); reflexivity.
Qed.

Lemma mapSet_fresh {V} (k : string) (v : V) (m : list (string * V)) :
  lookupKey k m = None -> mapSet k v m = (m ++ [(k, v)])%list.
Proof.
  induction m as [|[k' v'] m IH]; simpl; [reflexivity|].
  destruct (String.eqb k' k); [discriminate|]. intros H. now rewrite IH.
Qed.

Lemma fragmentStoreKept_keyed (type : GraphQLCompositeType) :
  fragmentStoreKept type -> keyedByFragmentName type.
Proof.
  intros [_ Hall] m Hm. unfold fragmentsOf in Hall. rewrite Hm in Hall.
  eapply List.Forall_impl; [|exact Hall].
  intros [k v] (key & n & -> & _). apply (prefix_append "cs__fragmentOn_").
Qed.

Section FragmentStore.

Variable print : ASTNode -> string.
Variable astFromValue : JSValue -> TypeRef -> result (option ValueNode).

Local Abbreviation findOrCreate := (findOrCreateFragment print).

(** X4. On a type whose fragments are stored under synthesized names
    (such as a type that has none yet), [findOrCreateFragment] returns a
    valid GraphQL name: a letter first, then only letters, digits and
    underscores, whatever characters the type name and the selection text
    hold. *)
Theorem findOrCreateFragment_valid_name type selections :
  keyedByFragmentName type ->
  isValidName (fst (findOrCreate type selections)) = true.
Proof.
  intros Hinv.
  destruct (findOrCreateFragment_never_reuses print type selections Hinv)
    as (_ & -> & _).
  simpl. apply everyChar_keepChars.
Qed.

Lemma findOrCreateFragment_appends type selections :
  fragmentStoreKept type ->
  let id := fst (findOrCreate type selections) in
  let type1 := snd (findOrCreate type selections) in
  id = fragmentName (ct_name type) (printFieldSet print selections)
         (nextFragmentIdOf type) /\
  lookupKey id (fragmentsOf type) = None /\
  fragmentsOf type1 =
    (fragmentsOf type
     ++ [(id, {| frag_id := id;
                 frag_text := "fragment " ++ id ++ " on " ++ ct_name type ++ " "
                              ++ printFieldSet print selections |})])%list /\
  nextFragmentIdOf type1 = S (nextFragmentIdOf type) /\
  ct_name type1 = ct_name type /\
  fragmentStoreKept type1.
Proof.
  intros Hkept. pose proof Hkept as [Hlen Hall].
  destruct (findOrCreateFragment_never_reuses print type selections
              (fragmentStoreKept_keyed type Hkept)) as (Hmiss & _).
  assert (Hfresh : lookupKey
                     (fragmentName (ct_name type) (printFieldSet print selections)
                        (nextFragmentIdOf type))
                     (fragmentsOf type) = None).
  { apply lookupKey_absent. eapply List.Forall_impl; [|exact Hall].
    intros [k v] (key & m & -> & Hm) Heq. simpl in Heq.
    apply fragmentName_counter_inj in Heq. lia. }
  assert (Hrun :
            findOrCreate type selections =
            (fragmentName (ct_name type) (printFieldSet print selections)
               (nextFragmentIdOf type),
             {| ct_name := ct_name type; ct_description := ct_description type;
                ct_interfaces := ct_interfaces type; ct_fields := ct_fields type;
                ct_astNode := ct_astNode type;
                ct_extensionASTNodes := ct_extensionASTNodes type;
                ct_federation := ct_federation type;
                ct_fragments :=
                  Some (fragmentsOf type
                        ++ [(fragmentName (ct_name type)
                               (printFieldSet print selections) (nextFragmentIdOf type),
                             {| frag_id :=
                                  fragmentName (ct_name type)
                                    (printFieldSet print selections)
                                    (nextFragmentIdOf type);
                                frag_text :=
                                  "fragment "
                                  ++ fragmentName (ct_name type)
                                       (printFieldSet print selections)
                                       (nextFragmentIdOf type)
                                  ++ " on " ++ ct_name type ++ " "
                                  ++ printFieldSet print selections |})])%list;
                ct_nextFragmentId := Some (S (nextFragmentIdOf type)) |})).
  { unfold findOrCreateFragment.
    change (match ct_fragments type with Some m => m | None => [] end)
      with (fragmentsOf type).
    change (match ct_nextFragmentId type with Some n => n | None => 0 end)
      with (nextFragmentIdOf type).
    rewrite Hmiss. cbv zeta.
    change ("cs__fragmentOn_"
            ++ asValidIdentifier
                 (ct_name type ++ "_" ++ printFieldSet print selections ++ "_"
                  ++ JS.ofNat (nextFragmentIdOf type)))
      with (fragmentName (ct_name type) (printFieldSet print selections)
              (nextFragmentIdOf type)).
    rewrite (mapSet_fresh _ _ _ Hfresh). reflexivity. }
  rewrite Hrun. cbn [fst snd].
  split; [reflexivity|]. split; [exact Hfresh|]. split; [reflexivity|].
  split; [reflexivity|]. split; [reflexivity|]. split.
  - unfold fragmentsOf, nextFragmentIdOf in *. cbn [ct_fragments ct_nextFragmentId].
    rewrite length_app, Hlen. simpl. lia.
  - unfold fragmentsOf, nextFragmentIdOf in *.
    cbn [ct_fragments ct_nextFragmentId ct_name].
    apply Forall_app. split.
    + eapply List.Forall_impl; [|exact Hall].
      intros [k v] (key & m & Hk & Hm). exists key, m. split; [exact Hk | lia].
    + constructor; [|constructor]. eexists _, _. split; [reflexivity | lia].
Qed.

(** X5. On a type whose stored fragments were all made by
    [findOrCreateFragment], every call appends exactly one fragment to the
    Map, under a name that no stored fragment has, numbered with the
    current fragment counter, and advances the counter; nothing is ever
    overwritten or reused. *)
Theorem findOrCreateFragment_adds_one type selections :
  fragmentStoreKept type ->
  let id := fst (findOrCreate type selections) in
  let type1 := snd (findOrCreate type selections) in
  id = fragmentName (ct_name type) (printFieldSet print selections)
         (nextFragmentIdOf type) /\
  lookupKey id (fragmentsOf type) = None /\
  fragmentsOf type1 =
    (fragmentsOf type
     ++ [(id, {| frag_id := id;
                 frag_text := "fragment " ++ id ++ " on " ++ ct_name type ++ " "
                              ++ printFieldSet print selections |})])%list /\
  nextFragmentIdOf type1 = S (nextFragmentIdOf type) /\
  ct_name type1 = ct_name type /\
  fragmentStoreKept type1.
Proof. exact (findOrCreateFragment_appends type selections). Qed.

Lemma printFederationFieldDirectives_fragments type field text type1 :
  fragmentStoreKept type ->
  printFederationFieldDirectives print type field = (Ok text, type1) ->
  fragmentStoreKept type1 /\
  List.length (fragmentsOf type1)
  = List.length (fragmentsOf type) + fragmentRequests [field].
Proof.
  intros Hkept. unfold printFederationFieldDirectives, fragmentRequests. simpl.
  destruct (f_federation field) as [m|].
  - destruct (ff_requires m) as [[|r rs]|]; destruct (ff_provides m) as [[|p ps]|];
      simpl;
      repeat match goal with
        | |- context [findOrCreateFragment print ?t ?s] =>
            let H := fresh "H" in
            let K := fresh "K" in
            assert (K : fragmentStoreKept t) by assumption;
            pose proof (findOrCreateFragment_appends t s K) as H;
            cbv zeta in H;
            destruct (findOrCreateFragment print t s) as [? ?];
            cbn [fst snd] in H;
            destruct H as (_ & _ & ? & _ & _ & ?)
        end;
      intros Hrun; injection Hrun as _ <-; (split; [assumption|]);
      repeat match goal with
        | E : fragmentsOf _ = _ |- _ => rewrite E, length_app; clear E
        end; simpl; lia.
  - destruct (ct_federation type); [|discriminate].
    intros H. injection H as _ <-. split; [assumption | lia].
Qed.

Lemma printFieldLines_fragments options i fields type lines type1 :
  fragmentStoreKept type ->
  printFieldLines print astFromValue options i fields type = (Ok lines, type1) ->
  fragmentStoreKept type1 /\
  List.length (fragmentsOf type1)
  = List.length (fragmentsOf type) + fragmentRequests fields.
Proof.
  revert i type lines type1.
  induction fields as [|f fields IH]; intros i type lines type1 Hkept; simpl.
  - intros H. injection H as _ <-. split; [assumption|]. unfold fragmentRequests.
    simpl. lia.
  - unfold printFieldLine.
    destruct (printArgs _ _ _ _ _) as [args|e]; [|discriminate].
    destruct (printDeprecated _ _ _ _) as [deprecated|e]; [|discriminate].
    destruct (printFederationFieldDirectives print type f) as [[text|e] t1] eqn:Hf;
      [|discriminate].
    destruct (printFederationFieldDirectives_fragments type f text t1 Hkept Hf)
      as (Hkept1 & Hlen1).
    destruct (printFieldLines _ _ _ _ _ _) as [[rest|e] t2] eqn:Hrest; [|discriminate].
    destruct (IH (S i) t1 rest t2 Hkept1 Hrest) as (Hkept2 & Hlen2).
    intros H. injection H as _ <-. split; [assumption|].
    rewrite Hlen2, Hlen1. unfold fragmentRequests. simpl. lia.
Qed.

(** X6. Printing the fields of a type stores one fragment for every
    non-empty [requires] and every non-empty [provides] of its fields:
    after a [printFields] that returns, the type holds as many more
    fragments as there were such selection sets, equal texts included. *)
Theorem printFields_stores_one_fragment_per_request options type text type1 :
  fragmentStoreKept type ->
  printFields print astFromValue options type = (Ok text, type1) ->
  fragmentStoreKept type1 /\
  List.length (fragmentsOf type1)
  = List.length (fragmentsOf type) + fragmentRequests (ct_fields type).
Proof.
  intros Hkept. unfold printFields.
  destruct (printFieldLines _ _ _ _ _ _) as [[lines|e] t1] eqn:Hlines; [|discriminate].
  intros H. injection H as _ <-.
  exact (printFieldLines_fragments options 0 (ct_fields type) type lines t1 Hkept Hlines).
Qed.

End FragmentStore.

(** ** Field sets are printed on one line *)

Lemma replaceRuns_collapsed (b : bool) (s : string) :
  runsCollapsed b (JS.replaceRunsFrom JS.isSpace " " b s) = true.
Proof.
  revert b. induction s as [|c s IH]; intros b; simpl; [reflexivity|].
  destruct (JS.isSpace c) eqn:Hc.
  - destruct b; [apply IH|]. simpl. apply IH.
  - simpl. rewrite Hc. apply IH.
Qed.

Lemma trimStart_collapsed (b : bool) (s : string) :
  runsCollapsed b s = true -> runsCollapsed true (JS.trimStart s) = true.
Proof.
  revert b. induction s as [|c s IH]; intros b; simpl; [reflexivity|].
  destruct (JS.isSpace c) eqn:Hc.
  - intros H. apply andb_true_iff in H as [_ H]. now apply (IH true).
  - simpl. rewrite Hc. trivial.
Qed.

Lemma trimEnd_singleSpaced (b : bool) (s : string) :
  runsCollapsed b s = true ->
  JS.trimEnd s = EmptyString \/ singleSpaced b (JS.trimEnd s) = true.
Proof.
  revert b. induction s as [|c s IH]; intros b; simpl; [now left|].
  destruct (JS.isSpace c) eqn:Hc.
  - intros H. apply andb_true_iff in H as [H1 H2].
    destruct (IH true H2) as [-> | Hs]; [now left|].
    destruct (JS.trimEnd s) eqn:Ht; [now left|].
    right. simpl. rewrite Hc, H1. exact Hs.
  - intros H. destruct (IH false H) as [-> | Hs].
    + right. simpl. rewrite Hc. reflexivity.
    + destruct (JS.trimEnd s) eqn:Ht.
      * right. simpl. rewrite Hc. reflexivity.
      * right. simpl. rewrite Hc. exact Hs.
Qed.

Lemma singleSpaced_hasNoNewline (b : bool) (s : string) :
  singleSpaced b s = true -> JS.hasNoNewline s = true.
Proof.
  revert b. induction s as [|c s IH]; intros b; simpl; [reflexivity|].
  destruct (JS.isSpace c) eqn:Hc.
  - intros H. apply andb_true_iff in H as [H1 H2].
    apply andb_true_iff in H1 as [H1 _]. apply Ascii.eqb_eq in H1. subst c.
    simpl. now apply (IH true).
  - intros H. rewrite (IH false H), andb_true_r.
    destruct (Ascii.eqb c JS.newline) eqn:Hn; [|reflexivity].
    apply Ascii.eqb_eq in Hn. subst c. discriminate.
Qed.

Lemma hasNoNewline_append (s t : string) :
  JS.hasNoNewline (s ++ t) = JS.hasNoNewline s && JS.hasNoNewline t.
Proof.
  induction s as [|c s IH]; simpl; [reflexivity|].
  rewrite IH. apply andb_assoc.
Qed.

Lemma hasNoNewline_join (sep : string) (items : list string) :
  JS.hasNoNewline sep = true ->
  Forall (fun item => JS.hasNoNewline item = true) items ->
  JS.hasNoNewline (JS.join sep items) = true.
Proof.
  intros Hsep. unfold JS.join.
  induction 1 as [|x items Hx Hall IH]; [reflexivity|].
  destruct items as [|y items]; [exact Hx|].
  change (String.concat sep (x :: y :: items))
    with (x ++ sep ++ String.concat sep (y :: items)).
  rewrite !hasNoNewline_append, Hx, Hsep, IH. reflexivity.
Qed.

Section FieldSets.

Variable print : ASTNode -> string.

(** X7. Whatever text graphql's [print] gives for a node,
    [printWithReducedWhitespace] returns it on one line: the result has no
    white space at either end and no white-space character other than
    single spaces between two other characters; hence a printed field set
    never holds a line break. *)
Theorem printFieldSet_on_one_line :
  (forall ast, tidy (printWithReducedWhitespace print ast) = true) /\
  (forall selections, JS.hasNoNewline (printFieldSet print selections) = true).
Proof.
  assert (Htidy : forall ast, tidy (printWithReducedWhitespace print ast) = true).
  { intros ast. unfold printWithReducedWhitespace, JS.trim, JS.replaceRuns.
    pose proof (replaceRuns_collapsed false (print ast)) as H.
    apply trimStart_collapsed, trimEnd_singleSpaced in H.
    destruct H as [-> | H]; [reflexivity|].
    unfold tidy. destruct (JS.trimEnd _); [reflexivity | exact H]. }
  split; [exact Htidy|].
  intros selections. unfold printFieldSet.
  rewrite !hasNoNewline_append. simpl. rewrite andb_true_r.
  apply hasNoNewline_join; [reflexivity|].
  apply List.Forall_forall. intros item Hin.
  apply List.in_map_iff in Hin as (s & <- & _).
  specialize (Htidy (SelectionAST s)). unfold tidy in Htidy.
  destruct (printWithReducedWhitespace print (SelectionAST s)) eqn:Hp; [reflexivity|].
  now apply (singleSpaced_hasNoNewline true).
Qed.

End FieldSets.

(** ** The loops of the validator *)

Lemma collectM_app {A B} (body : A -> result (list B)) (l1 l2 : list A) :
  collectM body (l1 ++ l2)%list
  = let* ys := collectM body l1 in
    let* zs := collectM body l2 in Ok (ys ++ zs)%list.
Proof.
  induction l1 as [|x l1 IH]; simpl.
  - destruct (collectM body l2); reflexivity.
  - destruct (body x) as [ys|]; simpl; [|reflexivity]. rewrite IH.
    destruct (collectM body l1) as [zs|]; simpl; [|reflexivity].
    destruct (collectM body l2) as [ws|]; simpl; [|reflexivity].
    now rewrite List.app_assoc.
Qed.

Lemma collectM_flat_map {A B C} (body : B -> result (list C)) (h : A -> list B)
    (l : list A) :
  collectM body (flat_map h l) = collectM (fun x => collectM body (h x)) l.
Proof.
  induction l as [|x l IH]; simpl; [reflexivity|].
  rewrite collectM_app, IH. reflexivity.
Qed.

Lemma collectM_map {A B C} (body : B -> result (list C)) (g : A -> B) (l : list A) :
  collectM body (map g l) = collectM (fun x => body (g x)) l.
Proof.
  induction l as [|x l IH]; simpl; [reflexivity|]. now rewrite IH.
Qed.

Lemma collectM_ext {A B} (body body' : A -> result (list B)) (l : list A) :
  (forall x, In x l -> body x = body' x) -> collectM body l = collectM body' l.
Proof.
  induction l as [|x l IH]; simpl; intros H; [reflexivity|].
  rewrite (H x) by now left. rewrite IH; [reflexivity|].
  intros y Hy. apply H. now right.
Qed.

Lemma collectM_Ok_flat {A B} (body : A -> result (list B)) (l : list A) (ys : list B) :
  collectM body l = Ok ys ->
  ys = flat_map (fun x => match body x with Ok zs => zs | Throw _ => [] end) l /\
  Forall (fun x => exists zs, body x = Ok zs) l.
Proof.
  revert ys. induction l as [|x l IH]; simpl; intros ys H.
  - injection H as <-. split; [reflexivity | constructor].
  - destruct (body x) as [zs|] eqn:Hx; simpl in H; [|discriminate].
    destruct (collectM body l) as [ws|]; simpl in H; [|discriminate].
    injection H as <-. destruct (IH ws eq_refl) as (-> & Hall).
    split; [reflexivity|]. constructor; eauto.
Qed.

Lemma collectM_Throw_iff {A B} (body : A -> result (list B)) (l : list A) :
  (exists e, collectM body l = Throw e) <->
  List.Exists (fun x => exists e, body x = Throw e) l.
Proof.
  induction l as [|x l IH]; simpl.
  - split; [intros (e & H); discriminate | intros H; inversion H].
  - destruct (body x) as [zs|e] eqn:Hx; simpl.
    + split.
      * intros (e & H). apply List.Exists_cons_tl. apply IH.
        destruct (collectM body l); [discriminate | eauto].
      * intros H. inversion H as [? ? (e & He)|? ? Ht]; subst; [congruence|].
        apply IH in Ht as (e & ->). simpl. eauto.
    + split; [|eauto]. intros _. apply List.Exists_cons_hd. eauto.
Qed.

Section ValidatorLoops.

Variable parseFieldSet : string -> result (list SelectionNode).
Variable hasMatchingFieldInDirectives :
  list DirectiveNode -> string -> GraphQLCompositeType -> result bool.
Variable selectionIncludesField :
  GraphQLSchema -> list SelectionNode -> GraphQLCompositeType ->
  GraphQLCompositeType -> string -> result bool.
Variable logServiceAndType : string -> string -> string -> string.

Local Abbreviation validate :=
  (externalUnused parseFieldSet hasMatchingFieldInDirectives
     selectionIncludesField logServiceAndType).
Local Abbreviation checkOne :=
  (checkType parseFieldSet hasMatchingFieldInDirectives
     selectionIncludesField logServiceAndType).
Local Abbreviation visit :=
  (checkVisited parseFieldSet hasMatchingFieldInDirectives
     selectionIncludesField logServiceAndType).
Local Abbreviation errorsOf :=
  (errorsOfVisited parseFieldSet hasMatchingFieldInDirectives
     selectionIncludesField logServiceAndType).

(** The three nested loops are one loop over the visited fields. *)
Lemma externalUnused_one_loop schema :
  validate schema
  = collectM (fun v => let* r := visit schema v in Ok (pushed r))
      (visitedFields schema).
Proof.
  unfold externalUnused, visitedFields. rewrite collectM_flat_map.
  apply collectM_ext. intros [tn nt] _. unfold checkType. simpl.
  destruct nt as [|t| | | |]; try reflexivity.
  destruct (escapesValidation (ct_federation t)); [reflexivity|].
  destruct (ct_federation t) as [m|]; [|reflexivity].
  destruct (ft_externals m) as [externals|]; [|reflexivity].
  unfold checkExternals. rewrite collectM_flat_map.
  apply collectM_ext. intros [sn fields] _. simpl.
  rewrite collectM_map. reflexivity.
Qed.

(** X8. When the validator returns, its error list is the concatenation,
    in the order of the loops (type map, then services, then external
    fields), of what each visited field pushed: at most one error per
    visited field, and every iteration returned normally. *)
Theorem externalUnused_errors_in_loop_order schema errs :
  validate schema = Ok errs ->
  errs = flat_map (errorsOf schema) (visitedFields schema) /\
  List.length errs <= List.length (visitedFields schema) /\
  Forall (fun v => exists r, visit schema v = Ok r) (visitedFields schema).
Proof.
  rewrite externalUnused_one_loop. intros H.
  apply collectM_Ok_flat in H as (-> & Hall).
  assert (Heq : forall l,
             flat_map
               (fun v => match (let* r := visit schema v in Ok (pushed r)) with
                         | Ok zs => zs
                         | Throw _ => []
                         end) l
             = flat_map (errorsOf schema) l).
  { intros l. induction l as [|v l IH]; simpl; [reflexivity|]. rewrite IH.
    f_equal. unfold errorsOfVisited.
    destruct (checkVisited _ _ _ _ schema v) as [[e|]|]; reflexivity. }
  rewrite Heq. split; [reflexivity|]. split.
  - generalize (visitedFields schema). intros l.
    induction l as [|v l IH]; simpl; [lia|]. rewrite length_app.
    unfold errorsOfVisited at 1.
    destruct (checkVisited _ _ _ _ schema v) as [[e|]|]; simpl; lia.
  - eapply List.Forall_impl; [|exact Hall].
    intros v (zs & Hz). destruct (visit schema v) as [r|]; [eauto | discriminate].
Qed.

(** X9. The validator throws exactly when the iteration for some visited
    field throws: no error list is returned then, and a schema without
    visited fields (no Object type with externals that the escape lets
    through) can never make it throw. *)
Theorem externalUnused_throws_iff schema :
  (exists e, validate schema = Throw e) <->
  List.Exists (fun v => exists e, visit schema v = Throw e) (visitedFields schema).
Proof.
  rewrite externalUnused_one_loop, collectM_Throw_iff.
  split; intros H; eapply List.Exists_impl; try exact H; intros v (e & He).
  - destruct (visit schema v) as [r|e']; [discriminate | eauto].
  - rewrite He. simpl. eauto.
Qed.

End ValidatorLoops.

(** ** Validating after serializing *)

Lemma someM_ext {A} (p q : A -> result bool) (l : list A) :
  (forall x, In x l -> p x = q x) -> someM p l = someM q l.
Proof.
  induction l as [|x l IH]; simpl; intros H; [reflexivity|].
  rewrite (H x) by now left. rewrite IH; [reflexivity|].
  intros y Hy. apply H. now right.
Qed.

Lemma someM_map {A B} (p : B -> result bool) (g : A -> B) (l : list A) :
  someM p (map g l) = someM (fun x => p (g x)) l.
Proof.
  induction l as [|x l IH]; simpl; [reflexivity|]. now rewrite IH.
Qed.

Lemma flat_map_map {A B C} (f : B -> list C) (g : A -> B) (l : list A) :
  flat_map f (map g l) = flat_map (fun x => f (g x)) l.
Proof.
  induction l as [|x l IH]; simpl; [reflexivity|]. now rewrite IH.
Qed.

Lemma lookupKey_withoutFragments (k : string) (typeMap : list (string * GraphQLNamedType)) :
  lookupKey k (mapWithoutFragments typeMap)
  = option_map typeWithoutFragments (lookupKey k typeMap).
Proof.
  induction typeMap as [|[k' t] typeMap IH]; simpl; [reflexivity|].
  destruct (String.eqb k' k); [reflexivity | exact IH].
Qed.

Lemma mapWithoutFragments_snd (typeMap : list (string * GraphQLNamedType)) :
  map snd (mapWithoutFragments typeMap) = map typeWithoutFragments (map snd typeMap).
Proof.
  induction typeMap as [|[k t] typeMap IH]; simpl; [reflexivity|]. now rewrite IH.
Qed.

Lemma findFieldsThatReturnType_withoutFragments schema type :
  findFieldsThatReturnType (schemaWithoutFragments schema) (withoutFragments type)
  = findFieldsThatReturnType schema type.
Proof.
  unfold findFieldsThatReturnType, schemaWithoutFragments, mapWithoutFragments.
  simpl. rewrite flat_map_map. apply List.flat_map_ext.
  intros [k [t|t|t|t|t|t]]; reflexivity.
Qed.

Lemma isInterfaceField_withoutFragments schema type name :
  isInterfaceField (schemaWithoutFragments schema) (withoutFragments type) name
  = isInterfaceField schema type name.
Proof.
  unfold isInterfaceField, fieldsOnInterfacesImplementedByParentType. simpl.
  f_equal. apply List.flat_map_ext. intros interfaceName.
  rewrite lookupKey_withoutFragments.
  destruct (lookupKey interfaceName (s_typeMap schema)) as [[t|t|t|t|t|t]|];
    reflexivity.
Qed.

Section Independence.

Variable parseFieldSet : string -> result (list SelectionNode).
Variable hasMatchingFieldInDirectives :
  list DirectiveNode -> string -> GraphQLCompositeType -> result bool.
Variable selectionIncludesField :
  GraphQLSchema -> list SelectionNode -> GraphQLCompositeType ->
  GraphQLCompositeType -> string -> result bool.
Variable logServiceAndType : string -> string -> string -> string.

Variable print : ASTNode -> string.
Variable astFromValue : JSValue -> TypeRef -> result (option ValueNode).
Variable JSON_stringify : string -> string.
Variable localeCompare : string -> string -> Z.
Variable isSpecifiedDirective : GraphQLDirective -> bool.
Variable isSpecifiedScalarType : GraphQLNamedType -> bool.
Variable isIntrospectionType : GraphQLNamedType -> bool.
Variable isFederationType : GraphQLNamedType -> bool.
Variable isFederationDirective : GraphQLDirective -> bool.
Variable csdlDefinitions : list string.

Hypothesis helpers_ignore_fragments :
  ignoresFragments hasMatchingFieldInDirectives selectionIncludesField.

Local Abbreviation validate :=
  (externalUnused parseFieldSet hasMatchingFieldInDirectives
     selectionIncludesField logServiceAndType).
Local Abbreviation check :=
  (checkExternalField parseFieldSet hasMatchingFieldInDirectives
     selectionIncludesField logServiceAndType).
Local Abbreviation serialize :=
  (printComposedSdl print astFromValue JSON_stringify localeCompare
     isSpecifiedDirective isSpecifiedScalarType isIntrospectionType
     isFederationType isFederationDirective csdlDefinitions).

Lemma checkExternalField_withoutFragments schema tn t sn fld :
  check (schemaWithoutFragments schema) tn (withoutFragments t) sn fld
  = check schema tn t sn fld.
Proof using helpers_ignore_fragments.
  destruct helpers_ignore_fragments as [Hdir Hsel].
  unfold checkExternalField.
  assert (H1 : hasMatchingKeyOnType hasMatchingFieldInDirectives
                 (withoutFragments t) (fd_name fld)
               = hasMatchingKeyOnType hasMatchingFieldInDirectives t (fd_name fld)).
  { unfold hasMatchingKeyOnType. simpl. apply Hdir. }
  assert (H2 : hasMatchingProvidesOnAnotherType parseFieldSet
                 (schemaWithoutFragments schema) (withoutFragments t) (fd_name fld)
               = hasMatchingProvidesOnAnotherType parseFieldSet schema t (fd_name fld)).
  { unfold hasMatchingProvidesOnAnotherType.
    rewrite findFieldsThatReturnType_withoutFragments. reflexivity. }
  assert (H3 : hasMatchingRequiresOnAnotherType parseFieldSet selectionIncludesField
                 (schemaWithoutFragments schema) (withoutFragments t) (fd_name fld)
               = hasMatchingRequiresOnAnotherType parseFieldSet selectionIncludesField
                   schema t (fd_name fld)).
  { unfold hasMatchingRequiresOnAnotherType, schemaWithoutFragments. simpl.
    rewrite mapWithoutFragments_snd, someM_map.
    apply someM_ext. intros [o|o|o|o|o|o] _; try reflexivity. simpl.
    apply someM_ext. intros f _. apply someM_ext. intros d _.
    unfold requiresReachesField.
    destruct (dir_arguments d) as [arguments|]; [|reflexivity].
    destruct (firstArgumentValue arguments) as [[text| | | | | | | |]|]; simpl;
      try reflexivity.
    destruct (parseFieldSet text) as [selections|]; simpl; [|reflexivity].
    apply (Hsel schema). }
  assert (H4 : hasMatchingRequiresOnType hasMatchingFieldInDirectives
                 (withoutFragments t) sn (fd_name fld)
               = hasMatchingRequiresOnType hasMatchingFieldInDirectives t sn
                   (fd_name fld)).
  { unfold hasMatchingRequiresOnType. simpl. apply someM_ext. intros f _.
    destruct (f_federation f) as [m|]; [|reflexivity].
    destruct (ff_serviceName m) as [| |owner]; try reflexivity.
    destruct (String.eqb owner sn); [apply Hdir | reflexivity]. }
  rewrite H1, H2, H3, H4, isInterfaceField_withoutFragments. reflexivity.
Qed.

Lemma externalUnused_withoutFragments schema :
  validate (schemaWithoutFragments schema) = validate schema.
Proof using helpers_ignore_fragments.
  unfold externalUnused. simpl. unfold mapWithoutFragments. rewrite collectM_map.
  apply collectM_ext. intros [tn nt] _. unfold checkType. simpl.
  destruct nt as [|t| | | |]; try reflexivity. simpl.
  destruct (escapesValidation (ct_federation t)); [reflexivity|].
  destruct (ct_federation t) as [m|]; [|reflexivity].
  destruct (ft_externals m) as [externals|]; [|reflexivity].
  unfold checkExternals. apply collectM_ext. intros [sn fields] _.
  apply collectM_ext. intros ext _. simpl.
  rewrite (checkExternalField_withoutFragments schema tn t sn (ext_field ext)).
  reflexivity.
Qed.

Lemma printComposedSdl_keeps_frozen_schema schema serviceList options n :
  schemaWithoutFragments (snd (fst (serialize schema serviceList options n)))
  = schemaWithoutFragments schema.
Proof.
  unfold printComposedSdl, printFilteredSchema.
  destruct (mapM _ _) as [directiveTexts|e]; [|reflexivity].
  match goal with
  | |- context [printTypes print astFromValue ?refs options ?tm n] =>
      pose proof (printTypes_frame print astFromValue refs options tm n) as Hf;
      destruct (printTypes print astFromValue refs options tm n)
        as [[[texts|e] typeMap1] n1]
  end; simpl in *; unfold schemaWithoutFragments, withTypeMap; simpl;
    rewrite Hf; reflexivity.
Qed.

(** X10. Serializing a schema does not change what the validator reports
    on it: run on the schema object as a call of [printComposedSdl] leaves
    it (returned or thrown), [externalUnused] gives the result it gives on
    the schema before the call, provided the collaborators of the
    validator do not read the fragment properties that the serializer
    stores on type objects. *)
Theorem externalUnused_after_printComposedSdl schema serviceList options n :
  externalUnused parseFieldSet hasMatchingFieldInDirectives selectionIncludesField
    logServiceAndType
    (snd (fst (printComposedSdl print astFromValue JSON_stringify localeCompare
                 isSpecifiedDirective isSpecifiedScalarType isIntrospectionType
                 isFederationType isFederationDirective csdlDefinitions
                 schema serviceList options n)))
  = externalUnused parseFieldSet hasMatchingFieldInDirectives selectionIncludesField
      logServiceAndType schema.
Proof using helpers_ignore_fragments.
  rewrite <- (externalUnused_withoutFragments
                (snd (fst (serialize schema serviceList options n)))).
  rewrite printComposedSdl_keeps_frozen_schema.
  apply externalUnused_withoutFragments.
Qed.

End Independence.

(** ** Block strings *)

Lemma last_cons (x : ascii) (s : string) :
  s <> EmptyString -> JS.last (String x s) = JS.last s.
Proof. destruct s; [contradiction | reflexivity]. Qed.

Lemma last_append_nl (s : string) : JS.last (s ++ JS.nl) = Some JS.newline.
Proof.
  induction s as [|c s IH]; [reflexivity|].
  change (String c s ++ JS.nl) with (String c (s ++ JS.nl)).
  rewrite last_cons; [exact IH|]. destruct s; discriminate.
Qed.

Lemma escapeTripleQuotes_last (s : string) :
  (s = EmptyString <-> JS.escapeTripleQuotes s = EmptyString) /\
  JS.last (JS.escapeTripleQuotes s) = JS.last s.
Proof.
  assert (H : forall n s, String.length s <= n ->
                (s = EmptyString <-> JS.escapeTripleQuotes s = EmptyString) /\
                JS.last (JS.escapeTripleQuotes s) = JS.last s);
    [|exact (H (String.length s) s (Nat.le_refl _))].
  clear s. induction n as [|n IH]; intros s Hlen.
  - destruct s; [|simpl in Hlen; lia]. split; reflexivity.
  - destruct s as [|a [|b [|c s']]].
    + split; reflexivity.
    + split; [split; discriminate | reflexivity].
    + simpl. split; [split; discriminate | reflexivity].
    + assert (Htail : forall t, String.length t <= n ->
                 t <> EmptyString ->
                 forall x, JS.last (String x (JS.escapeTripleQuotes t)) = JS.last t).
      { intros t Ht Hne x. destruct (IH t Ht) as [Hem Hl].
        rewrite last_cons; [exact Hl|]. intros E. apply Hne, Hem, E. }
      simpl in Hlen.
      change (JS.escapeTripleQuotes (String a (String b (String c s'))))
        with (if Ascii.eqb a JS.dquote && Ascii.eqb b JS.dquote && Ascii.eqb c JS.dquote
              then String JS.backslash
                     (String JS.dquote (String JS.dquote (String JS.dquote
                        (JS.escapeTripleQuotes s'))))
              else String a (JS.escapeTripleQuotes (String b (String c s')))).
      destruct (Ascii.eqb a JS.dquote && Ascii.eqb b JS.dquote && Ascii.eqb c JS.dquote)
        eqn:Hq.
      * split; [split; discriminate|].
        apply andb_true_iff in Hq as [_ Hc]. apply Ascii.eqb_eq in Hc. subst c.
        destruct (string_dec s' EmptyString) as [->|Hne]; [reflexivity|].
        assert (Hl' : String.length s' <= n) by lia.
        destruct (IH s' Hl') as [Hem Hl].
        assert (Hne' : JS.escapeTripleQuotes s' <> EmptyString)
          by (intros E; apply Hne, Hem, E).
        rewrite !last_cons; try discriminate; assumption.
      * split; [split; discriminate|].
        rewrite Htail; [reflexivity | simpl; lia | discriminate].
Qed.

Lemma replaceChar_single_line (r v : string) :
  JS.hasNoNewline v = true -> JS.replaceChar JS.newline r v = v.
Proof.
  induction v as [|c v IH]; simpl; [reflexivity|].
  intros H. apply andb_true_iff in H as [Hc Hv]. apply negb_true_iff in Hc.
  rewrite Hc, (IH Hv). reflexivity.
Qed.

(** X11. Whatever the value, [printBlockString] wraps it in triple
    quotes in such a way that the closing delimiter is never directly
    preceded by a double quote or a backslash: a value that ends with one
    of them is printed in the multi-line form, with a line break before
    the delimiter. *)
Theorem printBlockString_closing_delimiter value indentation preferMultipleLines :
  exists body,
    printBlockString value indentation preferMultipleLines
    = String JS.dquote (String JS.dquote (String JS.dquote EmptyString))
      ++ body
      ++ String JS.dquote (String JS.dquote (String JS.dquote EmptyString)) /\
    JS.charIs (JS.last body) JS.dquote = false /\
    JS.charIs (JS.last body) JS.backslash = false.
Proof.
  unfold printBlockString. eexists. split; [reflexivity|].
  destruct (negb (JS.hasNoNewline value) || JS.charIs (JS.last value) JS.dquote
            || JS.charIs (JS.last value) JS.backslash || preferMultipleLines) eqn:Hm.
  - rewrite (proj2 (escapeTripleQuotes_last _)). cbv beta iota zeta.
    rewrite last_append_nl. split; reflexivity.
  - apply orb_false_iff in Hm as [Hm _]. apply orb_false_iff in Hm as [Hm Hslash].
    apply orb_false_iff in Hm as [Hline Hquote]. apply negb_false_iff in Hline.
    rewrite (proj2 (escapeTripleQuotes_last _)). cbn [andb]. cbv beta iota zeta.
    change (EmptyString ++ ?x) with x.
    replace (if JS.truthy indentation
             then JS.replaceChar JS.newline (JS.nl ++ indentation) value
             else value) with value
      by (destruct (JS.truthy indentation);
          [symmetry; now apply replaceChar_single_line | reflexivity]).
    split; assumption.
Qed.

(** ** The further properties on the sample schemas *)

Lemma lookupComposite_withoutFragments schema name :
  Sample.lookupComposite (schemaWithoutFragments schema) name
  = option_map withoutFragments (Sample.lookupComposite schema name).
Proof.
  unfold Sample.lookupComposite, schemaWithoutFragments. simpl.
  rewrite lookupKey_withoutFragments.
  destruct (lookupKey name (s_typeMap schema)) as [[t|t|t|t|t|t]|]; reflexivity.
Qed.

Lemma selectionReaches_withoutFragments schema typeToFind fieldToFind :
  forall selection type,
    Sample.selectionReaches (schemaWithoutFragments schema) typeToFind fieldToFind
      selection (withoutFragments type)
    = Sample.selectionReaches schema typeToFind fieldToFind selection type.
Proof.
  fix IH 1. intros [name sub| |] type; simpl; try reflexivity.
  destruct (List.find _ (ct_fields type)) as [f|]; [|reflexivity].
  destruct (String.eqb (getNamedType (f_type f)) typeToFind && String.eqb name fieldToFind);
    [reflexivity|].
  destruct sub as [nested|]; [|reflexivity].
  rewrite lookupComposite_withoutFragments.
  destruct (Sample.lookupComposite schema (getNamedType (f_type f))) as [t'|];
    [|reflexivity].
  simpl. induction nested as [|x nested IHn]; simpl; [reflexivity|].
  rewrite (IH x t'), IHn. reflexivity.
Qed.

Lemma sample_helpers_ignore_fragments :
  ignoresFragments Sample.hasMatchingFieldInDirectives Sample.selectionIncludesField.
Proof.
  split; [reflexivity|].
  intros schema selections type1 type2 name. unfold Sample.selectionIncludesField.
  f_equal. simpl. induction selections as [|x selections IH]; simpl; [reflexivity|].
  rewrite selectionReaches_withoutFragments, IH. reflexivity.
Qed.

Lemma printComposedSdl_throws_iff_witness :
  (exists i key type,
      s_typeMap Further.pages !! i = Some (key, type) /\
      isDefinedType Sample.isSpecifiedScalarType Sample.isIntrospectionType
        Sample.isFederationType type = true /\
      typeThrows Sample.astFromValue type = true) /\
  fst (fst (Sample.printComposedSdl Further.pages Document.services None 0))
  = Throw (TypeError "Cannot convert value to AST") /\
  (exists e,
      fst (fst (Sample.printComposedSdl Further.pages Document.services None 0))
      = Throw e) /\
  exists text,
    fst (fst (Sample.printComposedSdl Document.valueTypes Document.services None 0))
    = Ok text.
Proof.
  assert (H : exists i key type,
             s_typeMap Further.pages !! i = Some (key, type) /\
             isDefinedType Sample.isSpecifiedScalarType Sample.isIntrospectionType
               Sample.isFederationType type = true /\
             typeThrows Sample.astFromValue type = true).
  { exists 0, "Page", (ObjectType Further.page). repeat split; reflexivity. }
  split; [exact H|]. split; [vm_compute; reflexivity|]. split.
  - exact (proj2 (printComposedSdl_throws_iff Sample.print Sample.astFromValue
                    Sample.JSON_stringify Sample.localeCompare
                    Sample.isSpecifiedDirective Sample.isSpecifiedScalarType
                    Sample.isIntrospectionType Sample.isFederationType
                    Sample.isFederationDirective Sample.csdlDefinitions
                    Further.pages Document.services None 0) (or_intror H)).
  - eexists. vm_compute. reflexivity.
Defined.

Lemma printIntrospectionSchema_throws_iff_witness :
  (exists i key type,
      s_typeMap Further.withIntrospection !! i = Some (key, type) /\
      Sample.isIntrospectionType type = true /\ lacksMetadata type) /\
  exists e,
    fst (fst (Further.printIntrospectionSchema Further.withIntrospection None 0))
    = Throw e.
Proof.
  assert (Hbad : lacksMetadata (ObjectType Further.schemaType)).
  { exists Further.schemaType,
      (Sample.field "types" (NonNullOf (ListOf (NonNullOf (NamedRef "__Type")))) [] None).
    split; [now left|]. split; [reflexivity|]. split; [now left | reflexivity]. }
  split.
  - exists 1, "__Schema", (ObjectType Further.schemaType).
    split; [reflexivity|]. split; [reflexivity | exact Hbad].
  - exact (proj2 (printIntrospectionSchema_throws_iff Sample.print Sample.astFromValue
                    Sample.JSON_stringify Sample.localeCompare
                    Sample.isSpecifiedDirective Sample.isIntrospectionType
                    Sample.csdlDefinitions Further.withIntrospection None 0)
             1 "__Schema" (ObjectType Further.schemaType) eq_refl eq_refl Hbad).
Defined.

Lemma printComposedSdl_counter_witness :
  exists text schema1,
    Sample.printComposedSdl Scenario.scenarioA Document.services None 5
    = (Ok text, schema1, 7) /\
    7 = 5 + list_sum
              (map typeKeyCount
                 (List.filter
                    (isDefinedType Sample.isSpecifiedScalarType
                       Sample.isIntrospectionType Sample.isFederationType)
                    (map snd (s_typeMap Scenario.scenarioA)))).
Proof.
  eexists _, _. split; [vm_compute; reflexivity|].
  eapply (printComposedSdl_counter Sample.print Sample.astFromValue
            Sample.JSON_stringify Sample.localeCompare Sample.isSpecifiedDirective
            Sample.isSpecifiedScalarType Sample.isIntrospectionType
            Sample.isFederationType Sample.isFederationDirective
            Sample.csdlDefinitions Scenario.scenarioA Document.services None 5).
  vm_compute. reflexivity.
Defined.

Lemma fresh_type_keeps_store (type : GraphQLCompositeType) :
  ct_fragments type = None -> ct_nextFragmentId type = None ->
  fragmentStoreKept type.
Proof.
  intros Hf Hn. unfold fragmentStoreKept, fragmentsOf, nextFragmentIdOf.
  rewrite Hf, Hn. split; [reflexivity | constructor].
Qed.

Lemma findOrCreateFragment_valid_name_witness :
  keyedByFragmentName Document.account /\
  isValidName (fst (findOrCreateFragment Sample.print Document.account
                      Document.requiresId)) = true.
Proof.
  assert (H : keyedByFragmentName Document.account)
    by (intros m Hm; discriminate Hm).
  split; [exact H|].
  exact (findOrCreateFragment_valid_name Sample.print Document.account
           Document.requiresId H).
Defined.

Lemma findOrCreateFragment_adds_one_witness :
  fragmentStoreKept Document.account /\
  fst (findOrCreateFragment Sample.print Document.account Document.requiresId)
  = fragmentName "Account" (printFieldSet Sample.print Document.requiresId) 0 /\
  fragmentStoreKept
    (snd (findOrCreateFragment Sample.print Document.account Document.requiresId)).
Proof.
  pose proof (fresh_type_keeps_store Document.account eq_refl eq_refl) as H.
  split; [exact H|].
  pose proof (findOrCreateFragment_adds_one Sample.print Document.account
                Document.requiresId H) as (H1 & _ & _ & _ & _ & H6).
  split; [exact H1 | exact H6].
Defined.

Lemma printFields_stores_one_fragment_per_request_witness :
  fragmentStoreKept Document.account /\
  exists text type1,
    printFields Sample.print Sample.astFromValue None Document.account
    = (Ok text, type1) /\
    List.length (fragmentsOf type1) = 0 + 2.
Proof.
  pose proof (fresh_type_keeps_store Document.account eq_refl eq_refl) as H.
  split; [exact H|].
  destruct (printFields Sample.print Sample.astFromValue None Document.account)
    as [[text|e] type1] eqn:Hrun; [|vm_compute in Hrun; discriminate Hrun].
  exists text, type1. split; [reflexivity|].
  exact (proj2 (printFields_stores_one_fragment_per_request Sample.print
                  Sample.astFromValue None Document.account text type1 H Hrun)).
Defined.

Lemma externalUnused_errors_in_loop_order_witness :
  Sample.externalUnused Scenario.scenarioB = Ok [Scenario.nameUnused] /\
  [Scenario.nameUnused]
  = flat_map
      (errorsOfVisited Sample.parseFieldSet Sample.hasMatchingFieldInDirectives
         Sample.selectionIncludesField Sample.logServiceAndType Scenario.scenarioB)
      (visitedFields Scenario.scenarioB) /\
  List.length (visitedFields Scenario.scenarioB) = 2.
Proof.
  split; [vm_compute; reflexivity|]. split; [|reflexivity].
  apply (externalUnused_errors_in_loop_order Sample.parseFieldSet
           Sample.hasMatchingFieldInDirectives Sample.selectionIncludesField
           Sample.logServiceAndType Scenario.scenarioB [Scenario.nameUnused]).
  vm_compute. reflexivity.
Defined.

Lemma externalUnused_throws_iff_witness :
  Sample.externalUnused Further.malformed = Throw (OtherError "MalformedFieldSet") /\
  List.Exists
    (fun v =>
       exists e,
         checkVisited Sample.parseFieldSet Sample.hasMatchingFieldInDirectives
           Sample.selectionIncludesField Sample.logServiceAndType
           Further.malformed v = Throw e)
    (visitedFields Further.malformed).
Proof.
  split; [vm_compute; reflexivity|].
  apply (proj1 (externalUnused_throws_iff Sample.parseFieldSet
                  Sample.hasMatchingFieldInDirectives Sample.selectionIncludesField
                  Sample.logServiceAndType Further.malformed)).
  eexists. vm_compute. reflexivity.
Defined.

Lemma externalUnused_after_printComposedSdl_witness :
  snd (fst (Sample.printComposedSdl Further.reviews Document.services None 0))
  <> Further.reviews /\
  Sample.externalUnused
    (snd (fst (Sample.printComposedSdl Further.reviews Document.services None 0)))
  = Sample.externalUnused Further.reviews /\
  Sample.externalUnused Further.reviews = Ok [Scenario.nameUnused].
Proof.
  split; [vm_compute; intros H; discriminate H|]. split; [|vm_compute; reflexivity].
  exact (externalUnused_after_printComposedSdl Sample.parseFieldSet
           Sample.hasMatchingFieldInDirectives Sample.selectionIncludesField
           Sample.logServiceAndType Sample.print Sample.astFromValue
           Sample.JSON_stringify Sample.localeCompare Sample.isSpecifiedDirective
           Sample.isSpecifiedScalarType Sample.isIntrospectionType
           Sample.isFederationType Sample.isFederationDirective
           Sample.csdlDefinitions sample_helpers_ignore_fragments
           Further.reviews Document.services None 0).
Defined.

(** ** Descriptions printed as comments *)

Lemma append_nl_cancel (a b : string) : a ++ JS.nl = b ++ JS.nl -> a = b.
Proof.
  revert b. induction a as [|c a IH]; intros [|d b] H; simpl in H.
  - reflexivity.
  - injection H as _ H. destruct b; discriminate H.
  - injection H as _ H. destruct a; discriminate H.
  - injection H as -> H. f_equal. apply IH. exact H.
Qed.

Lemma splitLines_nonempty (s : string) : JS.splitLines s <> [].
Proof.
  destruct s as [|c s]; simpl; [discriminate|].
  destruct (Ascii.eqb c JS.newline); [discriminate|].
  destruct (JS.splitLines s); discriminate.
Qed.

Lemma splitLines_hasNoNewline (s : string) :
  Forall (fun line => JS.hasNoNewline line = true) (JS.splitLines s).
Proof.
  induction s as [|c s IH]; simpl.
  - constructor; [reflexivity | constructor].
  - destruct (Ascii.eqb c JS.newline) eqn:Hc.
    + constructor; [reflexivity | exact IH].
    + destruct (JS.splitLines s) as [|l ls].
      * constructor; [simpl; rewrite Hc; reflexivity | constructor].
      * inversion IH as [|? ? Hl Hls]; subst.
        constructor; [simpl; rewrite Hc; exact Hl | exact Hls].
Qed.

(** [s.split('\n').join('\n')] is [s]. *)
Lemma join_splitLines (s : string) : JS.join JS.nl (JS.splitLines s) = s.
Proof.
  unfold JS.join. induction s as [|c s IH]; simpl; [reflexivity|].
  pose proof (splitLines_nonempty s) as Hne.
  destruct (Ascii.eqb c JS.newline) eqn:Hc.
  - apply Ascii.eqb_eq in Hc. subst c.
    destruct (JS.splitLines s) as [|l ls]; [contradiction|].
    change (String.concat JS.nl (EmptyString :: l :: ls))
      with (JS.nl ++ String.concat JS.nl (l :: ls)).
    rewrite IH. reflexivity.
  - destruct (JS.splitLines s) as [|l ls]; [contradiction|].
    rewrite <- IH. destruct ls as [|l' ls]; reflexivity.
Qed.

Lemma line_break_inj (x1 x2 r1 r2 : string) :
  JS.hasNoNewline x1 = true -> JS.hasNoNewline x2 = true ->
  (r1 = EmptyString \/ exists t, r1 = JS.nl ++ t) ->
  (r2 = EmptyString \/ exists t, r2 = JS.nl ++ t) ->
  x1 ++ r1 = x2 ++ r2 -> x1 = x2 /\ r1 = r2.
Proof.
  revert x2. induction x1 as [|c x1 IH]; intros [|d x2] H1 H2 Hr1 Hr2 H; simpl in *.
  - split; [reflexivity | exact H].
  - exfalso. destruct (Ascii.eqb d JS.newline) eqn:Hd; [discriminate|].
    destruct Hr1 as [-> | [t ->]]; [discriminate|].
    injection H as <- _. discriminate Hd.
  - exfalso. destruct (Ascii.eqb c JS.newline) eqn:Hc; [discriminate|].
    destruct Hr2 as [-> | [t ->]]; [discriminate|].
    injection H as -> _. discriminate Hc.
  - injection H as -> H.
    destruct (Ascii.eqb d JS.newline); [discriminate|].
    destruct (IH x2 H1 H2 Hr1 Hr2 H) as [-> ->]. split; reflexivity.
Qed.

Lemma concat_rest (x : string) (items : list string) :
  exists r,
    String.concat JS.nl (x :: items) = x ++ r /\
    (r = EmptyString \/ exists t, r = JS.nl ++ t) /\
    (items = [] -> r = EmptyString) /\
    (items <> [] -> r = JS.nl ++ String.concat JS.nl items).
Proof.
  destruct items as [|y items].
  - exists EmptyString. simpl. repeat split.
    + clear. induction x as [|c x IH]; simpl; [reflexivity | now rewrite <- IH].
    + now left.
    + intros H. now contradiction H.
  - exists (JS.nl ++ String.concat JS.nl (y :: items)). repeat split.
    + right. eexists. reflexivity.
    + discriminate.
Qed.

(** Lines without a line break are recovered from their [join('\n')]. *)
Lemma join_lines_inj (lines1 lines2 : list string) :
  Forall (fun line => JS.hasNoNewline line = true) lines1 ->
  Forall (fun line => JS.hasNoNewline line = true) lines2 ->
  lines1 <> [] -> lines2 <> [] ->
  JS.join JS.nl lines1 = JS.join JS.nl lines2 -> lines1 = lines2.
Proof.
  unfold JS.join. intros H1. revert lines2.
  induction H1 as [|x1 l1 Hx1 Hl1 IH]; intros lines2 H2 Hne1 Hne2 H;
    [contradiction|].
  destruct H2 as [|x2 l2 Hx2 Hl2]; [contradiction|].
  destruct (concat_rest x1 l1) as (r1 & E1 & Hr1 & Hnil1 & Hcons1).
  destruct (concat_rest x2 l2) as (r2 & E2 & Hr2 & Hnil2 & Hcons2).
  rewrite E1, E2 in H.
  destruct (line_break_inj x1 x2 r1 r2 Hx1 Hx2 Hr1 Hr2 H) as [-> Hr].
  f_equal.
  destruct l1 as [|y1 l1], l2 as [|y2 l2].
  - reflexivity.
  - exfalso. rewrite (Hnil1 eq_refl), (Hcons2 ltac:(discriminate)) in Hr.
    discriminate Hr.
  - exfalso. rewrite (Hnil2 eq_refl), (Hcons1 ltac:(discriminate)) in Hr.
    discriminate Hr.
  - rewrite (Hcons1 ltac:(discriminate)), (Hcons2 ltac:(discriminate)) in Hr.
    injection Hr as Hr.
    apply IH; [exact Hl2 | discriminate | discriminate | exact Hr].
Qed.

Lemma commentLine_inj (indentation line1 line2 : string) :
  indentation ++ (if JS.truthy line1 then "# " ++ line1 else "#")
  = indentation ++ (if JS.truthy line2 then "# " ++ line2 else "#") ->
  line1 = line2.
Proof.
  intros H. apply append_cancel_l in H.
  destruct line1, line2; simpl in H; try reflexivity; try discriminate H.
  injection H as -> ->. reflexivity.
Qed.

Lemma map_inj_on {A B : Type} (f : A -> B) (l1 l2 : list A) :
  (forall x y, f x = f y -> x = y) -> map f l1 = map f l2 -> l1 = l2.
Proof.
  intros Hf. revert l2. induction l1 as [|x l1 IH]; intros [|y l2] H;
    simpl in H; try discriminate H; [reflexivity|].
  injection H as Hx H. f_equal; [apply Hf, Hx | apply IH, H].
Qed.

(** X12. With [commentDescriptions] a description is printed line by
    line, each line behind the indentation and a [#]; when the
    indentation holds no line break (the printer only passes runs of
    spaces), two descriptions that print to the same comment are the same
    description. *)
Theorem printDescriptionWithComments_injective
    (description1 description2 indentation : string) (firstInBlock : bool) :
  JS.hasNoNewline indentation = true ->
  printDescriptionWithComments description1 indentation firstInBlock
  = printDescriptionWithComments description2 indentation firstInBlock ->
  description1 = description2.
Proof.
  intros Hind H. unfold printDescriptionWithComments in H.
  apply append_cancel_l, append_nl_cancel in H.
  assert (Hlines : forall d,
             Forall (fun line => JS.hasNoNewline line = true)
               (map (fun line =>
                       indentation ++ (if JS.truthy line then "# " ++ line else "#"))
                  (JS.splitLines d))).
  { intros d. apply Forall_map.
    eapply List.Forall_impl; [|apply splitLines_hasNoNewline].
    intros line Hline. simpl. rewrite hasNoNewline_append, Hind. simpl.
    destruct (JS.truthy line); [simpl; exact Hline | reflexivity]. }
  assert (Hne : forall d,
             map (fun line =>
                    indentation ++ (if JS.truthy line then "# " ++ line else "#"))
               (JS.splitLines d) <> []).
  { intros d Hd. apply map_eq_nil in Hd. exact (splitLines_nonempty d Hd). }
  apply join_lines_inj in H; [|apply Hlines|apply Hlines|apply Hne|apply Hne].
  apply map_inj_on in H; [|intros x y; apply commentLine_inj].
  rewrite <- (join_splitLines description1), <- (join_splitLines description2), H.
  reflexivity.
Qed.

Lemma printDescriptionWithComments_injective_witness :
  JS.hasNoNewline "  " = true /\
  printDescriptionWithComments ("The id." ++ JS.nl ++ JS.nl ++ "Never empty.") "  " false
  = JS.nl ++ "  # The id." ++ JS.nl ++ "  #" ++ JS.nl ++ "  # Never empty." ++ JS.nl /\
  "The id." ++ JS.nl ++ JS.nl ++ "Never empty."
  = "The id." ++ JS.nl ++ JS.nl ++ "Never empty.".
Proof.
  split; [reflexivity|]. split; [reflexivity|].
  apply (printDescriptionWithComments_injective _ _ "  " false); reflexivity.
Defined.
